(** * ClaudeMD structure parser and Markdown transformer

    A shallow embedding of the document-structure extractor, the nesting
    resolver, the Markdown transformers and the beautifier of the
    vscode-claudemd-syntax extension, together with the properties of its
    natural-language specification.

    The TypeScript sources work on UTF-16 strings through regular
    expressions.  A string is embedded as the list of its code units, and
    every regular expression of the sources is transcribed as a term of
    [regex] and run by a backtracking matcher that follows the
    continuation semantics of ECMAScript (section 22.2.2 of ECMA-262).

    In the comments, a pattern of the sources is written with a blank
    between a star and a closing parenthesis that follows it. *)

From Stdlib Require Import String Ascii NArith ZArith Lia.
From stdpp Require Import gmap list.

Local Open Scope nat_scope.

(** ** Strings as lists of UTF-16 code units *)

Definition char := N.
Definition jsstring := list char.

Definition str (s : string) : jsstring :=
  List.map N_of_ascii (list_ascii_of_string s).

Definition ch (a : ascii) : char := N_of_ascii a.

(** ECMAScript [WhiteSpace] and [LineTerminator] code points: the set that
    both the class escape [\s] and [String.prototype.trim] use. *)
Definition isLineTerminator (c : char) : bool :=
  ((c =? 10) || (c =? 13) || (c =? 8232) || (c =? 8233))%N.

Definition isWhiteSpace (c : char) : bool :=
  ((c =? 9) || (c =? 11) || (c =? 12) || (c =? 32) || (c =? 160)
   || (c =? 5760) || ((8192 <=? c) && (c <=? 8202)) || (c =? 8239)
   || (c =? 8287) || (c =? 12288) || (c =? 65279))%N.

Definition isSpace (c : char) : bool := isWhiteSpace c || isLineTerminator c.

(** The regular expression atom [.] (no [s] flag). *)
Definition isDot (c : char) : bool := negb (isLineTerminator c).

Definition isDigit (c : char) : bool := ((48 <=? c) && (c <=? 57))%N.
Definition isLower (c : char) : bool := ((97 <=? c) && (c <=? 122))%N.
Definition isUpper (c : char) : bool := ((65 <=? c) && (c <=? 90))%N.

(** [[a-zA-Z_]] and [[a-zA-Z0-9_-]] *)
Definition isNameStart (c : char) : bool := isLower c || isUpper c || (c =? 95)%N.
Definition isNameChar (c : char) : bool :=
  isLower c || isUpper c || isDigit c || (c =? 95)%N || (c =? 45)%N.

Definition isCh (a : ascii) (c : char) : bool := (c =? ch a)%N.
Definition notCh (a : ascii) (c : char) : bool := negb (c =? ch a)%N.

Fixpoint streq (a b : jsstring) : bool :=
  match a, b with
  | [], [] => true
  | x :: a', y :: b' => (x =? y)%N && streq a' b'
  | _, _ => false
  end.

(** [w] is a prefix of [s]: the rest of [s] after it. *)
Fixpoint stripPrefix (w s : jsstring) : option jsstring :=
  match w, s with
  | [], _ => Some s
  | x :: w', y :: s' => if (x =? y)%N then stripPrefix w' s' else None
  | _ :: _, [] => None
  end.

(** [String.prototype.includes] *)
Fixpoint includes (s w : jsstring) : bool :=
  match stripPrefix w s with
  | Some _ => true
  | None => match s with [] => false | _ :: s' => includes s' w end
  end.

(** [String.prototype.repeat] *)
Fixpoint repeatStr (s : jsstring) (n : nat) : jsstring :=
  match n with
  | 0 => []
  | S n' => s ++ repeatStr s n'
  end.

(** [String.prototype.trimStart], [trimEnd] and [trim] *)
Fixpoint trimStart (s : jsstring) : jsstring :=
  match s with
  | c :: s' => if isSpace c then trimStart s' else s
  | [] => []
  end.

Definition trimEnd (s : jsstring) : jsstring := rev (trimStart (rev s)).

Definition trim (s : jsstring) : jsstring := trimEnd (trimStart s).

(** [Array.prototype.join] *)
Fixpoint join (sep : jsstring) (l : list jsstring) : jsstring :=
  match l with
  | [] => []
  | [s] => s
  | s :: l' => s ++ sep ++ join sep l'
  end.

(** [text.split(/\r?\n/)]: a line ends at a line feed, which takes a
    carriage return just before it along; any other carriage return is an
    ordinary character of its line. *)
Fixpoint splitFrom (cur : jsstring) (s : jsstring) : list jsstring :=
  match s with
  | [] => [rev cur]
  | c :: s' =>
      if (c =? 10)%N then rev cur :: splitFrom [] s'
      else if (c =? 13)%N then
        match s' with
        | d :: s'' =>
            if (d =? 10)%N then rev cur :: splitFrom [] s''
            else splitFrom (c :: cur) s'
        | [] => splitFrom (c :: cur) s'
        end
      else splitFrom (c :: cur) s'
  end.

Definition splitLines (text : jsstring) : list jsstring := splitFrom [] text.

(** Decimal rendering of an index, as template literals do. *)
Definition digitsOf (n : nat) : jsstring :=
  (fix go (fuel : nat) (n : nat) (acc : jsstring) : jsstring :=
     match fuel with
     | 0 => acc
     | S fuel' =>
         let acc' := (48 + N.of_nat (n mod 10))%N :: acc in
         if n / 10 =? 0 then acc' else go fuel' (n / 10) acc'
     end) (S n) n [].

(** [parseInt] on a string of decimal digits. *)
Definition parseInt (s : jsstring) : N :=
  fold_left (fun acc c => (acc * 10 + (c - 48))%N) s 0%N.

(** ** Regular expressions

    The fragment of ECMAScript patterns that the sources use: character
    classes, sequence, alternation, greedy and lazy bounded repetition,
    capture groups, backreferences and the anchors [^] and [$] (no [m]
    flag).  A non-capturing group [(?:r)] is [r] itself. *)

Inductive regex : Type :=
| Eps
| Chr (p : char -> bool)
| Seq (r1 r2 : regex)
| Alt (r1 r2 : regex)
| Rep (greedy : bool) (min : nat) (max : option nat) (r : regex)
| Grp (n : nat) (r : regex)
| Bref (n : nat)
| Bol
| Eol.

Declare Scope regex_scope.
Delimit Scope regex_scope with re.
Bind Scope regex_scope with regex.
Infix "·" := Seq (at level 40, left associativity) : regex_scope.
Infix "│" := Alt (at level 50, left associativity) : regex_scope.

Definition Lit (a : ascii) : regex := Chr (isCh a).
Definition Star (r : regex) : regex := Rep true 0 None r.
Definition Plus (r : regex) : regex := Rep true 1 None r.
Definition Opt (r : regex) : regex := Rep true 0 (Some 1) r.
Definition LazyPlus (r : regex) : regex := Rep false 1 None r.
Definition AtLeast (n : nat) (r : regex) : regex := Rep true n None r.

(** A literal string, as spliced into a pattern by [new RegExp]. *)
Fixpoint Str (s : jsstring) : regex :=
  match s with
  | [] => Eps
  | c :: s' => Seq (Chr (N.eqb c)) (Str s')
  end.

(** The capture groups of a pattern: a repetition clears them each time
    round. *)
Fixpoint groupsOf (r : regex) : list nat :=
  match r with
  | Seq a b | Alt a b => groupsOf a ++ groupsOf b
  | Rep _ _ _ a => groupsOf a
  | Grp n a => n :: groupsOf a
  | _ => []
  end.

(** The matcher state: the input still ahead of the end index, and the
    captures. *)
Record mstate : Type := MState { rest : jsstring; caps : gmap nat jsstring }.

Definition clearCaps (gs : list nat) (x : mstate) : mstate :=
  MState (rest x) (foldr (fun n c => delete n c) (caps x) gs).

Definition predMax (mx : option nat) : option nat :=
  match mx with Some n => Some (Nat.pred n) | None => None end.

Definition isZero (mx : option nat) : bool :=
  match mx with Some 0 => true | _ => false end.

(** The rounds of a repetition (ECMAScript's RepeatMatcher), over the
    matcher [ma] of the repeated pattern, which clears the captures of
    that pattern before each round.

    The optional rounds: a round must move the end index (step 2.b of
    RepeatMatcher), so the rounds that remain are bounded by the input that
    remains, which is the fuel. *)
Fixpoint starLoop (ma : mstate -> (mstate -> option mstate) -> option mstate)
    (greedy : bool) (k : mstate -> option mstate)
    (fuel : nat) (mx : option nat) (x : mstate) {struct fuel} : option mstate :=
  if isZero mx then k x else
  let d := fun y : mstate =>
    if length (rest y) <? length (rest x) then
      match fuel with
      | S fuel' => starLoop ma greedy k fuel' (predMax mx) y
      | 0 => None
      end
    else None in
  if greedy then
    match ma x d with
    | Some z => Some z
    | None => k x
    end
  else
    match k x with
    | Some z => Some z
    | None => ma x d
    end.

(** The [min] compulsory rounds, then the optional ones. *)
Fixpoint requiredLoop (ma : mstate -> (mstate -> option mstate) -> option mstate)
    (greedy : bool) (k : mstate -> option mstate)
    (mn : nat) (mx : option nat) (x : mstate) {struct mn} : option mstate :=
  match mn with
  | S mn' =>
      if isZero mx then k x
      else ma x (fun y => requiredLoop ma greedy k mn' (predMax mx) y)
  | 0 => starLoop ma greedy k (length (rest x)) mx x
  end.

(** [matcher total r x k]: match [r] at state [x] of an input of length
    [total] and go on with the continuation [k]; [None] is failure. *)
Fixpoint matcher (total : nat) (r : regex) (x : mstate)
    (k : mstate -> option mstate) {struct r} : option mstate :=
  match r with
  | Eps => k x
  | Chr p =>
      match rest x with
      | c :: t => if p c then k (MState t (caps x)) else None
      | [] => None
      end
  | Seq a b => matcher total a x (fun y => matcher total b y k)
  | Alt a b =>
      match matcher total a x k with
      | Some z => Some z
      | None => matcher total b x k
      end
  | Grp n a =>
      matcher total a x (fun y =>
        k (MState (rest y)
             (<[n := take (length (rest x) - length (rest y)) (rest x)]> (caps y))))
  | Bref n =>
      match caps x !! n with
      | None => k x
      | Some w =>
          match stripPrefix w (rest x) with
          | Some t => k (MState t (caps x))
          | None => None
          end
      end
  | Bol => if length (rest x) =? total then k x else None
  | Eol => match rest x with [] => k x | _ :: _ => None end
  | Rep greedy mn mx a =>
      requiredLoop (fun y k' => matcher total a (clearCaps (groupsOf a) y) k')
        greedy k mn mx x
  end.

(** What [RegExp.prototype.exec] returns: the index of the match, the
    matched text and the captures ([undefined] is [None]). *)
Record MatchResult : Type := MkMatch {
  mindex : nat;
  mtext : jsstring;
  mgroups : gmap nat jsstring;
  mafter : jsstring
}.

Definition group (n : nat) (mr : MatchResult) : option jsstring := mgroups mr !! n.

(** [match[n] || ''] *)
Definition groupOrEmpty (n : nat) (mr : MatchResult) : jsstring :=
  default [] (group n mr).

Definition matchHere (total : nat) (r : regex) (s : jsstring) : option MatchResult :=
  match matcher total r (MState s ∅) Some with
  | Some y =>
      Some (MkMatch (total - length s) (take (length s - length (rest y)) s)
              (caps y) (rest y))
  | None => None
  end.

(** The leftmost match at or after the current index. *)
Fixpoint search (total : nat) (r : regex) (s : jsstring) : option MatchResult :=
  match matchHere total r s with
  | Some mr => Some mr
  | None => match s with [] => None | _ :: s' => search total r s' end
  end.

(** [s.match(r)] and [r.exec(s)] for a pattern without the [g] flag *)
Definition regexMatch (r : regex) (s : jsstring) : option MatchResult :=
  search (length s) r s.

(** [r.test(s)] *)
Definition regexTest (r : regex) (s : jsstring) : bool :=
  match regexMatch r s with Some _ => true | None => false end.

(** The successive matches of a pattern with the [g] flag, as the loop
    [while ((match = r.exec(s)) !== null)] and [s.replace(r, f)]
    enumerate them: each search starts where the match before ended (one
    further after an empty match). *)
Fixpoint matchesFrom (fuel : nat) (total : nat) (r : regex) (s : jsstring)
    : list MatchResult :=
  match fuel with
  | 0 => []
  | S fuel' =>
      match search total r s with
      | None => []
      | Some mr =>
          mr :: match mtext mr, mafter mr with
                | _ :: _, t => matchesFrom fuel' total r t
                | [], _ :: t => matchesFrom fuel' total r t
                | [], [] => []
                end
      end
  end.

Definition allMatches (r : regex) (s : jsstring) : list MatchResult :=
  matchesFrom (S (length s)) (length s) r s.

(** [s.replace(r, f)] for a global pattern [r] and a replacer function. *)
Fixpoint spliceMatches (s : jsstring) (pos : nat) (ms : list MatchResult)
    (f : MatchResult -> jsstring) : jsstring :=
  match ms with
  | [] => drop pos s
  | mr :: ms' =>
      take (mindex mr - pos) (drop pos s) ++ f mr
        ++ spliceMatches s (mindex mr + length (mtext mr)) ms' f
  end.

Definition replaceAll (r : regex) (s : jsstring) (f : MatchResult -> jsstring)
    : jsstring :=
  spliceMatches s 0 (allMatches r s) f.

(** [s.replace(r, f)] where the replacer [f] also updates a state (the
    array it pushes to). *)
Fixpoint spliceMatchesSt {S : Type} (s : jsstring) (pos : nat)
    (ms : list MatchResult) (f : S -> MatchResult -> S * jsstring) (st : S)
    : jsstring * S :=
  match ms with
  | [] => (drop pos s, st)
  | mr :: ms' =>
      let '(st1, out) := f st mr in
      let '(tail, st2) :=
        spliceMatchesSt s (mindex mr + length (mtext mr)) ms' f st1 in
      (take (mindex mr - pos) (drop pos s) ++ out ++ tail, st2)
  end.

Definition replaceAllSt {S : Type} (r : regex) (s : jsstring)
    (f : S -> MatchResult -> S * jsstring) (st : S) : jsstring * S :=
  spliceMatchesSt s 0 (allMatches r s) f st.

(** ** Data model (the interfaces of the sources) *)

(** [Map<string, string>]: keys in insertion order; setting a key that is
    present keeps its place. *)
Definition Attributes := list (jsstring * jsstring).

Fixpoint mapSet (k v : jsstring) (m : Attributes) : Attributes :=
  match m with
  | [] => [(k, v)]
  | (k', v') :: m' =>
      if bool_decide (k' = k) then (k, v) :: m' else (k', v') :: mapSet k v m'
  end.

Record XmlTag : Type := MkTag {
  name : jsstring;
  line : nat;
  indent : nat;
  isOpening : bool;
  isClosing : bool;
  isSelfClosing : bool;
  attributes : Attributes;
  startIndex : nat;
  endIndex : nat
}.

Record MarkdownHeader : Type := MkHeader {
  level : nat;
  hline : nat;
  text : jsstring
}.

Record DocumentStructure : Type := MkStructure {
  xmlTags : list XmlTag;
  headers : list MarkdownHeader;
  horizontalRules : list nat
}.

(** An entry of a tag stack, [{ name, line }].  The stacks are arrays:
    [push] appends, the top is the last element. *)
Abbreviation StackEntry := (jsstring * nat)%type.

(** The loop [for (let i = stack.length - 1; i >= 0; i--) if
    (stack[i].name === name) { stack.splice(i, 1); break; }]: the entry
    found and the stack without it, or [None] when no entry has the name. *)
Fixpoint spliceLast (nm : jsstring) (stack : list StackEntry)
    : option (StackEntry * list StackEntry) :=
  match stack with
  | [] => None
  | e :: st' =>
      match spliceLast nm st' with
      | Some (found, st'') => Some (found, e :: st'')
      | None => if bool_decide (e.1 = nm) then Some (e, st') else None
      end
  end.

(** [new Set(array)]: the elements in the order of their first occurrence. *)
Fixpoint setOf (l : list nat) (seen : list nat) : list nat :=
  match l with
  | [] => []
  | x :: l' =>
      if bool_decide (x ∈ seen) then setOf l' seen else x :: setOf l' (x :: seen)
  end.

(** ** The patterns shared by the variants *)

Local Open Scope regex_scope.

(** The double quote, code unit 34 *)
Definition quote : char := 34%N.
Definition isQuote (c : char) : bool := (c =? quote)%N.

Definition isHrChar (c : char) : bool := isCh "-" c || isCh "*" c || isCh "_" c.

(** The tag name "[a-zA-Z_][a-zA-Z0-9_-]*" *)
Definition tagName : regex := Chr isNameStart · Star (Chr isNameChar).

(** [(`{3,}|~{3,})] as group [n] *)
Definition fenceRun (n : nat) : regex :=
  Grp n (AtLeast 3 (Lit "`") │ AtLeast 3 (Lit "~")).

(** The pattern /^(\s* )(`{3,}|~{3,})/ *)
Definition codeBlockRegex : regex := Bol · Grp 1 (Star (Chr isSpace)) · fenceRun 2.

(** The pattern /^(\s* )(`{3,}|~{3,})(.* )$/, the fence test of
    [convertToMarkdown] in part_000 and of [convertClaudeMdToMarkdown] *)
Definition fenceLineRegex : regex :=
  Bol · Grp 1 (Star (Chr isSpace)) · fenceRun 2 · Grp 3 (Star (Chr isDot)) · Eol.

(** [/^(#{1,6})\s+(.+?)\s*$/] *)
Definition headerRegex : regex :=
  Bol · Grp 1 (Rep true 1 (Some 6) (Lit "#")) · Plus (Chr isSpace)
  · Grp 2 (LazyPlus (Chr isDot)) · Star (Chr isSpace) · Eol.

(** [/^\s*([-*_]){3,}\s*$/] *)
Definition horizontalRuleRegex : regex :=
  Bol · Star (Chr isSpace) · AtLeast 3 (Grp 1 (Chr isHrChar))
  · Star (Chr isSpace) · Eol.

(** The optional attribute region (\s+[^>]* )?, as group [n] *)
Definition attrRegion (n : nat) : regex :=
  Opt (Grp n (Plus (Chr isSpace) · Star (Chr (notCh ">")))).

(** The pattern /<([a-zA-Z_][a-zA-Z0-9_-]* )(\s+[^>]* )?\s*>/g *)
Definition xmlOpeningTagRegex : regex :=
  Lit "<" · Grp 1 tagName · attrRegion 2 · Star (Chr isSpace) · Lit ">".

(** The pattern /<\/([a-zA-Z_][a-zA-Z0-9_-]* )>/g *)
Definition xmlClosingTagRegex : regex :=
  Lit "<" · Lit "/" · Grp 1 tagName · Lit ">".

(** The pattern /<([a-zA-Z_][a-zA-Z0-9_-]* )(\s+[^>]* )?\s*\/>/g *)
Definition xmlSelfClosingRegex : regex :=
  Lit "<" · Grp 1 tagName · attrRegion 2 · Star (Chr isSpace) · Lit "/" · Lit ">".

(** The attribute pattern: a name, [\s*=\s*], then a value in double
    quotes (group 2), in single quotes (group 3) or bare, [[^\s>]+]
    (group 4). *)
Definition attrRegex : regex :=
  Grp 1 tagName · Star (Chr isSpace) · Lit "=" · Star (Chr isSpace)
  · (Chr isQuote · Grp 2 (Star (Chr (fun c => negb (isQuote c)))) · Chr isQuote
     │ Lit "'" · Grp 3 (Star (Chr (notCh "'"))) · Lit "'"
     │ Grp 4 (Plus (Chr (fun c => negb (isSpace c || isCh ">" c))))).

(** /<\/?[a-zA-Z_][a-zA-Z0-9_-]*(?:\s+[^>]* )?>/g, the pattern that strips
    stray tags; the third variant writes the same pattern with a capture
    group that it does not use. *)
Definition strayTagRegex : regex :=
  Lit "<" · Opt (Lit "/") · tagName
  · Opt (Plus (Chr isSpace) · Star (Chr (notCh ">"))) · Lit ">".

(** [a || b] on strings that may be [undefined]: the first that is
    neither [undefined] nor empty. *)
Definition orElse (a : option jsstring) (b : jsstring) : jsstring :=
  match a with
  | Some (c :: w) => c :: w
  | _ => b
  end.

(** [parseAttributes] (first file of part_000, lines 171-179; the loop of
    src/extension.ts, lines 85-91 and 119-126, is the same). *)
Definition parseAttributes (attrString : jsstring) : Attributes :=
  fold_left
    (fun attributes mr =>
       mapSet (groupOrEmpty 1 mr)
         (orElse (group 2 mr) (orElse (group 3 mr) (orElse (group 4 mr) [])))
         attributes)
    (allMatches attrRegex attrString) [].

(** [Math.min(depth + 2, 6)] and the header prefix ['#'.repeat(headerLevel)] *)
Definition headerLevelOf (depth : Z) : Z := Z.min (depth + 2) 6.

Definition headerPrefix (headerLevel : Z) : jsstring :=
  repeatStr (str "#") (Z.to_nat headerLevel).

(** [name.replace(/_/g, '\\_')] *)
Definition escapeUnderscore (s : jsstring) : jsstring :=
  replaceAll (Lit "_") s (fun _ => [92%N; 95%N]).

(** A folding range, [new vscode.FoldingRange(start, end, Region)] *)
Definition FoldingRange : Type := nat * nat.

(** The host's document: its text, and its lines as the editor cuts them
    ([lineCount], [lineAt(i).text]). *)
Record TextDocument : Type := MkDocument {
  getText : jsstring;
  lineTexts : list jsstring
}.

(** [{ name, attributes }], the value type of the per-line tag map *)
Abbreviation TagInfo := (jsstring * Attributes)%type.

(** The state of the nesting resolver: the depth counter, the stack and
    the three per-line tables it fills. *)
Record Resolver : Type := MkResolver {
  currentDepth : Z;
  tagStack : list StackEntry;
  tagDepthMap : gmap nat Z;
  tagInfoMap : gmap nat TagInfo;
  tagEndLines : gset nat
}.

Definition initResolver : Resolver := MkResolver 0 [] ∅ ∅ ∅.

(** The tag loop of [provideFoldingRanges] (part_000, lines 199-215;
    src/extension.ts, lines 158-175): the stack and the ranges pushed. *)
Definition foldTag (st : list StackEntry * list FoldingRange) (tag : XmlTag)
    : list StackEntry * list FoldingRange :=
  let '(stack, ranges) := st in
  if isOpening tag then (stack ++ [(name tag, line tag)], ranges)
  else if isClosing tag then
    match spliceLast (name tag) stack with
    | Some ((_, startLine), stack') =>
        let endLine := line tag in
        (stack', if startLine <? endLine then ranges ++ [(startLine, endLine)] else ranges)
    | None => (stack, ranges)
    end
  else (stack, ranges).

Definition foldTags (tags : list XmlTag) : list StackEntry * list FoldingRange :=
  fold_left foldTag tags ([], []).

(** [[...headers].sort((a, b) => a.line - b.line)]: a stable sort by line. *)
Fixpoint insertHeader (h : MarkdownHeader) (l : list MarkdownHeader) : list MarkdownHeader :=
  match l with
  | [] => [h]
  | h' :: l' => if hline h' <=? hline h then h' :: insertHeader h l' else h :: l
  end.

Definition sortHeaders (l : list MarkdownHeader) : list MarkdownHeader :=
  fold_left (fun acc h => insertHeader h acc) l [].

(** The header loop of [provideFoldingRanges].  The stack is kept with
    its top first here; [endLine] is a line index minus one, which never
    compares above a line when the index is 0. *)
Fixpoint popHeaders (keep : nat * nat -> bool) (endLine : nat)
    (stack : list (nat * nat)) : list (nat * nat) * list FoldingRange :=
  match stack with
  | [] => ([], [])
  | (lvl, ln) :: stack' =>
      if keep (lvl, ln) then (stack, [])
      else
        let '(s, rs) := popHeaders keep endLine stack' in
        (s, (if ln <? endLine then [(ln, endLine)] else []) ++ rs)
  end.

Fixpoint foldHeaders (lineCount : nat) (sorted : list MarkdownHeader)
    (stack : list (nat * nat)) : list FoldingRange :=
  match sorted with
  | [] => []
  | current :: next =>
      let '(stack1, rs1) :=
        popHeaders (fun e => e.1 <? level current) (Nat.pred (hline current)) stack in
      let stack2 := (level current, hline current) :: stack1 in
      match next with
      | [] => rs1 ++ (popHeaders (fun _ => false) (Nat.pred lineCount) stack2).2
      | _ :: _ => rs1 ++ foldHeaders lineCount next stack2
      end
  end.

(** The code-block loop of [provideFoldingRanges]. *)
Fixpoint foldFences (lines : list jsstring) (i : nat) (codeBlockStart : option nat)
    : list FoldingRange :=
  match lines with
  | [] => []
  | l :: lines' =>
      if regexTest codeBlockRegex l then
        match codeBlockStart with
        | None => foldFences lines' (S i) (Some i)
        | Some start =>
            (if start <? i then [(start, i)] else []) ++ foldFences lines' (S i) None
        end
      else foldFences lines' (S i) codeBlockStart
  end.

(** The resolver's step on one tag, after the horizontal-rule check: the
    same in part_000 (lines 310-327) and src/extension.ts (lines 264-282). *)
Definition resolveTag (tag : XmlTag) (r : Resolver) : Resolver :=
  if isOpening tag then
    MkResolver (currentDepth r + 1)
      (tagStack r ++ [(name tag, line tag)])
      (<[line tag := currentDepth r]> (tagDepthMap r))
      (<[line tag := (name tag, attributes tag)]> (tagInfoMap r))
      (tagEndLines r)
  else if isClosing tag then
    let ends := {[ line tag ]} ∪ tagEndLines r in
    match spliceLast (name tag) (tagStack r) with
    | Some (_, stack') =>
        MkResolver (Z.max 0 (currentDepth r - 1)) stack'
          (tagDepthMap r) (tagInfoMap r) ends
    | None =>
        MkResolver (currentDepth r) (tagStack r) (tagDepthMap r) (tagInfoMap r) ends
    end
  else if isSelfClosing tag then
    MkResolver (currentDepth r) (tagStack r)
      (<[line tag := currentDepth r]> (tagDepthMap r))
      (<[line tag := (name tag, attributes tag)]> (tagInfoMap r))
      (tagEndLines r)
  else r.

Definition resetResolver (r : Resolver) : Resolver :=
  MkResolver 0 [] (tagDepthMap r) (tagInfoMap r) (tagEndLines r).

(** The attribute string of a header:
    [` (${attrs.join(', ')})`] over [`${key}="${value}"`], or nothing for an
    empty map; [esc] is what is applied to the keys. *)
Definition attrStringOf (esc : jsstring -> jsstring) (attrs : Attributes) : jsstring :=
  match attrs with
  | [] => []
  | _ :: _ =>
      str " (" ++ join (str ", ")
                    (List.map (fun kv => esc kv.1 ++ str "=" ++ [quote] ++ kv.2 ++ [quote]) attrs)
        ++ str ")"
  end.

(** The header of a line, if it is one (part_000, lines 100-107;
    src/extension.ts, lines 73-80). *)
Definition headerOfLine (i : nat) (line : jsstring) : list MarkdownHeader :=
  match regexMatch headerRegex line with
  | Some mr => [MkHeader (length (groupOrEmpty 1 mr)) i (groupOrEmpty 2 mr)]
  | None => []
  end.

(** The line loop of the two extractors ([parseDocumentText], part_000,
    lines 77-166; [parseDocument], src/extension.ts, lines 49-137), which
    differ in how they read the tags of a line. *)
Fixpoint parseLinesWith (tagsOfLine : nat -> jsstring -> list XmlTag)
    (lines : list jsstring) (i : nat) (inCodeBlock : bool)
    (acc : DocumentStructure) : DocumentStructure :=
  match lines with
  | [] => acc
  | line :: lines' =>
      if regexTest codeBlockRegex line then
        parseLinesWith tagsOfLine lines' (S i) (negb inCodeBlock) acc
      else if inCodeBlock then
        parseLinesWith tagsOfLine lines' (S i) inCodeBlock acc
      else if regexTest horizontalRuleRegex line then
        parseLinesWith tagsOfLine lines' (S i) inCodeBlock
          (MkStructure (xmlTags acc) (headers acc) (horizontalRules acc ++ [i]))
      else
        parseLinesWith tagsOfLine lines' (S i) inCodeBlock
          (MkStructure (xmlTags acc ++ tagsOfLine i line)
             (headers acc ++ headerOfLine i line)
             (horizontalRules acc))
  end.

(** The line loop of the two [convertToMarkdown], over what one round
    does: the lines pushed in each round. *)
Fixpoint convertLinesWith (convertLine : nat -> jsstring -> bool -> bool * list jsstring)
    (lines : list jsstring) (i : nat) (inCodeBlock : bool) : list (list jsstring) :=
  match lines with
  | [] => []
  | line :: lines' =>
      let '(inCodeBlock', pushed) := convertLine i line inCodeBlock in
      pushed :: convertLinesWith convertLine lines' (S i) inCodeBlock'
  end.

(** ** The current extension (first file of src/unnamed/part_000) *)

Module Masking.

(** [`\x00CODE${index}\x00`] *)
Definition placeholder (index : nat) : jsstring :=
  0%N :: str "CODE" ++ digitsOf index ++ [0%N].

(** The pattern /(`{2,})([^`]+?)\1/g *)
Definition multiBacktickRegex : regex :=
  Grp 1 (AtLeast 2 (Lit "`")) · Grp 2 (LazyPlus (Chr (notCh "`"))) · Bref 1.

(** The pattern /`([^`]+)`/g *)
Definition singleBacktickRegex : regex :=
  Lit "`" · Grp 1 (Plus (Chr (notCh "`"))) · Lit "`".

(** The replacer of both passes: [index = codeBlocks.length], push the
    match, return the placeholder. *)
Definition pushCode (codeBlocks : list jsstring) (mr : MatchResult)
    : list jsstring * jsstring :=
  (codeBlocks ++ [mtext mr], placeholder (length codeBlocks)).

(** [maskCodeContent] (lines 37-55): [{ masked, codeBlocks }] *)
Definition maskCodeContent (text : jsstring) : jsstring * list jsstring :=
  let '(masked, codeBlocks) := replaceAllSt multiBacktickRegex text pushCode [] in
  replaceAllSt singleBacktickRegex masked pushCode codeBlocks.

(** The pattern /\x00CODE(\d+)\x00/g *)
Definition placeholderRegex : regex :=
  Chr (N.eqb 0) · Str (str "CODE") · Grp 1 (Plus (Chr isDigit)) · Chr (N.eqb 0).

(** [unmaskCodeContent] (lines 60-62).  An index past the end of the
    array reads [undefined], which [replace] writes out as a word. *)
Definition unmaskCodeContent (text : jsstring) (codeBlocks : list jsstring) : jsstring :=
  replaceAll placeholderRegex text
    (fun mr =>
       match codeBlocks !! N.to_nat (parseInt (groupOrEmpty 1 mr)) with
       | Some block => block
       | None => str "undefined"
       end).

(** The tags of one line outside code blocks (lines 109-165), from the
    line with its inline code masked: self-closing tags, then closing
    tags, then the opening tags of the line with its self-closing tags
    blanked out. *)
Definition selfClosingTags (i indent : nat) (masked : jsstring) : list XmlTag :=
  List.map (fun mr =>
    MkTag (groupOrEmpty 1 mr) i indent false false true
      (parseAttributes (groupOrEmpty 2 mr))
      (mindex mr) (mindex mr + length (mtext mr)))
    (allMatches xmlSelfClosingRegex masked).

Definition closingTags (i indent : nat) (masked : jsstring) : list XmlTag :=
  List.map (fun mr =>
    MkTag (groupOrEmpty 1 mr) i indent false true false []
      (mindex mr) (mindex mr + length (mtext mr)))
    (allMatches xmlClosingTagRegex masked).

Definition openingTags (i indent : nat) (masked : jsstring) : list XmlTag :=
  let maskedWithoutSelfClosing :=
    replaceAll xmlSelfClosingRegex masked
      (fun mr => repeatStr (str " ") (length (mtext mr))) in
  List.map (fun mr =>
    MkTag (groupOrEmpty 1 mr) i indent true false false
      (parseAttributes (groupOrEmpty 2 mr))
      (mindex mr) (mindex mr + length (mtext mr)))
    (allMatches xmlOpeningTagRegex maskedWithoutSelfClosing).

Definition tagsOfLine (i : nat) (line : jsstring) : list XmlTag :=
  let indent := length line - length (trimStart line) in
  let masked := (maskCodeContent line).1 in
  selfClosingTags i indent masked ++ closingTags i indent masked
  ++ openingTags i indent masked.

Definition parseLines : list jsstring -> nat -> bool -> DocumentStructure
    -> DocumentStructure :=
  parseLinesWith tagsOfLine.

(** [parseDocumentText] (lines 64-169) *)
Definition parseDocumentText (text : jsstring) : DocumentStructure :=
  parseLines (splitLines text) 0 false (MkStructure [] [] []).

(** [provideFoldingRanges] (lines 188-265) *)
Definition provideFoldingRanges (document : TextDocument) : list FoldingRange :=
  let structure := parseDocumentText (getText document) in
  (foldTags (xmlTags structure)).2
  ++ foldHeaders (length (lineTexts document)) (sortHeaders (headers structure)) []
  ++ foldFences (lineTexts document) 0 None.

(** The horizontal-rule check before each tag (lines 303-308). *)
Definition resetAtRule (tag : XmlTag) (r : Resolver) (hrLine : nat) : Resolver :=
  if (hrLine <? line tag)
     && match last (tagStack r) with
        | None => true
        | Some top => top.2 <? hrLine
        end
  then resetResolver r else r.

Definition resolveStep (hrLines : list nat) (r : Resolver) (tag : XmlTag) : Resolver :=
  resolveTag tag (fold_left (resetAtRule tag) hrLines r).

(** The tag loop of [convertToMarkdown] (lines 301-328). *)
Definition resolveTags (hrLines : list nat) (tags : list XmlTag) : Resolver :=
  fold_left (resolveStep hrLines) tags initResolver.

(** [new RegExp(`<${tagInfo.name}(?:\\s+[^>]* )?>\\s*(.* )$`)] *)
Definition tagPattern (nm : jsstring) : regex :=
  Lit "<" · Str nm · Opt (Plus (Chr isSpace) · Star (Chr (notCh ">"))) · Lit ">"
  · Star (Chr isSpace) · Grp 1 (Star (Chr isDot)) · Eol.

(** The lines pushed for a line that carries a header (lines 354-385). *)
Definition headerLines (depth : Z) (tagInfo : TagInfo) (line : jsstring) : list jsstring :=
  let headerLevel := headerLevelOf depth in
  let escapedName := escapeUnderscore tagInfo.1 in
  let attrString := attrStringOf escapeUnderscore tagInfo.2 in
  [headerPrefix headerLevel ++ str " " ++ escapedName ++ attrString; []]
  ++ match regexMatch (tagPattern tagInfo.1) line with
     | Some mr =>
         match trim (groupOrEmpty 1 mr) with
         | [] => []
         | content => [content]
         end
     | None => []
     end.

(** The lines pushed for a regular content line (lines 387-399). *)
Definition contentLines (line : jsstring) : list jsstring :=
  let '(masked, codeBlocks) := maskCodeContent line in
  let processed := unmaskCodeContent (replaceAll strayTagRegex masked (fun _ => [])) codeBlocks in
  match trim processed, trim line with
  | _ :: _, _ | _, [] => [processed]
  | [], _ :: _ => []
  end.

(** One round of the line loop of [convertToMarkdown] (lines 330-401):
    the code-block flag after the line and the lines pushed. *)
Definition convertLine (r : Resolver) (i : nat) (line : jsstring) (inCodeBlock : bool)
    : bool * list jsstring :=
  if regexTest fenceLineRegex line then (negb inCodeBlock, [line])
  else if inCodeBlock then (inCodeBlock, [line])
  else if bool_decide (i ∈ tagEndLines r) then (inCodeBlock, [[]])
  else
    match tagDepthMap r !! i, tagInfoMap r !! i with
    | Some depth, Some tagInfo => (inCodeBlock, headerLines depth tagInfo line)
    | Some _, None => (inCodeBlock, [])   (* the two maps are set together *)
    | None, _ => (inCodeBlock, contentLines line)
    end.

Definition convertLines (r : Resolver) : list jsstring -> nat -> bool
    -> list (list jsstring) :=
  convertLinesWith (convertLine r).

(** [convertToMarkdown] (lines 281-404) *)
Definition convertToMarkdown (text : jsstring) : jsstring :=
  let structure := parseDocumentText text in
  let hrLines := setOf (horizontalRules structure) [] in
  let r := resolveTags hrLines (xmlTags structure) in
  join [10%N] (concat (convertLines r (splitLines text) 0 false)).

End Masking.

(** ** The beautifier

    [beautifyDocument] is the same text in part_000 (lines 452-530) and in
    src/extension.ts (lines 554-633).  It returns one edit that replaces
    the whole document; the embedding returns the new text. *)

(** The pattern /^(\s* )<([a-zA-Z_][a-zA-Z0-9_-]* )(\s+[^>]* )?>(\s* )$/ *)
Definition openingTagRegex : regex :=
  Bol · Grp 1 (Star (Chr isSpace)) · Lit "<" · Grp 2 tagName · attrRegion 3
  · Lit ">" · Grp 4 (Star (Chr isSpace)) · Eol.

(** The pattern /^(\s* )<\/([a-zA-Z_][a-zA-Z0-9_-]* )>(\s* )$/ *)
Definition closingTagRegex : regex :=
  Bol · Grp 1 (Star (Chr isSpace)) · Lit "<" · Lit "/" · Grp 2 tagName
  · Lit ">" · Grp 3 (Star (Chr isSpace)) · Eol.

(** The pattern /^(\s* )<([a-zA-Z_][a-zA-Z0-9_-]* )(\s+[^>]* )?\/>\s*$/ *)
Definition selfClosingTagRegex : regex :=
  Bol · Grp 1 (Star (Chr isSpace)) · Lit "<" · Grp 2 tagName · attrRegion 3
  · Lit "/" · Lit ">" · Star (Chr isSpace) · Eol.

(** The pattern /^(\s* )(#{1,6}\s+.* )$/ *)
Definition beautifyHeaderRegex : regex :=
  Bol · Grp 1 (Star (Chr isSpace))
  · Grp 2 (Rep true 1 (Some 6) (Lit "#") · Plus (Chr isSpace) · Star (Chr isDot))
  · Eol.

Definition indentString : jsstring := str "  ".

Definition indented (currentIndent : Z) (line : jsstring) : jsstring :=
  repeatStr indentString (Z.to_nat currentIndent) ++ trim line.

Fixpoint beautifyLines (lines : list jsstring) (currentIndent : Z)
    (inCodeBlock : bool) : list jsstring :=
  match lines with
  | [] => []
  | line :: lines' =>
      if regexTest codeBlockRegex line then
        indented currentIndent line :: beautifyLines lines' currentIndent (negb inCodeBlock)
      else if inCodeBlock then
        line :: beautifyLines lines' currentIndent inCodeBlock
      else if regexTest closingTagRegex line then
        let currentIndent' := Z.max 0 (currentIndent - 1) in
        indented currentIndent' line :: beautifyLines lines' currentIndent' inCodeBlock
      else if regexTest selfClosingTagRegex line then
        indented currentIndent line :: beautifyLines lines' currentIndent inCodeBlock
      else if regexTest openingTagRegex line then
        indented currentIndent line :: beautifyLines lines' (currentIndent + 1) inCodeBlock
      else if regexTest beautifyHeaderRegex line then
        trim line :: beautifyLines lines' currentIndent inCodeBlock
      else if bool_decide (trim line = []) then
        [] :: beautifyLines lines' currentIndent inCodeBlock
      else
        indented currentIndent line :: beautifyLines lines' currentIndent inCodeBlock
  end.

Definition beautifyDocument (text : jsstring) : jsstring :=
  join [10%N] (beautifyLines (splitLines text) 0 false).

(** ** The first extension (src/extension.ts) *)

Module Legacy.

(** The tags of one line (lines 82-136).  The tag interface of this file
    has no offsets: [startIndex] and [endIndex] are left at 0. *)
Definition tagsOfLine (i : nat) (text : jsstring) : list XmlTag :=
  let indent := length text - length (trimStart text) in
  let selfClosing :=
    List.map (fun mr =>
      MkTag (groupOrEmpty 1 mr) i indent false false true
        (parseAttributes (groupOrEmpty 2 mr)) 0 0)
      (allMatches xmlSelfClosingRegex text) in
  let closing :=
    List.map (fun mr => MkTag (groupOrEmpty 1 mr) i indent false true false [] 0 0)
      (allMatches xmlClosingTagRegex text) in
  let textWithoutSelfClosing := replaceAll xmlSelfClosingRegex text (fun _ => []) in
  let opening :=
    List.map (fun mr =>
      MkTag (groupOrEmpty 1 mr) i indent true false false
        (parseAttributes (groupOrEmpty 2 mr)) 0 0)
      (allMatches xmlOpeningTagRegex textWithoutSelfClosing) in
  selfClosing ++ closing ++ opening.

(** The loop of [parseDocument] (lines 49-137), over the editor's lines. *)
Definition parseLines : list jsstring -> nat -> bool -> DocumentStructure
    -> DocumentStructure :=
  parseLinesWith tagsOfLine.

(** [parseDocument] (lines 33-140) *)
Definition parseDocument (document : TextDocument) : DocumentStructure :=
  parseLines (lineTexts document) 0 false (MkStructure [] [] []).

(** [provideFoldingRanges] (lines 147-227) *)
Definition provideFoldingRanges (document : TextDocument) : list FoldingRange :=
  let structure := parseDocument document in
  (foldTags (xmlTags structure)).2
  ++ foldHeaders (length (lineTexts document)) (sortHeaders (headers structure)) []
  ++ foldFences (lineTexts document) 0 None.

(** The horizontal-rule check before each tag (lines 254-262). *)
Definition resetAtRule (tag : XmlTag) (r : Resolver) (hrLine : nat) : Resolver :=
  if (hrLine <? line tag)
     && (match last (tagStack r) with
         | Some top => top.2
         | None => 0
         end <? hrLine)
  then resetResolver r else r.

Definition resolveStep (hrLines : list nat) (r : Resolver) (tag : XmlTag) : Resolver :=
  resolveTag tag
    (if 0 <? line tag then fold_left (resetAtRule tag) hrLines r else r).

(** The tag loop of [convertToMarkdown] (lines 252-283). *)
Definition resolveTags (hrLines : list nat) (tags : list XmlTag) : Resolver :=
  fold_left (resolveStep hrLines) tags initResolver.

(** The pattern /^(\s* )(`{3,}|~{3,})(\S* )?$/ *)
Definition fenceLineRegex : regex :=
  Bol · Grp 1 (Star (Chr isSpace)) · fenceRun 2
  · Opt (Grp 3 (Star (Chr (fun c => negb (isSpace c))))) · Eol.

(** [new RegExp(`<${tagInfo.name}(?:\\s+[^>]* )?>(.* )$`)] *)
Definition tagPattern (nm : jsstring) : regex :=
  Lit "<" · Str nm · Opt (Plus (Chr isSpace) · Star (Chr (notCh ">"))) · Lit ">"
  · Grp 1 (Star (Chr isDot)) · Eol.

(** The pattern /<([a-zA-Z_][a-zA-Z0-9_-]* )(?:\s+[^>]* )?>(.+?)<\/\1>/g *)
Definition inlineTagRegex : regex :=
  Lit "<" · Grp 1 tagName · Opt (Plus (Chr isSpace) · Star (Chr (notCh ">")))
  · Lit ">" · Grp 2 (LazyPlus (Chr isDot)) · Lit "<" · Lit "/" · Bref 1 · Lit ">".

(** The replacement text of [String.prototype.replace] for a string
    pattern (GetSubstitution with no captures): [$$], [$&], [$`] and [$']
    are expanded, any other dollar stands for itself. *)
Fixpoint getSubstitution (matched before after : jsstring) (template : jsstring)
    : jsstring :=
  match template with
  | [] => []
  | c :: t =>
      if (c =? 36)%N then
        match t with
        | d :: t' =>
            if (d =? 36)%N then 36%N :: getSubstitution matched before after t'
            else if (d =? 38)%N then matched ++ getSubstitution matched before after t'
            else if (d =? 96)%N then before ++ getSubstitution matched before after t'
            else if (d =? 39)%N then after ++ getSubstitution matched before after t'
            else c :: getSubstitution matched before after t
        | [] => [c]
        end
      else c :: getSubstitution matched before after t
  end.

(** [s.replace(pattern, replacement)] for a string pattern: the first
    occurrence only. *)
Fixpoint replaceFirst (before s pattern replacement : jsstring) : jsstring :=
  match stripPrefix pattern s with
  | Some after => rev before ++ getSubstitution pattern (rev before) after replacement ++ after
  | None =>
      match s with
      | [] => rev before
      | c :: s' => replaceFirst (c :: before) s' pattern replacement
      end
  end.

(** The lines pushed for a line that carries a header (lines 319-345). *)
Definition headerLines (depth : Z) (tagInfo : TagInfo) (line : jsstring) : list jsstring :=
  let headerLevel := headerLevelOf depth in
  let attrString := attrStringOf (fun key => key) tagInfo.2 in
  [headerPrefix headerLevel ++ str " " ++ tagInfo.1 ++ attrString]
  ++ match regexMatch (tagPattern tagInfo.1) line with
     | Some mr =>
         match trim (groupOrEmpty 1 mr) with
         | [] => []
         | content => [content]
         end
     | None => []
     end.

(** The lines pushed for any other line (lines 347-362). *)
Definition contentLines (line : jsstring) : list jsstring :=
  let inlined :=
    fold_left
      (fun processedLine mr =>
         replaceFirst [] processedLine (mtext mr)
           (str "**" ++ groupOrEmpty 1 mr ++ str "**: " ++ groupOrEmpty 2 mr))
      (allMatches inlineTagRegex line) line in
  let processedLine := replaceAll strayTagRegex inlined (fun _ => []) in
  match trim processedLine, trim line with
  | _ :: _, _ | _, [] => [processedLine]
  | [], _ :: _ => []
  end.

(** One round of the line loop of [convertToMarkdown] (lines 297-364). *)
Definition convertLine (r : Resolver) (i : nat) (line : jsstring) (inCodeBlock : bool)
    : bool * list jsstring :=
  if regexTest fenceLineRegex line then (negb inCodeBlock, [line])
  else if inCodeBlock then (inCodeBlock, [line])
  else if bool_decide (i ∈ tagEndLines r) then (inCodeBlock, [])
  else
    match tagDepthMap r !! i, tagInfoMap r !! i with
    | Some depth, Some tagInfo => (inCodeBlock, headerLines depth tagInfo line)
    | Some _, None => (inCodeBlock, [])   (* the two maps are set together *)
    | None, _ => (inCodeBlock, contentLines line)
    end.

Definition convertLines (r : Resolver) : list jsstring -> nat -> bool
    -> list (list jsstring) :=
  convertLinesWith (convertLine r).

(** [convertToMarkdown] (lines 234-367).  The variables [baseDepth] and
    [mdHeaderBaseLevel] of the source are written and never read. *)
Definition convertToMarkdown (document : TextDocument) : jsstring :=
  let structure := parseDocument document in
  let hrLines := setOf (horizontalRules structure) [] in
  let r := resolveTags hrLines (xmlTags structure) in
  join [10%N] (concat (convertLines r (splitLines (getText document)) 0 false)).

End Legacy.

(** ** The line-based converter (second file of src/unnamed/part_000) *)

Module LineBased.

(** [interface TagInfo { name; attributes; depth }] *)
Record TagInfo : Type := MkTagInfo {
  tname : jsstring;
  tattributes : jsstring;
  tdepth : nat
}.

(** The stack loop of [processLine] (lines 702-707). *)
Fixpoint spliceLastTag (nm : jsstring) (stack : list TagInfo) : option (list TagInfo) :=
  match stack with
  | [] => None
  | e :: st' =>
      match spliceLastTag nm st' with
      | Some st'' => Some (e :: st'')
      | None => if bool_decide (tname e = nm) then Some st' else None
      end
  end.

(** [escapeMarkdownInHeader] (lines 793-796) *)
Definition escapeMarkdownInHeader (text : jsstring) : jsstring :=
  replaceAll (Lit "_") text (fun _ => [92%N; 95%N]).

(** The pattern /`[^`]+`/g *)
Definition inlineCodeRegex : regex :=
  Lit "`" · Plus (Chr (notCh "`")) · Lit "`".

(** The pattern /\x00CODE(\d+)\x00/g *)
Definition placeholderRegex : regex :=
  Chr (N.eqb 0) · Str (str "CODE") · Grp 1 (Plus (Chr isDigit)) · Chr (N.eqb 0).

(** [processContentLine] (lines 772-791) *)
Definition processContentLine (line : jsstring) : jsstring :=
  let '(masked, codeSegments) :=
    replaceAllSt inlineCodeRegex line
      (fun (codeSegments : list jsstring) mr =>
         (codeSegments ++ [mtext mr],
          0%N :: str "CODE" ++ digitsOf (length codeSegments) ++ [0%N])) [] in
  let processed := replaceAll strayTagRegex masked (fun _ => []) in
  replaceAll placeholderRegex processed
    (fun mr =>
       match codeSegments !! N.to_nat (parseInt (groupOrEmpty 1 mr)) with
       | Some segment => segment
       | None => str "undefined"
       end).

(** The pattern /^<\/([a-zA-Z_][a-zA-Z0-9_-]* )>\s*$/ *)
Definition standaloneClosingRegex : regex :=
  Bol · Lit "<" · Lit "/" · Grp 1 tagName · Lit ">" · Star (Chr isSpace) · Eol.

(** The pattern /^<([a-zA-Z_][a-zA-Z0-9_-]* )(\s+[^>]* )?>$/ *)
Definition standaloneOpeningRegex : regex :=
  Bol · Lit "<" · Grp 1 tagName · attrRegion 2 · Lit ">" · Eol.

(** The pattern /^<([a-zA-Z_][a-zA-Z0-9_-]* )(\s+[^>]* )?>(.+)<\/\1>$/ *)
Definition inlineTagRegex : regex :=
  Bol · Lit "<" · Grp 1 tagName · attrRegion 2 · Lit ">"
  · Grp 3 (Plus (Chr isDot)) · Lit "<" · Lit "/" · Bref 1 · Lit ">" · Eol.

(** The pattern /^<([a-zA-Z_][a-zA-Z0-9_-]* )(\s+[^>]* )?>(.+)$/ *)
Definition openingWithContentRegex : regex :=
  Bol · Lit "<" · Grp 1 tagName · attrRegion 2 · Lit ">"
  · Grp 3 (Plus (Chr isDot)) · Eol.

(** [`${headerPrefix} ${escapedName}${attrStr}`], the head of the three
    header results of [processLine] *)
Definition headerText (depth : nat) (tagName attributes : jsstring) : jsstring :=
  let headerLevel := headerLevelOf (Z.of_nat depth) in
  headerPrefix headerLevel ++ str " " ++ escapeMarkdownInHeader tagName
  ++ match attributes with
     | [] => []
     | _ :: _ => str " (" ++ escapeMarkdownInHeader attributes ++ str ")"
     end.

(** [processLine] (lines 689-770): the string returned and the tag stack
    as the call leaves it. *)
Definition processLine (line : jsstring) (tagStack : list TagInfo)
    : jsstring * list TagInfo :=
  let trimmed := trim line in
  match trimmed with
  | [] => ([], tagStack)
  | _ :: _ =>
  match regexMatch standaloneClosingRegex trimmed with
  | Some mr =>
      ([], default tagStack (spliceLastTag (groupOrEmpty 1 mr) tagStack))
  | None =>
  match regexMatch standaloneOpeningRegex trimmed with
  | Some mr =>
      let tagName := groupOrEmpty 1 mr in
      let attributes := trim (groupOrEmpty 2 mr) in
      let depth := length tagStack in
      (headerText depth tagName attributes ++ [10%N],
       tagStack ++ [MkTagInfo tagName attributes depth])
  | None =>
  match regexMatch inlineTagRegex trimmed with
  | Some mr =>
      let tagName := groupOrEmpty 1 mr in
      let attributes := trim (groupOrEmpty 2 mr) in
      let content := trim (groupOrEmpty 3 mr) in
      let depth := length tagStack in
      (headerText depth tagName attributes ++ [10%N; 10%N] ++ content ++ [10%N],
       tagStack)
  | None =>
  match regexMatch openingWithContentRegex trimmed with
  | Some mr =>
      if includes (groupOrEmpty 3 mr) (str "</") then (processContentLine line, tagStack)
      else
        let tagName := groupOrEmpty 1 mr in
        let attributes := trim (groupOrEmpty 2 mr) in
        let content := trim (groupOrEmpty 3 mr) in
        let depth := length tagStack in
        (match content with
         | [] => headerText depth tagName attributes ++ [10%N]
         | _ :: _ => headerText depth tagName attributes ++ [10%N; 10%N] ++ content
         end,
         tagStack ++ [MkTagInfo tagName attributes depth])
  | None => (processContentLine line, tagStack)
  end end end end end.

(** The fence state of [convertClaudeMdToMarkdown]:
    [inFencedCodeBlock], [fenceChar] and [fenceLength]. *)
Record FenceState : Type := MkFence {
  inFencedCodeBlock : bool;
  fenceChar : jsstring;
  fenceLength : nat
}.

(** [new RegExp(`^\\s*${fenceChar}{${fenceLength},}\\s*$`)] *)
Definition closingFenceRegex (fenceChar : jsstring) (fenceLength : nat) : regex :=
  Bol · Star (Chr isSpace) · AtLeast fenceLength (Str fenceChar)
  · Star (Chr isSpace) · Eol.

(** One round of the loop of [convertClaudeMdToMarkdown] (lines 649-684):
    the state after the line and the string pushed. *)
Definition convertLine (line : jsstring) (st : FenceState * list TagInfo)
    : (FenceState * list TagInfo) * list jsstring :=
  let '(fence, tagStack) := st in
  let outside :=
    if inFencedCodeBlock fence then (st, [line])
    else
      let '(processedLine, tagStack') := processLine line tagStack in
      ((fence, tagStack'), [processedLine]) in
  match regexMatch fenceLineRegex line with
  | Some fenceMatch =>
      if negb (inFencedCodeBlock fence) then
        ((MkFence true (take 1 (groupOrEmpty 2 fenceMatch))
            (length (groupOrEmpty 2 fenceMatch)), tagStack), [line])
      else if regexTest (closingFenceRegex (fenceChar fence) (fenceLength fence)) line then
        ((MkFence false (fenceChar fence) (fenceLength fence), tagStack), [line])
      else outside
  | None => outside
  end.

Fixpoint convertLines (lines : list jsstring) (st : FenceState * list TagInfo)
    : list (list jsstring) :=
  match lines with
  | [] => []
  | line :: lines' =>
      let '(st', pushed) := convertLine line st in
      pushed :: convertLines lines' st'
  end.

(** [convertClaudeMdToMarkdown] (lines 637-687) *)
Definition convertClaudeMdToMarkdown (text : jsstring) : jsstring :=
  join [10%N] (concat (convertLines (splitLines text) (MkFence false [] 0, []))).

End LineBased.

(** ** What a pattern matches

    A declarative reading of the matcher for patterns without
    backreferences: [lang total r s s'] holds when [r] can match at the
    suffix [s] of an input of length [total] and leave the suffix [s']. *)

(** The rounds of a repetition of a pattern that takes [s] to [m] when
    [P s m]: [mn] compulsory rounds, then optional rounds that each
    consume something, at most [mx] rounds in all. *)
Inductive Reps (P : jsstring -> jsstring -> Prop)
    : nat -> option nat -> jsstring -> jsstring -> Prop :=
| Reps_stop mx s : Reps P 0 mx s s
| Reps_full mn s : Reps P mn (Some 0) s s
| Reps_required mn mx s m s' :
    isZero mx = false -> P s m -> Reps P mn (predMax mx) m s' ->
    Reps P (S mn) mx s s'
| Reps_optional mx s m s' :
    isZero mx = false -> P s m -> length m < length s ->
    Reps P 0 (predMax mx) m s' ->
    Reps P 0 mx s s'.

Fixpoint lang (total : nat) (r : regex) : jsstring -> jsstring -> Prop :=
  match r with
  | Eps => fun s s' => s' = s
  | Chr p => fun s s' => exists c, s = c :: s' /\ p c = true
  | Seq a b => fun s s' => exists m, lang total a s m /\ lang total b m s'
  | Alt a b => fun s s' => lang total a s s' \/ lang total b s s'
  | Rep _ mn mx a => Reps (lang total a) mn mx
  | Grp _ a => lang total a
  | Bref _ => fun _ _ => False
  | Bol => fun s s' => s' = s /\ length s = total
  | Eol => fun s s' => s = [] /\ s' = []
  end.

Fixpoint noBref (r : regex) : bool :=
  match r with
  | Seq a b | Alt a b => noBref a && noBref b
  | Rep _ _ _ a | Grp _ a => noBref a
  | Bref _ => false
  | _ => true
  end.

(** ** The properties as the specification words them *)

(** A horizontal rule in the words of the specification: three or more
    identical characters from [-], [*] and [_], with nothing but
    whitespace between and around them. *)
Definition specHorizontalRule (line : jsstring) : bool :=
  match List.filter (fun c => negb (isSpace c)) line with
  | c :: cs => isHrChar c && forallb (N.eqb c) cs && (2 <=? length cs)
  | [] => false
  end.


(** The code-block flag after the lines [pre], for a loop that flips it
    at every line that [fence] accepts. *)
Definition blockState (fence : jsstring -> bool) (inCodeBlock : bool)
    (pre : list jsstring) : bool :=
  fold_left (fun b l => if fence l then negb b else b) pre inCodeBlock.

(** The line of the entry on top of a stack, or 0 for an empty stack. *)
Definition topLine (stack : list StackEntry) : nat :=
  match last stack with
  | Some top => top.2
  | None => 0
  end.

(** How many entries of a stack carry a name. *)
Definition occurrences (nm : jsstring) (stack : list StackEntry) : nat :=
  length (List.filter (fun e : StackEntry => bool_decide (e.1 = nm)) stack).


(** Two structures one after the other. *)
Definition appendStructure (a b : DocumentStructure) : DocumentStructure :=
  MkStructure (xmlTags a ++ xmlTags b) (headers a ++ headers b)
    (horizontalRules a ++ horizontalRules b).

Definition emptyStructure : DocumentStructure := MkStructure [] [] [].

(** The fence test of the extractors, of the beautifier and of the
    folding providers (section 4.2 of the specification: leading
    whitespace, three or more backticks or tildes, then anything). *)
Definition isFenceLine (l : jsstring) : bool := regexTest codeBlockRegex l.


(** A closing tag was recorded on line [i]. *)
Definition closingTagOn (s : DocumentStructure) (i : nat) : bool :=
  existsb (fun t => isClosing t && (line t =? i)) (xmlTags s).

(** The resolver state with which each transformer goes through the
    lines. *)
Definition Masking_resolved (text : jsstring) : Resolver :=
  let structure := Masking.parseDocumentText text in
  Masking.resolveTags (setOf (horizontalRules structure) []) (xmlTags structure).

Definition Legacy_resolved (document : TextDocument) : Resolver :=
  let structure := Legacy.parseDocument document in
  Legacy.resolveTags (setOf (horizontalRules structure) []) (xmlTags structure).

(** The lines that a transformer pushes in the round of line [i]. *)
Definition Masking_pushedAt (text : jsstring) (i : nat) : option (list jsstring) :=
  Masking.convertLines (Masking_resolved text) (splitLines text) 0 false !! i.

Definition Legacy_pushedAt (document : TextDocument) (i : nat) : option (list jsstring) :=
  Legacy.convertLines (Legacy_resolved document) (splitLines (getText document)) 0 false !! i.

(** A document as the editor holds it, when the text has no carriage
    return outside a line break. *)
Definition documentOf (text : jsstring) : TextDocument :=
  MkDocument text (splitLines text).


(** A recorded rule at [h] makes the resolver start afresh before a tag
    on line [i], given its stack (part_000, line 304). *)
Definition ruleTriggers (i : nat) (stack : list StackEntry) (h : nat) : bool :=
  (h <? i)
  && match last stack with
     | None => true
     | Some top => top.2 <? h
     end.

(** The rule check before a tag of line [i] leaves the resolver as it is. *)
Definition settledAt (hrLines : list nat) (i : nat) (r : Resolver) : Prop :=
  existsb (ruleTriggers i (tagStack r)) hrLines = false
  \/ (tagStack r = [] /\ currentDepth r = 0%Z).






(** A tag that begins a section (opening or self-closing)... *)
Definition beginsSection (t : XmlTag) : bool :=
  isOpening t || (negb (isClosing t) && isSelfClosing t).



(** The header that a round of the transformer has pushed, read off what
    it pushed.  Only the round of a tag line pushes two strings or more
    (the header and an empty line, then the trailing text if any); the
    round of a fence line, of a code line or of a content line pushes one
    string at most, that of a section end the empty line.  The level is
    the number of hashes that the first string starts with. *)
Fixpoint leadingHashes (s : jsstring) : nat :=
  match s with
  | c :: s' => if isCh "#" c then S (leadingHashes s') else 0
  | [] => 0
  end.



(** The matcher [ma] of a pattern that takes [s] to [s'] when [P s s']
    follows [P]: it only goes on from states that [P] allows, and it
    succeeds when [P] allows a state from which the continuation does. *)
Definition SoundAt (P : jsstring -> jsstring -> Prop)
    (ma : mstate -> (mstate -> option mstate) -> option mstate) : Prop :=
  forall x k z, ma x k = Some z -> exists y, P (rest x) (rest y) /\ k y = Some z.

Definition CompleteAt (P : jsstring -> jsstring -> Prop)
    (ma : mstate -> (mstate -> option mstate) -> option mstate) : Prop :=
  forall x s' k, P (rest x) s' -> (forall y, rest y = s' -> is_Some (k y)) ->
    is_Some (ma x k).


(** The depth counter is the height of the stack. *)
Definition depthIsHeight (r : Resolver) : Prop :=
  currentDepth r = Z.of_nat (length (tagStack r)).

(** What the resolver has on its stack, the folding provider has too: a
    horizontal rule empties the first stack only. *)
Definition stackWithin (r : Resolver) (f : list StackEntry * list FoldingRange) : Prop :=
  forall nm, occurrences nm (tagStack r) <= occurrences nm f.1.

(** What one line adds to the structure. *)
Definition lineStructure (tagsOfLine : nat -> jsstring -> list XmlTag)
    (i : nat) (l : jsstring) (b : bool) : DocumentStructure :=
  if isFenceLine l then emptyStructure
  else if b then emptyStructure
  else if regexTest horizontalRuleRegex l then MkStructure [] [] [i]
  else MkStructure (tagsOfLine i l) (headerOfLine i l) [].

(** A tag of the extractor is of exactly one kind. *)
Definition oneKind (t : XmlTag) : Prop :=
  (isOpening t = true /\ isClosing t = false /\ isSelfClosing t = false)
  \/ (isOpening t = false /\ isClosing t = true /\ isSelfClosing t = false)
  \/ (isOpening t = false /\ isClosing t = false /\ isSelfClosing t = true).


(** Two continuations that agree on the states with [n] code units ahead
    at most. *)
Definition agreeUpTo (n : nat) (k k' : mstate -> option mstate) : Prop :=
  forall y, length (rest y) <= n -> k y = k' y.

(** A matcher that only looks at its continuation on states that are not
    behind the state it starts from. *)
Definition LocalAt (ma : mstate -> (mstate -> option mstate) -> option mstate) : Prop :=
  forall x k k', agreeUpTo (length (rest x)) k k' -> ma x k = ma x k'.


(** ** The beautifier of the line-based extension (second file of
    src/unnamed/part_000) *)

Module LineBasedBeautify.

(** The pattern /^<\/[a-zA-Z_][a-zA-Z0-9_-]*>\s*$/ *)
Definition closingLineRegex : regex :=
  Bol · Lit "<" · Lit "/" · tagName · Lit ">" · Star (Chr isSpace) · Eol.

(** The pattern /^<[a-zA-Z_][a-zA-Z0-9_-]*(\s+[^>]* )?>$/ *)
Definition openingLineRegex : regex :=
  Bol · Lit "<" · tagName · attrRegion 1 · Lit ">" · Eol.

(** The pattern /^#{1,6}\s+/ *)
Definition headerStartRegex : regex :=
  Bol · Rep true 1 (Some 6) (Lit "#") · Plus (Chr isSpace).

Definition indent : jsstring := str "  ".

(** The loop of [beautifyDocument] (lines 934-982): the lines pushed. *)
Fixpoint beautifyLines (lines : list jsstring) (depth : Z) (inCodeBlock : bool)
    : list jsstring :=
  match lines with
  | [] => []
  | line :: lines' =>
      if regexTest codeBlockRegex line then
        if negb inCodeBlock then
          (repeatStr indent (Z.to_nat depth) ++ trim line) :: beautifyLines lines' depth true
        else
          (repeatStr indent (Z.to_nat depth) ++ trim line) :: beautifyLines lines' depth false
      else if inCodeBlock then
        line :: beautifyLines lines' depth inCodeBlock
      else
        let trimmed := trim line in
        if bool_decide (trimmed = []) then
          [] :: beautifyLines lines' depth inCodeBlock
        else if regexTest closingLineRegex trimmed then
          let depth' := Z.max 0 (depth - 1) in
          (repeatStr indent (Z.to_nat depth') ++ trimmed)
            :: beautifyLines lines' depth' inCodeBlock
        else if regexTest openingLineRegex trimmed then
          (repeatStr indent (Z.to_nat depth) ++ trimmed)
            :: beautifyLines lines' (depth + 1) inCodeBlock
        else if regexTest headerStartRegex trimmed then
          trimmed :: beautifyLines lines' depth inCodeBlock
        else
          (repeatStr indent (Z.to_nat depth) ++ trimmed)
            :: beautifyLines lines' depth inCodeBlock
  end.

(** [beautifyDocument] (lines 927-990): the text of the one edit that it
    returns, which replaces the whole document. *)
Definition beautifyDocument (text : jsstring) : jsstring :=
  join [10%N] (beautifyLines (splitLines text) 0 false).

End LineBasedBeautify.

(** ** The folding provider of the line-based extension (second file of
    src/unnamed/part_000) *)

Module LineBasedFolding.

(** The pattern /^(\s* )(`{3,}|~{3,})\s*$/ *)
Definition closingFenceLineRegex : regex :=
  Bol · Grp 1 (Star (Chr isSpace)) · fenceRun 2 · Star (Chr isSpace) · Eol.

(** The pattern /^(#{1,6})\s+/ *)
Definition headerStartRegex : regex :=
  Bol · Grp 1 (Rep true 1 (Some 6) (Lit "#")) · Plus (Chr isSpace).

(** The pattern /<([a-zA-Z_][a-zA-Z0-9_-]* )(\s+[^>]* )?>(?!.*<\/\1>)/ has a
    negative lookahead, which is no pattern of [regex]: it is the pattern
    [openTagHead] run with a continuation that fails where [closerAhead]
    matches and goes on, from the same state, where it does not (the
    semantics of [(?!r)] in ECMA-262). *)
Definition openTagHead : regex :=
  Lit "<" · Grp 1 tagName · attrRegion 2 · Lit ">".

Definition closerAhead : regex :=
  Star (Chr isDot) · Lit "<" · Lit "/" · Bref 1 · Lit ">".

Definition notAhead (total : nat) (r : regex) (k : mstate -> option mstate)
    (x : mstate) : option mstate :=
  match matcher total r x Some with
  | Some _ => None
  | None => k x
  end.

Definition openMatchHere (total : nat) (s : jsstring) : option MatchResult :=
  match matcher total openTagHead (MState s ∅) (notAhead total closerAhead Some) with
  | Some y =>
      Some (MkMatch (total - length s) (take (length s - length (rest y)) s)
              (caps y) (rest y))
  | None => None
  end.

Fixpoint openSearch (total : nat) (s : jsstring) : option MatchResult :=
  match openMatchHere total s with
  | Some mr => Some mr
  | None => match s with [] => None | _ :: s' => openSearch total s' end
  end.

(** [line.match(...)] for the opening-tag pattern (line 838) *)
Definition openMatch (line : jsstring) : option MatchResult :=
  openSearch (length line) line.

(** The loops [for (let j = i + 1; j < lines.length; j++)] that stop at
    the first line that passes a test: the index of that line, among the
    lines from [j] on. *)
Fixpoint findFrom (test : jsstring -> bool) (lines : list jsstring) (j : nat)
    : option nat :=
  match lines with
  | [] => None
  | l :: lines' => if test l then Some j else findFrom test lines' (S j)
  end.

(** A header of level [level] or above, for the test of line 865. *)
Definition endsHeader (level : nat) (l : jsstring) : bool :=
  match regexMatch headerStartRegex l with
  | Some nextHeaderMatch => length (groupOrEmpty 1 nextHeaderMatch) <=? level
  | None => false
  end.

(** The range of the section of a header on line [i] (lines 863-874): up
    to the line before the next header of its level or above, or up to the
    last line when there is none. *)
Definition headerRange (lines : list jsstring) (i level : nat) : list FoldingRange :=
  match findFrom (endsHeader level) (drop (S i) lines) (S i) with
  | Some j => if i <? j - 1 then [(i, j - 1)] else []
  | None => if S i <? length lines then [(i, length lines - 1)] else []
  end.

(** The loop of [provideFoldingRanges] (lines 814-876) from the index [i]
    on: the ranges pushed.  An iteration moves the index on by one at
    least, so that the number of lines is fuel enough. *)
Fixpoint foldLoop (fuel : nat) (lines : list jsstring) (i : nat)
    (inCodeBlock : bool) (tagStack : list StackEntry) : list FoldingRange :=
  match fuel with
  | 0 => []
  | S fuel' =>
      match lines !! i with
      | None => []
      | Some line =>
          if regexTest codeBlockRegex line then
            if negb inCodeBlock then
              match findFrom (regexTest closingFenceLineRegex) (drop (S i) lines) (S i) with
              | Some j => (i, j) :: foldLoop fuel' lines (S j) false tagStack
              | None => foldLoop fuel' lines (S i) true tagStack
              end
            else foldLoop fuel' lines (S i) inCodeBlock tagStack
          else if inCodeBlock then foldLoop fuel' lines (S i) inCodeBlock tagStack
          else
            let opened :=
              match openMatch line with
              | Some m => tagStack ++ [(groupOrEmpty 1 m, i)]
              | None => tagStack
              end in
            let '(closed, tagRanges) :=
              match regexMatch xmlClosingTagRegex line with
              | Some closeMatch =>
                  match spliceLast (groupOrEmpty 1 closeMatch) opened with
                  | Some ((_, startLine), stack') =>
                      (stack', if startLine <? i then [(startLine, i)] else [])
                  | None => (opened, [])
                  end
              | None => (opened, [])
              end in
            let headerRanges :=
              match regexMatch headerStartRegex line with
              | Some headerMatch => headerRange lines i (length (groupOrEmpty 1 headerMatch))
              | None => []
              end in
            tagRanges ++ headerRanges ++ foldLoop fuel' lines (S i) inCodeBlock closed
      end
  end.

(** [provideFoldingRanges] (lines 801-879), on the text of the document *)
Definition provideFoldingRanges (text : jsstring) : list FoldingRange :=
  let lines := splitLines text in
  foldLoop (length lines) lines 0 false [].

End LineBasedFolding.

(** ** Readings of the sources used to state their properties *)

(** A string that begins with three backticks or with three tildes. *)
Definition startsFence (s : jsstring) : bool :=
  match s with
  | a :: b :: c :: _ =>
      (isCh "`" a && isCh "`" b && isCh "`" c) || (isCh "~" a && isCh "~" b && isCh "~" c)
  | _ => false
  end.

(** A pattern whose every match begins with a character that [P] holds
    of. *)
Inductive firstIn (P : char -> Prop) : regex -> Prop :=
| firstIn_chr q : (forall c, q c = true -> P c) -> firstIn P (Chr q)
| firstIn_seq a b : firstIn P a -> firstIn P (Seq a b)
| firstIn_bol a : firstIn P a -> firstIn P (Seq Bol a)
| firstIn_alt a b : firstIn P a -> firstIn P b -> firstIn P (Alt a b)
| firstIn_grp n a : firstIn P a -> firstIn P (Grp n a)
| firstIn_rep greedy mn mx a :
    isZero mx = false -> firstIn P a -> firstIn P (Rep greedy (S mn) mx a).

(** The text that [s.replace(r, f)] puts in the place of the part [suf] of
    [pre ++ suf], for a global pattern [r], once the search has gone
    through [pre] and found nothing that reaches into [suf]. *)
Definition replaceFrom (r : regex) (f : MatchResult -> jsstring)
    (pre suf : jsstring) : jsstring :=
  spliceMatches (pre ++ suf) (length pre)
    (matchesFrom (S (length suf)) (length (pre ++ suf)) r suf) f.

Definition replaceFromSt {S : Type} (r : regex)
    (f : S -> MatchResult -> S * jsstring) (pre suf : jsstring) (st : S)
    : jsstring * S :=
  spliceMatchesSt (pre ++ suf) (length pre)
    (matchesFrom (Datatypes.S (length suf)) (length (pre ++ suf)) r suf) f st.

(** The tables of the resolver agree: a line has a depth exactly when it
    has a name and attributes, and no depth is negative. *)
Definition tablesAgree (r : Resolver) : Prop :=
  (forall i, is_Some (tagDepthMap r !! i) <-> is_Some (tagInfoMap r !! i))
  /\ (forall i d, tagDepthMap r !! i = Some d -> (0 <= d)%Z).

(** A tag that ends a section for the resolver: a closing tag (that is
    not marked as opening). *)
Definition endsSection (t : XmlTag) : bool := negb (isOpening t) && isClosing t.

(** A list whose elements stand in the relation [R], each with all that
    come after it. *)
Definition ordered {A : Type} (R : A -> A -> Prop) (l : list A) : Prop :=
  forall i j a b, l !! i = Some a -> l !! j = Some b -> i < j -> R a b.

(** A structure in document order, for a document of [n] lines: the tags
    by line, several of them on a line at most; the headers and the
    horizontal rules by line, one on a line at most; all of them on lines
    of the document. *)
Definition inDocumentOrder (s : DocumentStructure) (n : nat) : Prop :=
  ordered (fun a b => line a <= line b) (xmlTags s)
  /\ ordered (fun a b => hline a < hline b) (headers s)
  /\ ordered lt (horizontalRules s)
  /\ (forall t, t ∈ xmlTags s -> line t < n)
  /\ (forall h, h ∈ headers s -> hline h < n)
  /\ (forall k, k ∈ horizontalRules s -> k < n).

(** ** What a match captures

    A declarative reading of the matcher on states, captures included:
    [steps total r x y] holds when [r] can take the state [x] to the
    state [y]. *)

Inductive RepsSt (P : mstate -> mstate -> Prop)
    : nat -> option nat -> mstate -> mstate -> Prop :=
| RepsSt_stop mx x : RepsSt P 0 mx x x
| RepsSt_full mn x : RepsSt P mn (Some 0) x x
| RepsSt_required mn mx x m y :
    isZero mx = false -> P x m -> RepsSt P mn (predMax mx) m y ->
    RepsSt P (S mn) mx x y
| RepsSt_optional mx x m y :
    isZero mx = false -> P x m -> length (rest m) < length (rest x) ->
    RepsSt P 0 (predMax mx) m y ->
    RepsSt P 0 mx x y.

Fixpoint steps (total : nat) (r : regex) : mstate -> mstate -> Prop :=
  match r with
  | Eps => fun x y => y = x
  | Chr p => fun x y => exists c t, rest x = c :: t /\ p c = true /\ y = MState t (caps x)
  | Seq a b => fun x y => exists m, steps total a x m /\ steps total b m y
  | Alt a b => fun x y => steps total a x y \/ steps total b x y
  | Rep _ mn mx a =>
      RepsSt (fun x m => steps total a (clearCaps (groupsOf a) x) m) mn mx
  | Grp n a => fun x y =>
      exists m, steps total a x m
        /\ y = MState (rest m)
                 (<[n := take (length (rest x) - length (rest m)) (rest x)]> (caps m))
  | Bref n => fun x y =>
      match caps x !! n with
      | None => y = x
      | Some w => exists t, stripPrefix w (rest x) = Some t /\ y = MState t (caps x)
      end
  | Bol => fun x y => y = x /\ length (rest x) = total
  | Eol => fun x y => y = x /\ rest x = []
  end.

(** The matcher [ma] only goes on from states that [P] relates to the
    state it starts from. *)
Definition SoundSt (P : mstate -> mstate -> Prop)
    (ma : mstate -> (mstate -> option mstate) -> option mstate) : Prop :=
  forall x k z, ma x k = Some z -> exists y, P x y /\ k y = Some z.

(** The replacer of [unmaskCodeContent] and of [processContentLine]:
    the code at the index that the placeholder carries. *)
Definition restoreCode (codeBlocks : list jsstring) (mr : MatchResult) : jsstring :=
  match codeBlocks !! N.to_nat (parseInt (groupOrEmpty 1 mr)) with
  | Some block => block
  | None => str "undefined"
  end.

(** A name as the tag patterns read it: a letter or an underscore, then
    letters, digits, underscores and hyphens. *)
Definition isTagName (w : jsstring) : bool :=
  match w with
  | c :: w' => isNameStart c && forallb isNameChar w'
  | [] => false
  end.

(** The level of a line that starts a header, read off its characters:
    the number of hashes that it begins with, when they are one to six
    and whitespace comes after them. *)
Definition headerStartLevel (l : jsstring) : option nat :=
  let n := leadingHashes l in
  if (1 <=? n) && (n <=? 6)
     && match drop n l with c :: _ => isSpace c | [] => false end
  then Some n else None.

(** The three kinds of range of the line-based folding provider, read
    off the lines: a code block from a fence line to the first line after
    it that closes a fence; a tag from a line with an opening tag to a
    line with a closing tag of the same name; the section of a header, over
    lines that start no header unless of a deeper level (more hashes), up
    to the last line or to the line before a header of its level or above
    (as many hashes or fewer). *)
Definition fenceRange (lines : list jsstring) (s e : nat) : Prop :=
  exists ls le,
    lines !! s = Some ls /\ lines !! e = Some le
    /\ regexTest codeBlockRegex ls = true
    /\ regexTest LineBasedFolding.closingFenceLineRegex le = true
    /\ forall j l, s < j < e -> lines !! j = Some l ->
         regexTest LineBasedFolding.closingFenceLineRegex l = false.

Definition tagRange (lines : list jsstring) (s e : nat) : Prop :=
  exists ls le m c,
    lines !! s = Some ls /\ lines !! e = Some le
    /\ LineBasedFolding.openMatch ls = Some m
    /\ regexMatch xmlClosingTagRegex le = Some c
    /\ groupOrEmpty 1 m = groupOrEmpty 1 c.

Definition headerSection (lines : list jsstring) (s e : nat) : Prop :=
  exists ls level,
    lines !! s = Some ls
    /\ headerStartLevel ls = Some level
    /\ (forall j l k, s < j <= e -> lines !! j = Some l ->
          headerStartLevel l = Some k -> level < k)
    /\ (S e = length lines
        \/ exists l k, lines !! S e = Some l
             /\ headerStartLevel l = Some k /\ k <= level).

(** An entry of the tag stack of the line-based folding provider that
    was pushed for the opening tag of its line. *)
Definition openedAt (lines : list jsstring) (entry : StackEntry) : Prop :=
  exists l m,
    lines !! entry.2 = Some l /\ LineBasedFolding.openMatch l = Some m
    /\ groupOrEmpty 1 m = entry.1.


(** What a beautifier may push for a line: a string without line feed
    that is the line itself, or the trimmed line after a number of
    indentation units; either way the line, up to the whitespace at its
    two ends. *)
Definition reindented (line pushed : jsstring) : Prop :=
  10%N ∉ pushed
  /\ trim pushed = trim line
  /\ (pushed = line \/ exists n, pushed = repeatStr (str "  ") n ++ trim line).

(** The opening tags of the name [nm] that are still unmatched after the
    tags [tags], counted in the order in which they were recorded: an
    opening tag of the name adds one, a closing tag of the name takes one
    off when there is one, any other tag counts for nothing. *)
Definition unmatchedStep (nm : jsstring) (n : nat) (t : XmlTag) : nat :=
  if isOpening t then (if bool_decide (name t = nm) then S n else n)
  else if isClosing t then (if bool_decide (name t = nm) then Nat.pred n else n)
  else n.

Definition unmatchedOpenings (nm : jsstring) (tags : list XmlTag) : nat :=
  fold_left (unmatchedStep nm) tags 0.

(** ** Header levels, tag by tag and line by line *)

















(** * Properties *)

(** ** The matcher and the declarative reading agree *)

Section MatcherLang.

Variable total : nat.

Lemma starLoop_sound P ma greedy k :
  SoundAt P ma ->
  forall fuel mx x z, starLoop ma greedy k fuel mx x = Some z ->
    exists y, Reps P 0 mx (rest x) (rest y) /\ k y = Some z.
Proof.
  intros Hma. induction fuel as [|fuel IH]; intros mx x z; simpl;
    destruct (isZero mx) eqn:Hz.
  - intros Hk. exists x. split; [constructor | done].
  - assert (Hd : forall d' z', (forall y, d' y = None) -> ma x d' = Some z' -> False).
    { intros d' z' Hd' H. apply Hma in H as (y & _ & Hy). by rewrite Hd' in Hy. }
    destruct greedy.
    + destruct (ma x _) eqn:E.
      * exfalso. eapply Hd; [|exact E]. intros y. simpl. by case_match.
      * intros Hk. exists x. split; [constructor | done].
    + destruct (k x) eqn:Ek.
      * intros [= <-]. exists x. split; [constructor | done].
      * intros E. exfalso. eapply Hd; [|exact E]. intros y. simpl. by case_match.
  - intros Hk. exists x. split; [constructor | done].
  - assert (Hround : forall z', ma x (fun y =>
              if length (rest y) <? length (rest x)
              then starLoop ma greedy k fuel (predMax mx) y else None) = Some z' ->
            exists y, Reps P 0 mx (rest x) (rest y) /\ k y = Some z').
    { intros z' H. apply Hma in H as (y & HP & Hy).
      destruct (Nat.ltb_spec (length (rest y)) (length (rest x))); [|done].
      apply IH in Hy as (y' & HR & Hy'). exists y'. split; [|done].
      eapply Reps_optional; eauto. }
    destruct greedy.
    + destruct (ma x _) eqn:E.
      * intros [= <-]. by apply Hround.
      * intros Hk. exists x. split; [constructor | done].
    + destruct (k x) eqn:Ek.
      * intros [= <-]. exists x. split; [constructor | done].
      * apply Hround.
Qed.

Lemma requiredLoop_sound P ma greedy k :
  SoundAt P ma ->
  forall mn mx x z, requiredLoop ma greedy k mn mx x = Some z ->
    exists y, Reps P mn mx (rest x) (rest y) /\ k y = Some z.
Proof.
  intros Hma. induction mn as [|mn IH]; intros mx x z; simpl.
  - apply starLoop_sound, Hma.
  - destruct (isZero mx) eqn:Hz.
    + intros Hk. exists x. split; [|done].
      destruct mx as [[|?]|]; try done. apply Reps_full.
    + intros H. apply Hma in H as (y & HP & Hy).
      apply IH in Hy as (y' & HR & Hy'). exists y'. split; [|done].
      eapply Reps_required; eauto.
Qed.

Lemma starLoop_complete P ma greedy k :
  CompleteAt P ma ->
  forall fuel mx x s', Reps P 0 mx (rest x) s' ->
    (forall y, rest y = s' -> is_Some (k y)) ->
    length (rest x) <= fuel ->
    is_Some (starLoop ma greedy k fuel mx x).
Proof.
  intros Hma. induction fuel as [|fuel IH]; intros mx x s' HR Hk Hfuel.
  - simpl. destruct (isZero mx) eqn:Hz.
    + inversion HR; subst; try (by apply Hk); simplify_eq; try lia.
      all: destruct mx as [[|?]|]; done.
    + inversion HR; subst; try done; try lia.
      assert (is_Some (k x)) as [z Hz'] by by apply Hk.
      destruct greedy; rewrite ?Hz'; [|done]. by case_match.
  - simpl. destruct (isZero mx) eqn:Hz.
    + inversion HR; subst; try (by apply Hk); simplify_eq; try lia.
      all: destruct mx as [[|?]|]; done.
    + inversion HR; subst; try done.
      * assert (is_Some (k x)) as [z Hz'] by by apply Hk.
        destruct greedy; rewrite ?Hz'; [|done]. by case_match.
      * match goal with
        | |- context [ma x ?d] =>
            assert (is_Some (ma x d)) as [z Hz']
        end.
        { eapply Hma; [eassumption|]. intros y Hy. rewrite Hy.
          destruct (Nat.ltb_spec (length m) (length (rest x))); [|lia].
          eapply IH; [by rewrite Hy | done | rewrite Hy; lia]. }
        destruct greedy; rewrite ?Hz'; [done|]. by case_match.
Qed.

Lemma requiredLoop_complete P ma greedy k :
  CompleteAt P ma ->
  forall mn mx x s', Reps P mn mx (rest x) s' ->
    (forall y, rest y = s' -> is_Some (k y)) ->
    is_Some (requiredLoop ma greedy k mn mx x).
Proof.
  intros Hma. induction mn as [|mn IH]; intros mx x s' HR Hk; simpl.
  - eapply starLoop_complete; eauto.
  - inversion HR; subst.
    + simpl. by apply Hk.
    + rewrite H0. eapply Hma; [eassumption|]. intros y Hy.
      eapply IH; [by rewrite Hy | done].
Qed.

Lemma matcher_sound r :
  noBref r = true -> SoundAt (lang total r) (matcher total r).
Proof.
  induction r; intros Hb x k z; simpl in *.
  - intros Hk. by exists x.
  - destruct (rest x) as [|c t] eqn:Ex; [done|]. destruct (p c) eqn:Ep; [|done].
    intros Hk. exists (MState t (caps x)). split; [|done]. by exists c.
  - apply andb_prop in Hb as [Ha Hb]. intros H.
    apply IHr1 in H as (m & Hm & H); [|done].
    apply IHr2 in H as (y & Hy & H); [|done].
    exists y. split; [|done]. by exists (rest m).
  - apply andb_prop in Hb as [Ha Hb].
    destruct (matcher total r1 x k) eqn:E.
    + intros [= <-]. apply IHr1 in E as (y & Hy & H); [|done]. exists y. tauto.
    + intros H. apply IHr2 in H as (y & Hy & H); [|done]. exists y. tauto.
  - intros H. eapply requiredLoop_sound in H; [exact H|].
    intros x' k' z' H'. apply IHr in H' as (y & Hy & H'); [|done]. by exists y.
  - intros H. apply IHr in H as (y & Hy & H); [|done]. by eexists (MState _ _).
  - done.
  - destruct (Nat.eqb_spec (length (rest x)) total); [|done]. intros Hk. by exists x.
  - destruct (rest x) eqn:Ex; [|done]. intros Hk. exists x. by rewrite Ex.
Qed.

Lemma matcher_complete r : CompleteAt (lang total r) (matcher total r).
Proof.
  induction r; intros x s' k; simpl.
  - intros -> Hk. by apply Hk.
  - intros (c & -> & ->) Hk. by apply Hk.
  - intros (m & Ha & Hb) Hk. eapply IHr1; [exact Ha|]. intros y Hy.
    eapply IHr2; [by rewrite Hy | done].
  - intros [Ha | Hb] Hk.
    + destruct (IHr1 _ _ k Ha Hk) as [z ->]. done.
    + destruct (matcher total r1 x k); [done|]. by eapply IHr2.
  - intros HR Hk. eapply requiredLoop_complete; [|exact HR|exact Hk].
    intros x' s'' k' H' Hk'. by eapply IHr.
  - intros Ha Hk. eapply IHr; [exact Ha|]. intros y Hy. by apply Hk.
  - done.
  - intros [-> <-] Hk. rewrite Nat.eqb_refl. by apply Hk.
  - intros [Hx ->] Hk. rewrite Hx. by apply Hk.
Qed.

End MatcherLang.

(** ** The fuel of the matcher is enough

    A matcher never moves the end index back, so the rounds of a
    repetition and the matches of a global pattern are found with the fuel
    that the definitions give them: more fuel gives the same result. *)

Lemma stripPrefix_length w s t : stripPrefix w s = Some t -> length t <= length s.
Proof.
  revert s. induction w as [|c w IH]; intros s; simpl.
  - by intros [= ->].
  - destruct s as [|c' s]; [done|]. destruct (c =? c')%N; [|done].
    intros Ht%IH. simpl. lia.
Qed.

Lemma starLoop_local ma greedy :
  LocalAt ma ->
  forall fuel mx x k k', agreeUpTo (length (rest x)) k k' ->
    starLoop ma greedy k fuel mx x = starLoop ma greedy k' fuel mx x.
Proof.
  intros Hma. induction fuel as [|fuel IH]; intros mx x k k' Hk; simpl.
  - rewrite (Hk x) by done. destruct (isZero mx); [done|].
    assert (H : ma x (fun y => if length (rest y) <? length (rest x) then None else None)
                = ma x (fun y => if length (rest y) <? length (rest x) then None else None))
      by done.
    by destruct greedy.
  - rewrite (Hk x) by done. destruct (isZero mx); [done|].
    assert (H : ma x (fun y => if length (rest y) <? length (rest x)
                              then starLoop ma greedy k fuel (predMax mx) y else None)
                = ma x (fun y => if length (rest y) <? length (rest x)
                                then starLoop ma greedy k' fuel (predMax mx) y else None)).
    { apply Hma. intros y Hy.
      destruct (Nat.ltb_spec (length (rest y)) (length (rest x))); [|done].
      apply IH. intros z Hz. apply Hk. lia. }
    rewrite H. by destruct greedy.
Qed.

Lemma requiredLoop_local ma greedy :
  LocalAt ma ->
  forall mn mx x k k', agreeUpTo (length (rest x)) k k' ->
    requiredLoop ma greedy k mn mx x = requiredLoop ma greedy k' mn mx x.
Proof.
  intros Hma. induction mn as [|mn IH]; intros mx x k k' Hk; simpl.
  - by apply starLoop_local.
  - rewrite (Hk x) by done. destruct (isZero mx); [done|].
    apply Hma. intros y Hy. apply IH. intros z Hz. apply Hk. lia.
Qed.

Lemma matcher_local total r : LocalAt (matcher total r).
Proof.
  induction r; intros x k k' Hk; simpl.
  - by apply Hk.
  - destruct (rest x) as [|c t] eqn:E; [done|]. case_match; [|done].
    apply Hk. simpl. lia.
  - apply IHr1. intros y Hy. apply IHr2. intros z Hz. apply Hk. lia.
  - rewrite (IHr1 x k k' Hk), (IHr2 x k k' Hk). done.
  - apply requiredLoop_local; [|done]. intros y k1 k2 Hk12. by apply IHr.
  - apply IHr. intros y Hy. by apply Hk.
  - destruct (caps x !! n) as [w|]; [|by apply Hk].
    destruct (stripPrefix w (rest x)) eqn:E; [|done].
    apply Hk. simpl. by eapply stripPrefix_length.
  - destruct (length (rest x) =? total); [apply Hk; lia | done].
  - destruct (rest x) eqn:E; [apply Hk; rewrite E; simpl; lia | done].
Qed.

(** The optional rounds of a repetition: any fuel above the input that
    remains gives the result that this input as fuel gives. *)
Lemma starLoop_fuel ma greedy k :
  LocalAt ma ->
  forall fuel fuel' mx x,
    length (rest x) <= fuel -> length (rest x) <= fuel' ->
    starLoop ma greedy k fuel mx x = starLoop ma greedy k fuel' mx x.
Proof.
  intros Hma. induction fuel as [|fuel IH]; intros fuel' mx x Hf Hf'.
  - destruct fuel'; simpl; destruct (isZero mx); try done.
    assert (H : ma x (fun y => if length (rest y) <? length (rest x) then None else None)
                = ma x (fun y => if length (rest y) <? length (rest x)
                                then starLoop ma greedy k fuel' (predMax mx) y else None)).
    { apply Hma. intros y Hy.
      destruct (Nat.ltb_spec (length (rest y)) (length (rest x))); [lia | done]. }
    by rewrite H.
  - destruct fuel'; simpl; destruct (isZero mx); try done.
    + assert (H : ma x (fun y => if length (rest y) <? length (rest x)
                                then starLoop ma greedy k fuel (predMax mx) y else None)
                  = ma x (fun y => if length (rest y) <? length (rest x) then None else None)).
      { apply Hma. intros y Hy.
        destruct (Nat.ltb_spec (length (rest y)) (length (rest x))); [lia | done]. }
      by rewrite H.
    + assert (H : ma x (fun y => if length (rest y) <? length (rest x)
                                then starLoop ma greedy k fuel (predMax mx) y else None)
                  = ma x (fun y => if length (rest y) <? length (rest x)
                                  then starLoop ma greedy k fuel' (predMax mx) y else None)).
      { apply Hma. intros y Hy.
        destruct (Nat.ltb_spec (length (rest y)) (length (rest x))); [|done].
        apply IH; lia. }
      by rewrite H.
Qed.

(** A successful match leaves the end index where it was or further on. *)
Lemma Reps_advance (P : jsstring -> jsstring -> Prop) mn mx s s' :
  (forall a b, P a b -> length b <= length a) ->
  Reps P mn mx s s' -> length s' <= length s.
Proof.
  intros HP. induction 1 as [| |? ? ? ? ? _ H1 _ IH|? ? ? ? _ H1 _ _ IH]; try done.
  - apply HP in H1. lia.
  - apply HP in H1. lia.
Qed.

Lemma matcher_advances total r :
  SoundAt (fun s s' => length s' <= length s) (matcher total r).
Proof.
  induction r; intros x k z; simpl.
  - intros Hk. exists x. split; [cbn beta; lia | done].
  - destruct (rest x) as [|c t] eqn:E; [done|]. destruct (p c); [|done].
    intros Hk. exists (MState t (caps x)). split; [simpl; lia | done].
  - intros (m & Hm & (y & Hy & H)%IHr2)%IHr1. exists y.
    split; [cbn beta in *; lia | done].
  - destruct (matcher total r1 x k) eqn:E.
    + intros [= <-]. by apply IHr1.
    + apply IHr2.
  - intros H. eapply (requiredLoop_sound (fun s s' => length s' <= length s)) in H.
    + destruct H as (y & Hy & H). exists y. split; [|done].
      by eapply Reps_advance; [|exact Hy].
    + intros x' k' z' H'. by apply IHr in H'.
  - intros (y & Hy & H)%IHr. by eexists (MState _ _).
  - destruct (caps x !! n) as [w|];
      [|intros Hk; exists x; split; [cbn beta; lia | done]].
    destruct (stripPrefix w (rest x)) as [t|] eqn:E; [|done].
    intros Hk. exists (MState t (caps x)). split; [|done].
    simpl. by eapply stripPrefix_length.
  - destruct (length (rest x) =? total); [|done]. intros Hk. exists x.
    split; [cbn beta; lia | done].
  - destruct (rest x) eqn:E; [|done]. intros Hk. exists x.
    split; [rewrite E; simpl; lia | done].
Qed.

Lemma search_after total r s mr :
  search total r s = Some mr ->
  length (mafter mr) <= length s
  /\ (mtext mr <> [] -> length (mafter mr) < length s).
Proof.
  induction s as [|c s IH]; simpl; unfold matchHere.
  - destruct (matcher total r (MState [] ∅) Some) as [y|] eqn:E; [|done].
    intros [= <-]. simpl. apply matcher_advances in E as (y' & Hy & [= ->]).
    simpl in Hy. split; [done|]. intros Hne. by destruct (0 - length (rest y)).
  - destruct (matcher total r (MState (c :: s) ∅) Some) as [y|] eqn:E.
    + intros [= <-]. cbn [mafter mtext]. apply matcher_advances in E as (y' & Hy & [= ->]).
      cbn beta in Hy. cbn [rest length] in Hy. split; [done|]. intros Hne.
      destruct (decide (length (rest y) = S (length s))) as [Heq|]; [|lia].
      rewrite Heq, Nat.sub_diag in Hne. done.
    + intros H%IH. lia.
Qed.

(** The matches of a global pattern: any fuel above the length of the
    input gives the matches that [allMatches] finds. *)
Lemma matchesFrom_fuel total r :
  forall fuel fuel' s, length s < fuel -> length s < fuel' ->
    matchesFrom fuel total r s = matchesFrom fuel' total r s.
Proof.
  induction fuel as [|fuel IH]; intros fuel' s Hf Hf'; [lia|].
  destruct fuel'; [lia|]. simpl.
  destruct (search total r s) as [mr|] eqn:E; [|done]. f_equal.
  apply search_after in E as [Hle Hlt].
  destruct (mtext mr) eqn:Et.
  - destruct (mafter mr) eqn:Ea; [done|]. simpl in Hle. apply IH; lia.
  - assert (length (mafter mr) < length s) by (apply Hlt; done).
    apply IH; lia.
Qed.

(** ** Tests against a pattern *)

Lemma matchHere_is_Some total r s :
  noBref r = true ->
  is_Some (matchHere total r s) <-> exists s', lang total r s s'.
Proof.
  intros Hb. unfold matchHere. split.
  - destruct (matcher total r (MState s ∅) Some) eqn:E; [|by intros [? ?]].
    intros _. apply matcher_sound in E as (y & Hy & _); [|done]. by exists (rest y).
  - intros [s' Hs'].
    destruct (matcher_complete total r (MState s ∅) s' Some Hs') as [y ->]; done.
Qed.

Lemma search_is_Some total r s :
  noBref r = true ->
  is_Some (search total r s) <->
  exists pre s1 s', s = pre ++ s1 /\ lang total r s1 s'.
Proof.
  intros Hb. induction s as [|c s IH]; simpl.
  - destruct (matchHere total r []) eqn:E.
    + split; [intros _|done].
      assert (is_Some (matchHere total r [])) as H by by rewrite E.
      apply matchHere_is_Some in H as [s' H]; [|done]. by exists [], [], s'.
    + split; [by intros [? ?]|]. intros (pre & s1 & s' & Hs & H).
      symmetry in Hs. apply app_eq_nil in Hs as [-> ->].
      assert (is_Some (matchHere total r [])) as [? ?]; [|congruence].
      apply matchHere_is_Some; eauto.
  - destruct (matchHere total r (c :: s)) eqn:E.
    + split; [intros _|done].
      assert (is_Some (matchHere total r (c :: s))) as H by by rewrite E.
      apply matchHere_is_Some in H as [s' H]; [|done]. by exists [], (c :: s), s'.
    + rewrite IH. split.
      * intros (pre & s1 & s' & -> & H). by exists (c :: pre), s1, s'.
      * intros (pre & s1 & s' & Hs & H). destruct pre as [|c' pre]; simpl in Hs.
        -- subst s1.
           assert (is_Some (matchHere total r (c :: s))) as [? ?]; [|congruence].
           apply matchHere_is_Some; eauto.
        -- injection Hs as -> ->. by exists pre, s1, s'.
Qed.

Lemma regexTest_true r s :
  noBref r = true ->
  regexTest r s = true <->
  exists pre s1 s', s = pre ++ s1 /\ lang (length s) r s1 s'.
Proof.
  intros Hb. rewrite <- search_is_Some by done.
  unfold regexTest, regexMatch.
  destruct (search _ r s); split; first [done | by intros [? ?]].
Qed.

(** A pattern that starts with [^] can only match at index 0. *)
Lemma lang_at_start (s pre s1 : jsstring) :
  length s1 = length s -> s = pre ++ s1 -> pre = [].
Proof.
  intros Hl ->. rewrite length_app in Hl. destruct pre; [done | simpl in Hl; lia].
Qed.

(** The rounds of a character class: a run of characters of the class. *)
Lemma Reps_class total p mn s s' :
  Reps (lang total (Chr p)) mn None s s' <->
  exists w, s = w ++ s' /\ Forall (fun c => p c = true) w /\ mn <= length w.
Proof.
  split.
  - remember None as mx eqn:Hmx. induction 1 as [| |mn mx s m s' _ (c & -> & Hc) _ IH
      |mx s m s' _ (c & -> & Hc) _ _ IH]; subst.
    + exists []. repeat split; [constructor | simpl; lia].
    + done.
    + destruct IH as (w & -> & Hw & Hl); [done|].
      exists (c :: w). repeat split; [by constructor | simpl; lia].
    + destruct IH as (w & -> & Hw & Hl); [done|].
      exists (c :: w). repeat split; [by constructor | simpl; lia].
  - intros (w & -> & Hw & Hl). revert mn Hl.
    induction Hw as [|c w Hc Hw IH]; intros mn Hl.
    + destruct mn; [constructor | simpl in Hl; lia].
    + destruct mn.
      * eapply (Reps_optional _ _ _ (w ++ s'));
          [done | simpl; by exists c | simpl; lia |].
        apply IH. lia.
      * eapply (Reps_required _ _ _ _ (w ++ s')); [done | simpl; by exists c |].
        apply IH. simpl in Hl. lia.
Qed.

(** The patterns are run by evaluation on closed inputs only; in a goal
    over an arbitrary line they stay folded. *)
Arguments matcher : simpl never.
Arguments matchHere : simpl never.
Arguments search : simpl never.
Arguments regexMatch : simpl never.
Arguments regexTest : simpl never.
Arguments matchesFrom : simpl never.
Arguments allMatches : simpl never.
Arguments replaceAll : simpl never.
Arguments replaceAllSt : simpl never.
Arguments parseAttributes : simpl never.
Arguments Masking.maskCodeContent : simpl never.
Arguments Masking.unmaskCodeContent : simpl never.
Arguments Masking.tagsOfLine : simpl never.
Arguments Masking.selfClosingTags : simpl never.
Arguments Masking.closingTags : simpl never.
Arguments Masking.openingTags : simpl never.
Arguments headerOfLine : simpl never.
Arguments Legacy.tagsOfLine : simpl never.
Arguments Masking.convertLine : simpl never.
Arguments Legacy.convertLine : simpl never.
Arguments LineBased.convertLine : simpl never.
Arguments LineBased.processLine : simpl never.

(** ** C4: the horizontal-rule classifier *)

Lemma horizontalRule_lang total s s' :
  lang total horizontalRuleRegex s s' <->
  length s = total /\ s' = [] /\
  exists a b c, s = a ++ b ++ c
    /\ Forall (fun x => isSpace x = true) a
    /\ Forall (fun x => isHrChar x = true) b /\ 3 <= length b
    /\ Forall (fun x => isSpace x = true) c.
Proof.
  unfold horizontalRuleRegex, Star, AtLeast. simpl. split.
  - intros (m1 & (m2 & (m3 & (m4 & [-> Hl] & Ha) & Hb) & Hc) & -> & ->).
    apply (proj1 (Reps_class total isSpace _ _ _)) in Ha as (a & -> & Ha & _).
    apply (proj1 (Reps_class total isHrChar _ _ _)) in Hb as (b & -> & Hb & Hlb).
    apply (proj1 (Reps_class total isSpace _ _ _)) in Hc as (c & -> & Hc & _).
    rewrite app_nil_r in *. split; [done|]. split; [done|]. by exists a, b, c.
  - intros (Hl & -> & a & b & c & -> & Ha & Hb & Hlb & Hc).
    exists []. split; [|done]. exists c. split.
    + exists (b ++ c). split.
      * exists (a ++ b ++ c). split; [done|].
        apply (proj2 (Reps_class total isSpace _ _ _)).
        exists a. repeat split; [done | lia].
      * apply (proj2 (Reps_class total isHrChar _ _ _)). by exists b.
    + apply (proj2 (Reps_class total isSpace _ _ _)). exists c.
      rewrite app_nil_r. repeat split; [done | lia].
Qed.

(** C4, as stated, fails: the classifier of the sources and the classifier
    of the specification's words differ, at the line of three hyphens
    separated by blanks. *)
Lemma horizontal_rule_spaced_rejected :
  ~ (forall line,
       regexTest horizontalRuleRegex line = true <-> specHorizontalRule line = true).
Proof.
  intros H. destruct (H (str "- - -")) as [_ H']. vm_compute in H'.
  discriminate (H' eq_refl).
Qed.

(** C4, amended: the classifier accepts a line exactly when it is
    whitespace, then a contiguous run of three or more characters each
    from [-], [*] and [_] (they need not be the same), then whitespace.
    Two hyphens are rejected, three are accepted, three hyphens separated by
    blanks are rejected, and a mixed run is accepted. *)
Theorem horizontal_rule_classifier :
  (forall line,
     regexTest horizontalRuleRegex line = true <->
     exists a b c, line = a ++ b ++ c
       /\ Forall (fun x => isSpace x = true) a
       /\ Forall (fun x => isHrChar x = true) b /\ 3 <= length b
       /\ Forall (fun x => isSpace x = true) c)
  /\ regexTest horizontalRuleRegex (str "--") = false
  /\ regexTest horizontalRuleRegex (str "---") = true
  /\ regexTest horizontalRuleRegex (str "- - -") = false
  /\ regexTest horizontalRuleRegex (str "-*_") = true.
Proof.
  split; [|by vm_compute].
  intros line. rewrite regexTest_true by done. split.
  - intros (pre & s1 & s' & Hs & H).
    apply horizontalRule_lang in H as (Hl & _ & H).
    apply (lang_at_start line pre s1) in Hs as Hpre; [|done]. by subst.
  - intros H. exists [], line, []. split; [done|].
    apply horizontalRule_lang. done.
Qed.

(** ** C2: masking and unmasking *)

(** C2 fails on the sources.  The line below holds no code unit 0; its
    double-backtick span lies inside a single-backtick span, so the second
    pass of [maskCodeContent] swallows the Masking.placeholder of the first, and
    [unmaskCodeContent], which does not look into what it restores, leaves
    that Masking.placeholder in the line. *)
Theorem mask_unmask_nested_span :
  let s := str "`a ``b`` c`" in
  forallb (fun c => negb (c =? 0)%N) s = true
  /\ Masking.maskCodeContent s =
       (Masking.placeholder 1, [str "``b``"; str "`a " ++ Masking.placeholder 0 ++ str " c`"])
  /\ Masking.unmaskCodeContent (Masking.maskCodeContent s).1 (Masking.maskCodeContent s).2
       = str "`a " ++ Masking.placeholder 0 ++ str " c`"
  /\ Masking.unmaskCodeContent (Masking.maskCodeContent s).1 (Masking.maskCodeContent s).2 <> s.
Proof. by vm_compute. Qed.

(** ** C9: the beautifier run twice *)

(** C9 fails on the sources.  A header line whose text is empty is a
    header to the first run, which trims it to the bare marker; the bare
    marker is no header to the second run, which indents it as content. *)
Theorem beautify_twice_empty_header :
  let x := join [10%N] [str "<a>"; str "# "; str "</a>"] in
  beautifyDocument x = join [10%N] [str "<a>"; str "#"; str "</a>"]
  /\ beautifyDocument (beautifyDocument x) = join [10%N] [str "<a>"; str "  #"; str "</a>"]
  /\ beautifyDocument (beautifyDocument x) <> beautifyDocument x.
Proof. by vm_compute. Qed.

(** ** The nesting resolver *)

Lemma resetResolver_fixed r :
  tagStack r = [] -> currentDepth r = 0%Z -> resetResolver r = r.
Proof. destruct r. simpl. by intros -> ->. Qed.

Lemma Masking_reset_stays tag hrLines r :
  tagStack r = [] -> currentDepth r = 0%Z ->
  fold_left (Masking.resetAtRule tag) hrLines r = r.
Proof.
  revert r. induction hrLines as [|h hrLines IH]; intros r Hs Hd; [done|].
  simpl. unfold Masking.resetAtRule at 2.
  rewrite (resetResolver_fixed r Hs Hd). case_match; by apply IH.
Qed.

Lemma Legacy_reset_stays tag hrLines r :
  tagStack r = [] -> currentDepth r = 0%Z ->
  fold_left (Legacy.resetAtRule tag) hrLines r = r.
Proof.
  revert r. induction hrLines as [|h hrLines IH]; intros r Hs Hd; [done|].
  simpl. unfold Legacy.resetAtRule at 2.
  rewrite (resetResolver_fixed r Hs Hd). case_match; by apply IH.
Qed.

Lemma Masking_reset_tables tag hrLines r :
  let r' := fold_left (Masking.resetAtRule tag) hrLines r in
  tagDepthMap r' = tagDepthMap r /\ tagInfoMap r' = tagInfoMap r
  /\ tagEndLines r' = tagEndLines r.
Proof.
  revert r. induction hrLines as [|h hrLines IH]; intros r; [done|].
  simpl. destruct (IH (Masking.resetAtRule tag r h)) as (-> & -> & ->).
  unfold Masking.resetAtRule. by case_match.
Qed.

Lemma Legacy_reset_tables tag hrLines r :
  let r' := fold_left (Legacy.resetAtRule tag) hrLines r in
  tagDepthMap r' = tagDepthMap r /\ tagInfoMap r' = tagInfoMap r
  /\ tagEndLines r' = tagEndLines r.
Proof.
  revert r. induction hrLines as [|h hrLines IH]; intros r; [done|].
  simpl. destruct (IH (Legacy.resetAtRule tag r h)) as (-> & -> & ->).
  unfold Legacy.resetAtRule. by case_match.
Qed.

Lemma Masking_rule_resets tag hrLines r h :
  h ∈ hrLines -> topLine (tagStack r) < h -> h < line tag ->
  fold_left (Masking.resetAtRule tag) hrLines r = resetResolver r.
Proof.
  intros Hin Htop Hlt. revert r Htop.
  induction hrLines as [|h0 hrLines IH]; intros r Htop; [by apply elem_of_nil in Hin|].
  simpl. apply elem_of_cons in Hin as [<- | Hin].
  - assert (Masking.resetAtRule tag r h = resetResolver r) as ->.
    { unfold Masking.resetAtRule, topLine in *.
      destruct (Nat.ltb_spec h (line tag)); [|lia]. simpl.
      destruct (last (tagStack r)) as [top|]; [|done].
      by destruct (Nat.ltb_spec top.2 h); [|lia]. }
    by apply Masking_reset_stays.
  - unfold Masking.resetAtRule at 2. case_match.
    + by apply Masking_reset_stays.
    + by apply IH.
Qed.

Lemma Legacy_rule_resets tag hrLines r h :
  h ∈ hrLines -> topLine (tagStack r) < h -> h < line tag ->
  fold_left (Legacy.resetAtRule tag) hrLines r = resetResolver r.
Proof.
  intros Hin Htop Hlt. revert r Htop.
  induction hrLines as [|h0 hrLines IH]; intros r Htop; [by apply elem_of_nil in Hin|].
  simpl. apply elem_of_cons in Hin as [<- | Hin].
  - assert (Legacy.resetAtRule tag r h = resetResolver r) as ->.
    { unfold Legacy.resetAtRule. unfold topLine in Htop.
      destruct (Nat.ltb_spec h (line tag)); [|lia]. simpl.
      fold (topLine (tagStack r)) in *.
      by destruct (Nat.ltb_spec (topLine (tagStack r)) h); [|lia]. }
    by apply Legacy_reset_stays.
  - unfold Legacy.resetAtRule at 2. case_match.
    + by apply Legacy_reset_stays.
    + by apply IH.
Qed.

(** ** C8: a horizontal rule ends the open sections *)

Lemma setOf_elem x l seen : x ∈ l -> x ∈ seen \/ x ∈ setOf l seen.
Proof.
  revert seen. induction l as [|y l IH]; intros seen; [by intros ?%elem_of_nil|].
  intros [->|Hx]%elem_of_cons; simpl.
  - case_bool_decide; [by left | right; by left].
  - case_bool_decide.
    + by apply IH.
    + destruct (IH (y :: seen) Hx) as [[->|?]%elem_of_cons|?].
      * right. by left.
      * by left.
      * right. by right.
Qed.

Lemma Masking_resolveTags_snoc hrLines tags t :
  Masking.resolveTags hrLines (tags ++ [t]) =
  Masking.resolveStep hrLines (Masking.resolveTags hrLines tags) t.
Proof. unfold Masking.resolveTags. by rewrite fold_left_app. Qed.

Lemma Legacy_resolveTags_snoc hrLines tags t :
  Legacy.resolveTags hrLines (tags ++ [t]) =
  Legacy.resolveStep hrLines (Legacy.resolveTags hrLines tags) t.
Proof. unfold Legacy.resolveTags. by rewrite fold_left_app. Qed.

(** C8: in the tag loop of both transformers, take a tag of the document
    and the state in which the loop reaches it, after the tags recorded
    before it.  When a horizontal rule recorded for the document lies
    strictly between the line of the top of the stack (0 for an empty
    stack) and the line of the tag, the tag is processed from a state
    whose depth counter is 0 and whose stack is empty, the three tables
    being as they were: an opening tag is recorded at depth 0 and is alone
    on the stack afterwards.  The transformer goes through the lines with
    the tables that the loop ends with from there. *)
Theorem rule_between_resets_depth :
  (forall text pre tag post h,
     let structure := Masking.parseDocumentText text in
     let hrLines := setOf (horizontalRules structure) [] in
     let before := Masking.resolveTags hrLines pre in
     let after := Masking.resolveTags hrLines (pre ++ [tag]) in
     xmlTags structure = pre ++ tag :: post ->
     h ∈ horizontalRules structure ->
     topLine (tagStack before) < h -> h < line tag ->
     after = resolveTag tag (resetResolver before)
     /\ currentDepth (resetResolver before) = 0%Z
     /\ tagStack (resetResolver before) = []
     /\ tagDepthMap (resetResolver before) = tagDepthMap before
     /\ tagInfoMap (resetResolver before) = tagInfoMap before
     /\ tagEndLines (resetResolver before) = tagEndLines before
     /\ (isOpening tag = true ->
         tagDepthMap after !! line tag = Some 0%Z
         /\ currentDepth after = 1%Z
         /\ tagStack after = [(name tag, line tag)])
     /\ Masking.convertToMarkdown text
        = join [10%N] (concat (Masking.convertLines
            (fold_left (Masking.resolveStep hrLines) post after)
            (splitLines text) 0 false)))
  /\ (forall document pre tag post h,
        let structure := Legacy.parseDocument document in
        let hrLines := setOf (horizontalRules structure) [] in
        let before := Legacy.resolveTags hrLines pre in
        let after := Legacy.resolveTags hrLines (pre ++ [tag]) in
        xmlTags structure = pre ++ tag :: post ->
        h ∈ horizontalRules structure ->
        topLine (tagStack before) < h -> h < line tag ->
        after = resolveTag tag (resetResolver before)
        /\ currentDepth (resetResolver before) = 0%Z
        /\ tagStack (resetResolver before) = []
        /\ tagDepthMap (resetResolver before) = tagDepthMap before
        /\ tagInfoMap (resetResolver before) = tagInfoMap before
        /\ tagEndLines (resetResolver before) = tagEndLines before
        /\ (isOpening tag = true ->
            tagDepthMap after !! line tag = Some 0%Z
            /\ currentDepth after = 1%Z
            /\ tagStack after = [(name tag, line tag)])
        /\ Legacy.convertToMarkdown document
           = join [10%N] (concat (Legacy.convertLines
               (fold_left (Legacy.resolveStep hrLines) post after)
               (splitLines (getText document)) 0 false))).
Proof.
  split.
  - intros text pre tag post h structure hrLines before after Htags Hin Htop Hlt.
    assert (h ∈ hrLines) as Hh.
    { destruct (setOf_elem h _ [] Hin) as [?%elem_of_nil|?]; done. }
    assert (after = resolveTag tag (resetResolver before)) as Hafter.
    { unfold after. rewrite Masking_resolveTags_snoc. unfold Masking.resolveStep.
      fold before. by rewrite (Masking_rule_resets tag hrLines before h). }
    split; [done|]. repeat (split; [done|]). split.
    + intros Ho. rewrite Hafter. unfold resolveTag. rewrite Ho. simpl.
      by rewrite lookup_insert_eq.
    + unfold Masking.convertToMarkdown. fold structure. cbv zeta. fold hrLines.
      rewrite Htags. unfold Masking.resolveTags at 1.
      change (pre ++ tag :: post) with (pre ++ [tag] ++ post).
      by rewrite app_assoc, fold_left_app.
  - intros document pre tag post h structure hrLines before after Htags Hin Htop Hlt.
    assert (h ∈ hrLines) as Hh.
    { destruct (setOf_elem h _ [] Hin) as [?%elem_of_nil|?]; done. }
    assert (after = resolveTag tag (resetResolver before)) as Hafter.
    { unfold after. rewrite Legacy_resolveTags_snoc. unfold Legacy.resolveStep.
      fold before. rewrite (Legacy_rule_resets tag hrLines before h) by done.
      destruct (Nat.ltb_spec 0 (line tag)); [done | lia]. }
    split; [done|]. repeat (split; [done|]). split.
    + intros Ho. rewrite Hafter. unfold resolveTag. rewrite Ho. simpl.
      by rewrite lookup_insert_eq.
    + unfold Legacy.convertToMarkdown. fold structure. cbv zeta. fold hrLines.
      rewrite Htags. unfold Legacy.resolveTags at 1.
      change (pre ++ tag :: post) with (pre ++ [tag] ++ post).
      by rewrite app_assoc, fold_left_app.
Qed.

Lemma rule_between_resets_depth_witness :
  let text := join [10%N] [str "<a>"; str "---"; str "<b>"; str "</b>"; str "</a>"] in
  let a := MkTag (str "a") 0 0 true false false [] 0 3 in
  let b := MkTag (str "b") 2 0 true false false [] 0 3 in
  let post := [MkTag (str "b") 3 0 false true false [] 0 4;
               MkTag (str "a") 4 0 false true false [] 0 4] in
  let a' := MkTag (str "a") 0 0 true false false [] 0 0 in
  let b' := MkTag (str "b") 2 0 true false false [] 0 0 in
  let post' := [MkTag (str "b") 3 0 false true false [] 0 0;
                MkTag (str "a") 4 0 false true false [] 0 0] in
  let hrLines := setOf (horizontalRules (Masking.parseDocumentText text)) [] in
  xmlTags (Masking.parseDocumentText text) = [a] ++ b :: post
  /\ currentDepth (Masking.resolveTags hrLines [a]) = 1%Z
  /\ tagDepthMap (Masking.resolveTags hrLines [a; b]) !! 2 = Some 0%Z
  /\ tagStack (Masking.resolveTags hrLines [a; b]) = [(str "b", 2)]
  /\ xmlTags (Legacy.parseDocument (documentOf text)) = [a'] ++ b' :: post'
  /\ tagDepthMap (Legacy.resolveTags hrLines [a'; b']) !! 2 = Some 0%Z.
Proof.
  intros text a b post a' b' post' hrLines.
  assert (xmlTags (Masking.parseDocumentText text) = [a] ++ b :: post) as Hpost
    by by vm_compute.
  split; [done|]. split; [by vm_compute|].
  destruct rule_between_resets_depth as [HM HL].
  destruct (HM text [a] b post 1 Hpost) as (_ & _ & _ & _ & _ & _ & Ho & _);
    [vm_compute; set_solver | vm_compute; lia | vm_compute; lia |].
  destruct (Ho eq_refl) as (Hd & _ & Hs).
  split; [exact Hd|]. split; [exact Hs|].
  assert (xmlTags (Legacy.parseDocument (documentOf text)) = [a'] ++ b' :: post')
    as Hpost' by by vm_compute.
  split; [done|].
  destruct (HL (documentOf text) [a'] b' post' 1 Hpost')
    as (_ & _ & _ & _ & _ & _ & Ho' & _);
    [vm_compute; set_solver | vm_compute; lia | vm_compute; lia |].
  destruct (Ho' eq_refl) as (Hd' & _).
  assert (setOf (horizontalRules (Legacy.parseDocument (documentOf text))) [] = hrLines)
    as E by by vm_compute.
  rewrite E in Hd'. exact Hd'.
Defined.

(** ** Stacks *)

Lemma occurrences_cons nm e stack :
  occurrences nm (e :: stack) =
  (if bool_decide (e.1 = nm) then 1 else 0) + occurrences nm stack.
Proof. unfold occurrences. simpl. by case_bool_decide. Qed.

Lemma occurrences_app nm s1 s2 :
  occurrences nm (s1 ++ s2) = occurrences nm s1 + occurrences nm s2.
Proof. unfold occurrences. by rewrite List.filter_app, length_app. Qed.

Lemma spliceLast_None nm stack :
  spliceLast nm stack = None <-> occurrences nm stack = 0.
Proof.
  induction stack as [|e stack IH]; simpl; [done|].
  rewrite occurrences_cons. destruct (spliceLast nm stack) as [[found st]|].
  - split; [done|]. intros H. assert (occurrences nm stack = 0) as H0 by lia.
    by apply IH in H0.
  - case_bool_decide; split; try done; try lia. intros _. by apply IH.
Qed.

Lemma spliceLast_Some nm stack found stack' :
  spliceLast nm stack = Some (found, stack') ->
  found.1 = nm /\ length stack = S (length stack')
  /\ forall m, occurrences m stack =
       (if bool_decide (nm = m) then 1 else 0) + occurrences m stack'.
Proof.
  revert found stack'. induction stack as [|e stack IH]; intros found stack'; [done|].
  simpl. destruct (spliceLast nm stack) as [[found0 st]|] eqn:E.
  - intros [= <- <-]. destruct (IH _ _ eq_refl) as (Hn & Hl & Ho).
    split; [done|]. split; [simpl; lia|]. intros m.
    rewrite !occurrences_cons, Ho. lia.
  - case_bool_decide as Hn; [|done]. intros [= <- <-].
    split; [done|]. split; [done|]. intros m. rewrite occurrences_cons, Hn. done.
Qed.

Lemma resolveTag_depth tag r : depthIsHeight r -> depthIsHeight (resolveTag tag r).
Proof.
  unfold depthIsHeight, resolveTag. intros H.
  destruct (isOpening tag); simpl.
  { rewrite length_app. simpl. lia. }
  destruct (isClosing tag); simpl.
  { destruct (spliceLast _ _) as [[found st]|] eqn:E; simpl; [|done].
    apply spliceLast_Some in E as (_ & Hl & _). lia. }
  by destruct (isSelfClosing tag).
Qed.

Lemma Masking_reset_depth tag hrLines r :
  depthIsHeight r -> depthIsHeight (fold_left (Masking.resetAtRule tag) hrLines r).
Proof.
  revert r. induction hrLines as [|h hrLines IH]; intros r H; [done|].
  simpl. apply IH. unfold Masking.resetAtRule. by case_match.
Qed.

Lemma Masking_resolveTags_depth hrLines tags :
  depthIsHeight (Masking.resolveTags hrLines tags).
Proof.
  unfold Masking.resolveTags. generalize initResolver, (eq_refl : depthIsHeight initResolver).
  induction tags as [|tag tags IH]; intros r H; [done|].
  simpl. apply IH. by apply resolveTag_depth, Masking_reset_depth.
Qed.

Lemma Masking_reset_within tag hrLines r f :
  stackWithin r f -> stackWithin (fold_left (Masking.resetAtRule tag) hrLines r) f.
Proof.
  revert r. induction hrLines as [|h hrLines IH]; intros r H; [done|].
  simpl. apply IH. unfold Masking.resetAtRule. case_match; [|done].
  intros nm. simpl. unfold occurrences at 1. simpl. lia.
Qed.

Lemma resolveTag_within tag r f :
  stackWithin r f -> stackWithin (resolveTag tag r) (foldTag f tag).
Proof.
  unfold stackWithin, resolveTag, foldTag. intros H nm. destruct f as [stack ranges].
  simpl in *. destruct (isOpening tag); simpl.
  { rewrite !occurrences_app. specialize (H nm). lia. }
  destruct (isClosing tag); simpl.
  - pose proof (Hn := H (name tag)). specialize (H nm).
    destruct (spliceLast (name tag) (tagStack r)) as [[found st]|] eqn:E;
      destruct (spliceLast (name tag) stack) as [[[fn fl] st']|] eqn:E'; simpl.
    + apply spliceLast_Some in E as (_ & _ & Ho).
      apply spliceLast_Some in E' as (_ & _ & Ho').
      rewrite Ho, Ho' in H. lia.
    + apply spliceLast_Some in E as (_ & _ & Ho).
      apply spliceLast_None in E'. specialize (Ho (name tag)).
      rewrite bool_decide_eq_true_2 in Ho by done. lia.
    + apply spliceLast_Some in E' as (_ & _ & Ho'). rewrite Ho' in H.
      apply spliceLast_None in E. case_bool_decide; [subst; lia | lia].
    + done.
  - destruct (isSelfClosing tag); apply H.
Qed.

Lemma Masking_resolveTags_within hrLines tags :
  stackWithin (Masking.resolveTags hrLines tags) (foldTags tags).
Proof.
  unfold Masking.resolveTags, foldTags.
  assert (H : stackWithin initResolver ([], [])) by (intros nm; done).
  revert H. generalize initResolver, (@nil StackEntry, @nil FoldingRange).
  induction tags as [|tag tags IH]; intros r f H; [done|].
  simpl. apply IH. by apply resolveTag_within, Masking_reset_within.
Qed.

(** ** The structure extractor *)

Lemma appendStructure_empty_l a : appendStructure emptyStructure a = a.
Proof. by destruct a. Qed.

Lemma appendStructure_empty_r a : appendStructure a emptyStructure = a.
Proof. destruct a. unfold appendStructure. simpl. by rewrite !app_nil_r. Qed.

Lemma appendStructure_assoc a b c :
  appendStructure (appendStructure a b) c = appendStructure a (appendStructure b c).
Proof. unfold appendStructure. simpl. by rewrite !app_assoc. Qed.

Section Extractor.

Variable tagsOfLine : nat -> jsstring -> list XmlTag.

Lemma parseLines_acc lines i b acc :
  parseLinesWith tagsOfLine lines i b acc =
  appendStructure acc (parseLinesWith tagsOfLine lines i b emptyStructure).
Proof.
  revert i b acc. induction lines as [|l lines IH]; intros i b acc; simpl.
  { by rewrite appendStructure_empty_r. }
  repeat case_match; try apply IH.
  - rewrite IH. rewrite (IH _ _ (MkStructure _ _ _)).
    rewrite <- appendStructure_assoc. f_equal.
    unfold appendStructure. simpl. by rewrite !app_nil_r.
  - rewrite IH. rewrite (IH _ _ (MkStructure _ _ _)).
    rewrite <- appendStructure_assoc. f_equal.
    unfold appendStructure. simpl. by rewrite !app_nil_r.
Qed.

Lemma parseLines_app l1 l2 i b acc :
  parseLinesWith tagsOfLine (l1 ++ l2) i b acc =
  parseLinesWith tagsOfLine l2 (i + length l1) (blockState isFenceLine b l1)
    (parseLinesWith tagsOfLine l1 i b acc).
Proof.
  revert i b acc. induction l1 as [|l l1 IH]; intros i b acc; simpl.
  { by rewrite Nat.add_0_r. }
  replace (i + S (length l1)) with (S i + length l1) by lia.
  unfold isFenceLine at 2. repeat case_match; apply IH.
Qed.

Lemma parseLines_cons l lines i b :
  parseLinesWith tagsOfLine (l :: lines) i b emptyStructure =
  appendStructure (lineStructure tagsOfLine i l b)
    (parseLinesWith tagsOfLine lines (S i) (if isFenceLine l then negb b else b)
       emptyStructure).
Proof.
  simpl. unfold lineStructure, isFenceLine.
  repeat case_match; rewrite ?appendStructure_empty_l; try done;
    by rewrite parseLines_acc.
Qed.

(** The structure of a document around one of its lines. *)
Lemma parseLines_around pre l post :
  parseLinesWith tagsOfLine (pre ++ l :: post) 0 false emptyStructure =
  appendStructure (parseLinesWith tagsOfLine pre 0 false emptyStructure)
    (appendStructure
       (lineStructure tagsOfLine (length pre) l (blockState isFenceLine false pre))
       (parseLinesWith tagsOfLine post (S (length pre))
          (if isFenceLine l then negb (blockState isFenceLine false pre)
           else blockState isFenceLine false pre) emptyStructure)).
Proof.
  rewrite parseLines_app. simpl "+". rewrite parseLines_acc. f_equal.
  apply parseLines_cons.
Qed.

(** Every tag that the extractor records comes from a line that it read
    outside code blocks, and every header and every rule carries the index
    of a line that it went through. *)
Lemma parseLines_tag_origin lines i b t :
  t ∈ xmlTags (parseLinesWith tagsOfLine lines i b emptyStructure) ->
  exists k l, lines !! k = Some l /\ t ∈ tagsOfLine (i + k) l.
Proof.
  revert i b. induction lines as [|l lines IH]; intros i b.
  { by intros ?%elem_of_nil. }
  rewrite parseLines_cons. simpl. rewrite elem_of_app. intros [Ht | Ht].
  - exists 0, l. split; [done|]. rewrite Nat.add_0_r. unfold lineStructure in Ht.
    repeat case_match; simpl in Ht; by try apply elem_of_nil in Ht.
  - apply IH in Ht as (k & l' & Hk & Ht). exists (S k), l'. split; [done|].
    by replace (i + S k) with (S i + k) by lia.
Qed.

Lemma parseLines_header_lines lines i b h :
  h ∈ headers (parseLinesWith tagsOfLine lines i b emptyStructure) ->
  i <= hline h < i + length lines.
Proof.
  revert i b. induction lines as [|l lines IH]; intros i b.
  { by intros ?%elem_of_nil. }
  rewrite parseLines_cons. simpl. rewrite elem_of_app. intros [Hh | Hh].
  - unfold lineStructure in Hh. repeat case_match; simpl in Hh;
      try (by apply elem_of_nil in Hh).
    unfold headerOfLine in Hh. case_match; [|by apply elem_of_nil in Hh].
    apply list_elem_of_singleton in Hh as ->. simpl. lia.
  - apply IH in Hh. lia.
Qed.

Lemma parseLines_rule_lines lines i b n :
  n ∈ horizontalRules (parseLinesWith tagsOfLine lines i b emptyStructure) ->
  i <= n < i + length lines.
Proof.
  revert i b. induction lines as [|l lines IH]; intros i b.
  { by intros ?%elem_of_nil. }
  rewrite parseLines_cons. simpl. rewrite elem_of_app. intros [Hn | Hn].
  - unfold lineStructure in Hn. repeat case_match; simpl in Hn;
      try (by apply elem_of_nil in Hn).
    apply list_elem_of_singleton in Hn as ->. lia.
  - apply IH in Hn. lia.
Qed.

End Extractor.

Lemma Masking_tagsOfLine_line i l t : t ∈ Masking.tagsOfLine i l -> line t = i.
Proof.
  unfold Masking.tagsOfLine, Masking.selfClosingTags, Masking.closingTags,
    Masking.openingTags.
  rewrite !elem_of_app, !list_elem_of_In, !in_map_iff.
  intros [(mr & <- & _) | [(mr & <- & _) | (mr & <- & _)]]; done.
Qed.

Lemma Masking_tagsOfLine_kind i l t : t ∈ Masking.tagsOfLine i l -> oneKind t.
Proof.
  unfold Masking.tagsOfLine, Masking.selfClosingTags, Masking.closingTags,
    Masking.openingTags, oneKind.
  rewrite !elem_of_app, !list_elem_of_In, !in_map_iff.
  intros [(mr & <- & _) | [(mr & <- & _) | (mr & <- & _)]]; simpl; tauto.
Qed.

Lemma Legacy_tagsOfLine_line i l t : t ∈ Legacy.tagsOfLine i l -> line t = i.
Proof.
  unfold Legacy.tagsOfLine.
  rewrite !elem_of_app, !list_elem_of_In, !in_map_iff.
  intros [(mr & <- & _) | [(mr & <- & _) | (mr & <- & _)]]; done.
Qed.

Lemma Legacy_tagsOfLine_kind i l t : t ∈ Legacy.tagsOfLine i l -> oneKind t.
Proof.
  unfold Legacy.tagsOfLine, oneKind.
  rewrite !elem_of_app, !list_elem_of_In, !in_map_iff.
  intros [(mr & <- & _) | [(mr & <- & _) | (mr & <- & _)]]; simpl; tauto.
Qed.

Lemma Masking_parse_tag text t :
  t ∈ xmlTags (Masking.parseDocumentText text) ->
  oneKind t /\ line t < length (splitLines text).
Proof.
  intros (k & l & Hk & Ht)%parseLines_tag_origin. split.
  - by eapply Masking_tagsOfLine_kind.
  - apply Masking_tagsOfLine_line in Ht as ->. by apply lookup_lt_Some in Hk.
Qed.

Lemma Legacy_parse_tag document t :
  t ∈ xmlTags (Legacy.parseDocument document) ->
  oneKind t /\ line t < length (lineTexts document).
Proof.
  intros (k & l & Hk & Ht)%parseLines_tag_origin. split.
  - by eapply Legacy_tagsOfLine_kind.
  - apply Legacy_tagsOfLine_line in Ht as ->. by apply lookup_lt_Some in Hk.
Qed.

(** The structure of a document around one of its lines. *)
Lemma Masking_parse_around text pre l post :
  splitLines text = pre ++ l :: post ->
  Masking.parseDocumentText text =
  appendStructure (Masking.parseLines pre 0 false emptyStructure)
    (appendStructure
       (lineStructure Masking.tagsOfLine (length pre) l
          (blockState isFenceLine false pre))
       (Masking.parseLines post (S (length pre))
          (if isFenceLine l then negb (blockState isFenceLine false pre)
           else blockState isFenceLine false pre) emptyStructure)).
Proof.
  intros Hs. unfold Masking.parseDocumentText, Masking.parseLines. rewrite Hs.
  apply parseLines_around.
Qed.

(** ** The tag loops, one tag after the other *)

Lemma foldTags_snoc tags t : foldTags (tags ++ [t]) = foldTag (foldTags tags) t.
Proof. unfold foldTags. by rewrite fold_left_app. Qed.

(** ** The line loop of the transformers *)

Section Transformer.

Variable convertLine : nat -> jsstring -> bool -> bool * list jsstring.
Variable fence : jsstring -> bool.

Hypothesis convertLine_flag : forall i l b,
  (convertLine i l b).1 = if fence l then negb b else b.

(** The lines pushed in the round of one line. *)
Lemma convertLines_lookup pre l post i b :
  convertLinesWith convertLine (pre ++ l :: post) i b !! length pre =
  Some (convertLine (i + length pre) l (blockState fence b pre)).2.
Proof.
  revert i b. induction pre as [|l0 pre IH]; intros i b; simpl.
  - rewrite Nat.add_0_r. by destruct (convertLine i l b).
  - pose proof (convertLine_flag i l0 b) as Hf.
    destruct (convertLine i l0 b) as [b' pushed]. simpl in *. subst b'.
    rewrite IH. by replace (S i + length pre) with (i + S (length pre)) by lia.
Qed.



End Transformer.

Lemma Masking_convertLine_flag r i l b :
  (Masking.convertLine r i l b).1 = if regexTest fenceLineRegex l then negb b else b.
Proof. unfold Masking.convertLine. by repeat case_match. Qed.

Lemma Legacy_convertLine_flag r i l b :
  (Legacy.convertLine r i l b).1 =
  if regexTest Legacy.fenceLineRegex l then negb b else b.
Proof. unfold Legacy.convertLine. by repeat case_match. Qed.

(** A closing tag enters its line in [tagEndLines], and no line leaves
    that set. *)
Lemma resolveTag_ends tag r n :
  n ∈ tagEndLines r -> n ∈ tagEndLines (resolveTag tag r).
Proof.
  unfold resolveTag. repeat case_match; simpl; set_solver.
Qed.

Lemma resolveTag_closing tag r :
  isOpening tag = false -> isClosing tag = true ->
  line tag ∈ tagEndLines (resolveTag tag r).
Proof.
  unfold resolveTag. intros -> ->. case_match; [case_match|]; simpl; set_solver.
Qed.

Section ResolverLoop.

(** The resolver loops of the two variants differ in the horizontal-rule
    check, which leaves the tables alone. *)
Variable check : XmlTag -> Resolver -> Resolver.
Hypothesis check_ends : forall tag r, tagEndLines (check tag r) = tagEndLines r.

Lemma resolve_ends_grow tags r n :
  n ∈ tagEndLines r ->
  n ∈ tagEndLines (fold_left (fun r tag => resolveTag tag (check tag r)) tags r).
Proof.
  revert r. induction tags as [|tag tags IH]; intros r H; [done|].
  simpl. apply IH, resolveTag_ends. by rewrite check_ends.
Qed.

Lemma resolve_ends_closing tags r t :
  t ∈ tags -> isOpening t = false -> isClosing t = true ->
  line t ∈ tagEndLines (fold_left (fun r tag => resolveTag tag (check tag r)) tags r).
Proof.
  intros Ht Ho Hc. revert r. induction tags as [|tag tags IH]; intros r.
  { by apply elem_of_nil in Ht. }
  simpl. apply elem_of_cons in Ht as [<- | Ht].
  - by apply resolve_ends_grow, resolveTag_closing.
  - by apply IH.
Qed.

End ResolverLoop.

Lemma Masking_resolve_ends hrLines tags t :
  t ∈ tags -> isOpening t = false -> isClosing t = true ->
  line t ∈ tagEndLines (Masking.resolveTags hrLines tags).
Proof.
  intros. unfold Masking.resolveTags, Masking.resolveStep.
  apply (resolve_ends_closing (fun tag r => fold_left (Masking.resetAtRule tag) hrLines r));
    [|done..].
  intros tag r. apply Masking_reset_tables.
Qed.

Lemma Legacy_resolve_ends hrLines tags t :
  t ∈ tags -> isOpening t = false -> isClosing t = true ->
  line t ∈ tagEndLines (Legacy.resolveTags hrLines tags).
Proof.
  intros. unfold Legacy.resolveTags, Legacy.resolveStep.
  apply (resolve_ends_closing (fun tag r =>
    if 0 <? line tag then fold_left (Legacy.resetAtRule tag) hrLines r else r));
    [|done..].
  intros tag r. case_match; [|done]. apply Legacy_reset_tables.
Qed.

(** ** C6: the line of a closing tag *)

Lemma closingTagOn_true s i :
  closingTagOn s i = true ->
  exists t, t ∈ xmlTags s /\ isClosing t = true /\ line t = i.
Proof.
  unfold closingTagOn. rewrite existsb_exists. intros (t & Ht & H).
  apply andb_prop in H as [Hc Hl]. apply Nat.eqb_eq in Hl.
  exists t. by rewrite list_elem_of_In.
Qed.

Lemma oneKind_closing t : oneKind t -> isClosing t = true -> isOpening t = false.
Proof. unfold oneKind. intros [H | [H | H]] Hc; destruct H as (? & ? & ?); congruence. Qed.

(** C6 fails on src/extension.ts: there the line of a closing tag is
    skipped, and no empty line takes its place. *)
Lemma closing_tag_line_skipped :
  let document := documentOf (join [10%N] [str "<a>"; str "x"; str "</a>"]) in
  closingTagOn (Legacy.parseDocument document) 2 = true
  /\ Legacy_pushedAt document 2 = Some []
  /\ Legacy.convertToMarkdown document = join [10%N] [str "## a"; str "x"].
Proof. by vm_compute. Qed.

(** C6, amended: a line outside the code blocks of the transformer on
    which a closing tag was recorded is replaced by exactly one empty line
    in part_000, and is skipped (nothing is pushed for it) in
    src/extension.ts. *)
Theorem closing_tag_line_output :
  (forall text pre l post,
     splitLines text = pre ++ l :: post ->
     closingTagOn (Masking.parseDocumentText text) (length pre) = true ->
     blockState (regexTest fenceLineRegex) false pre = false ->
     regexTest fenceLineRegex l = false ->
     Masking_pushedAt text (length pre) = Some [[]])
  /\ (forall document pre l post,
        splitLines (getText document) = pre ++ l :: post ->
        closingTagOn (Legacy.parseDocument document) (length pre) = true ->
        blockState (regexTest Legacy.fenceLineRegex) false pre = false ->
        regexTest Legacy.fenceLineRegex l = false ->
        Legacy_pushedAt document (length pre) = Some []).
Proof.
  split.
  - intros text pre l post Hs (t & Ht & Hc & Hl)%closingTagOn_true Hb Hf.
    unfold Masking_pushedAt, Masking.convertLines. rewrite Hs.
    rewrite (convertLines_lookup _ (regexTest fenceLineRegex))
      by apply Masking_convertLine_flag.
    rewrite Hb. unfold Masking.convertLine. rewrite Hf.
    rewrite bool_decide_eq_true_2; [done|]. simpl. rewrite <- Hl.
    apply Masking_resolve_ends; [done| |done].
    apply oneKind_closing; [|done]. by apply (Masking_parse_tag text).
  - intros document pre l post Hs (t & Ht & Hc & Hl)%closingTagOn_true Hb Hf.
    unfold Legacy_pushedAt, Legacy.convertLines. rewrite Hs.
    rewrite (convertLines_lookup _ (regexTest Legacy.fenceLineRegex))
      by apply Legacy_convertLine_flag.
    rewrite Hb. unfold Legacy.convertLine. rewrite Hf.
    rewrite bool_decide_eq_true_2; [done|]. simpl. rewrite <- Hl.
    apply Legacy_resolve_ends; [done| |done].
    apply oneKind_closing; [|done]. by apply (Legacy_parse_tag document).
Qed.

Lemma closing_tag_line_output_witness :
  let text := join [10%N] [str "<a>"; str "x"; str "</a>"] in
  Masking_pushedAt text 2 = Some [[]]
  /\ Legacy_pushedAt (documentOf text) 2 = Some [].
Proof.
  intros text. destruct closing_tag_line_output as [HM HL]. split.
  - apply (HM text [str "<a>"; str "x"] (str "</a>") []); by vm_compute.
  - apply (HL (documentOf text) [str "<a>"; str "x"] (str "</a>") []); by vm_compute.
Defined.

(** ** C5: a fence of another kind *)












(** ** C1: lines inside a fenced code block *)

(** C1 fails on the sources.  The extractor tests a fence line with
    [codeBlockRegex]; [convertToMarkdown] tests it with [fenceLineRegex],
    whose tail [(.* )$] stops at a line terminator other than the line
    break.  In the document below the opening fence is followed by the
    line separator U+2028: the extractor takes lines 0 and 2 for fences
    and records nothing on line 1, which lies between them, while
    [convertToMarkdown] does not take line 0 for a fence, finds line 1
    outside any block, strips its tag and drops it. *)
Theorem code_block_line_dropped :
  let opener := str "```" ++ [8232%N] in
  let text := join [10%N] [opener; str "<a>"; str "```"] in
  splitLines text = [opener; str "<a>"; str "```"]
  /\ blockState isFenceLine false [opener] = true
  /\ isFenceLine (str "<a>") = false
  /\ isFenceLine (str "```") = true
  /\ Masking.parseDocumentText text = emptyStructure
  /\ Masking_pushedAt text 1 = Some []
  /\ Masking.convertToMarkdown text = join [10%N] [opener; str "```"].
Proof. by vm_compute. Qed.

Lemma lang_suffix total r s s' :
  noBref r = true -> lang total r s s' -> exists w, s = w ++ s'.
Proof.
  revert s s'. induction r; intros s s' Hb; simpl in *.
  - intros ->. by exists [].
  - intros (c & -> & _). by exists [c].
  - apply andb_prop in Hb as [Ha Hb]. intros (m & H1 & H2).
    apply IHr1 in H1 as (w1 & ->); [|done]. apply IHr2 in H2 as (w2 & ->); [|done].
    exists (w1 ++ w2). by rewrite app_assoc.
  - apply andb_prop in Hb as [Ha Hb]. intros [H | H]; eauto.
  - induction 1 as [| |mn mx s m s' _ HP _ IH|mx s m s' _ HP _ _ IH].
    + by exists [].
    + by exists [].
    + apply IHr in HP as (w1 & ->); [|done]. destruct IH as (w2 & ->).
      exists (w1 ++ w2). by rewrite app_assoc.
    + apply IHr in HP as (w1 & ->); [|done]. destruct IH as (w2 & ->).
      exists (w1 ++ w2). by rewrite app_assoc.
  - by apply IHr.
  - done.
  - intros [-> _]. by exists [].
  - intros [-> ->]. by exists [].
Qed.

(** On a line without a line terminator in it, the two fence tests
    agree. *)
Lemma fence_tests_agree l :
  Forall (fun c => isDot c = true) l ->
  regexTest fenceLineRegex l = isFenceLine l.
Proof.
  intros Hdot. unfold isFenceLine.
  destruct (regexTest codeBlockRegex l) eqn:E.
  - apply regexTest_true in E as (pre & s1 & s' & Hs & H); [|done].
    apply regexTest_true; [done|]. exists pre, s1, []. split; [done|].
    apply lang_suffix in H as Hw; [|done]. destruct Hw as (w & ->).
    change fenceLineRegex
      with (Seq (Seq codeBlockRegex (Grp 3 (Star (Chr isDot)))) Eol).
    simpl. exists []. split; [|done]. exists s'. split; [exact H|].
    apply (proj2 (Reps_class (length l) isDot 0 s' [])).
    exists s'. rewrite app_nil_r. split; [done|]. split; [|lia].
    subst l. by do 2 apply Forall_app in Hdot as [_ Hdot].
  - destruct (regexTest fenceLineRegex l) eqn:E'; [|done].
    apply regexTest_true in E' as (pre & s1 & s' & Hs & H); [|done].
    change fenceLineRegex
      with (Seq (Seq codeBlockRegex (Grp 3 (Star (Chr isDot)))) Eol) in H.
    simpl in H. destruct H as (m1 & (m2 & H & _) & _).
    assert (regexTest codeBlockRegex l = true); [|congruence].
    apply regexTest_true; [done|]. by exists pre, s1, m2.
Qed.

Lemma blockState_ext (f g : jsstring -> bool) b lines :
  Forall (fun x => f x = g x) lines -> blockState f b lines = blockState g b lines.
Proof.
  unfold blockState. intros H. revert b.
  induction H as [|x lines Hx _ IH]; intros b; [done|]. simpl. rewrite Hx. apply IH.
Qed.

(** Where the two fence tests agree, C1 holds: a line strictly inside a
    fenced code block is pushed as it is by [convertToMarkdown], and the
    structure of [parseDocumentText] has no tag, header or horizontal rule
    on it. *)
Lemma code_block_line_untouched text pre l post :
  splitLines text = pre ++ l :: post ->
  Forall (fun x => regexTest fenceLineRegex x = isFenceLine x) (pre ++ [l]) ->
  blockState isFenceLine false pre = true ->
  isFenceLine l = false ->
  Masking_pushedAt text (length pre) = Some [l]
  /\ (forall t, t ∈ xmlTags (Masking.parseDocumentText text) -> line t <> length pre)
  /\ (forall h, h ∈ headers (Masking.parseDocumentText text) -> hline h <> length pre)
  /\ (forall n, n ∈ horizontalRules (Masking.parseDocumentText text) -> n <> length pre).
Proof.
  intros Hs Hagree Hb Hf. apply Forall_app in Hagree as [Hpre Hl].
  apply Forall_inv in Hl. split.
  - unfold Masking_pushedAt, Masking.convertLines. rewrite Hs.
    rewrite (convertLines_lookup _ (regexTest fenceLineRegex))
      by apply Masking_convertLine_flag.
    rewrite (blockState_ext _ isFenceLine _ _ Hpre), Hb.
    unfold Masking.convertLine. by rewrite Hl, Hf.
  - rewrite (Masking_parse_around text pre l post Hs).
    unfold lineStructure. rewrite Hf, Hb. rewrite appendStructure_empty_l.
    unfold appendStructure, Masking.parseLines. simpl.
    split; [|split]; intros x; rewrite elem_of_app; intros [Hx | Hx].
    + apply parseLines_tag_origin in Hx as (k & l' & Hk & Hx).
      apply Masking_tagsOfLine_line in Hx. apply lookup_lt_Some in Hk. lia.
    + apply parseLines_tag_origin in Hx as (k & l' & Hk & Hx).
      apply Masking_tagsOfLine_line in Hx. lia.
    + apply parseLines_header_lines in Hx. lia.
    + apply parseLines_header_lines in Hx. lia.
    + apply parseLines_rule_lines in Hx. lia.
    + apply parseLines_rule_lines in Hx. lia.
Qed.

(** ** The resolver, line by line *)

(** The rule check as a whole: the state starts afresh when some recorded
    rule triggers against the stack as it was. *)
Lemma Masking_reset_fold t hrLines r :
  fold_left (Masking.resetAtRule t) hrLines r =
  if existsb (ruleTriggers (line t) (tagStack r)) hrLines then resetResolver r else r.
Proof.
  induction hrLines as [|h hrLines IH]; [done|]. simpl.
  unfold Masking.resetAtRule at 2. fold (ruleTriggers (line t) (tagStack r) h).
  destruct (ruleTriggers (line t) (tagStack r) h); simpl; [|done].
  by apply Masking_reset_stays.
Qed.

Lemma settledAt_fixed hrLines t r :
  settledAt hrLines (line t) r -> fold_left (Masking.resetAtRule t) hrLines r = r.
Proof.
  rewrite Masking_reset_fold. intros [-> | [Hs Hd]]; [done|].
  case_match; [|done]. by apply resetResolver_fixed.
Qed.

Lemma settledAt_after_check hrLines t r :
  settledAt hrLines (line t) (fold_left (Masking.resetAtRule t) hrLines r).
Proof.
  rewrite Masking_reset_fold. destruct (existsb _ hrLines) eqn:E.
  - by right.
  - by left.
Qed.

Lemma settledAt_same_stack hrLines i r r' :
  tagStack r' = tagStack r -> currentDepth r' = currentDepth r ->
  settledAt hrLines i r -> settledAt hrLines i r'.
Proof. unfold settledAt. intros -> ->. done. Qed.

Lemma settledAt_top hrLines i r nm :
  last (tagStack r) = Some (nm, i) -> settledAt hrLines i r.
Proof.
  intros Htop. left. apply not_true_is_false. intros H.
  apply existsb_exists in H as (h & _ & H). unfold ruleTriggers in H.
  rewrite Htop in H. simpl in H. apply andb_prop in H as [H1 H2].
  apply Nat.ltb_lt in H1, H2. lia.
Qed.

(** Tags of other lines leave the entries of line [i] alone. *)
Lemma resolveTag_other_line tag r i :
  line tag <> i ->
  tagDepthMap (resolveTag tag r) !! i = tagDepthMap r !! i
  /\ tagInfoMap (resolveTag tag r) !! i = tagInfoMap r !! i
  /\ (i ∈ tagEndLines (resolveTag tag r) <-> i ∈ tagEndLines r).
Proof.
  intros Hne. unfold resolveTag.
  repeat case_match; simpl; rewrite ?lookup_insert_ne by done;
    (split; [done|]; split; [done|]); try done;
    rewrite elem_of_union, elem_of_singleton; naive_solver.
Qed.

Lemma Masking_resolve_other_lines hrLines tags r i :
  Forall (fun t => line t <> i) tags ->
  tagDepthMap (fold_left (Masking.resolveStep hrLines) tags r) !! i = tagDepthMap r !! i
  /\ tagInfoMap (fold_left (Masking.resolveStep hrLines) tags r) !! i = tagInfoMap r !! i
  /\ (i ∈ tagEndLines (fold_left (Masking.resolveStep hrLines) tags r)
      <-> i ∈ tagEndLines r).
Proof.
  intros H. revert r. induction H as [|t tags Ht _ IH]; intros r; [done|].
  simpl. destruct (IH (Masking.resolveStep hrLines r t)) as (-> & -> & ->).
  unfold Masking.resolveStep.
  destruct (resolveTag_other_line t (fold_left (Masking.resetAtRule t) hrLines r) i Ht)
    as (-> & -> & ->).
  by destruct (Masking_reset_tables t hrLines r) as (-> & -> & ->).
Qed.

Lemma resolveStep_settled hrLines r t :
  settledAt hrLines (line t) r -> Masking.resolveStep hrLines r t = resolveTag t r.
Proof. intros H. unfold Masking.resolveStep. by rewrite settledAt_fixed. Qed.

(** The self-closing tags of a line, met in a settled state, move neither
    the depth counter nor the stack. *)
Lemma Masking_resolve_selfClosing hrLines i tags r :
  Forall (fun t => line t = i /\ isOpening t = false /\ isClosing t = false) tags ->
  settledAt hrLines i r ->
  tagStack (fold_left (Masking.resolveStep hrLines) tags r) = tagStack r
  /\ currentDepth (fold_left (Masking.resolveStep hrLines) tags r) = currentDepth r
  /\ tagEndLines (fold_left (Masking.resolveStep hrLines) tags r) = tagEndLines r
  /\ settledAt hrLines i (fold_left (Masking.resolveStep hrLines) tags r).
Proof.
  intros H. revert r. induction H as [|t tags (Hl & Ho & Hc) _ IH]; intros r Hset; [done|].
  simpl. subst i. rewrite (resolveStep_settled _ _ _ Hset).
  assert (Hsame : tagStack (resolveTag t r) = tagStack r
                  /\ currentDepth (resolveTag t r) = currentDepth r
                  /\ tagEndLines (resolveTag t r) = tagEndLines r).
  { unfold resolveTag. rewrite Ho, Hc. by case_match. }
  destruct Hsame as (Hs & Hd & He).
  destruct (IH (resolveTag t r)) as (-> & -> & -> & Hset').
  { by eapply settledAt_same_stack. }
  by rewrite Hs, Hd, He.
Qed.

(** The opening tags of a line, met in a settled state: the counter goes
    up by one for each, and the entries of the line are those of the last
    one. *)
Lemma Masking_resolve_opening hrLines i tags lst r :
  Forall (fun t => line t = i /\ isOpening t = true) tags ->
  last tags = Some lst ->
  settledAt hrLines i r ->
  currentDepth (fold_left (Masking.resolveStep hrLines) tags r)
    = (currentDepth r + Z.of_nat (length tags))%Z
  /\ tagDepthMap (fold_left (Masking.resolveStep hrLines) tags r) !! i
      = Some (currentDepth r + Z.of_nat (length tags) - 1)%Z
  /\ tagInfoMap (fold_left (Masking.resolveStep hrLines) tags r) !! i
      = Some (name lst, attributes lst)
  /\ tagEndLines (fold_left (Masking.resolveStep hrLines) tags r) = tagEndLines r.
Proof.
  intros H. revert r. induction H as [|t tags (Hl & Ho) Htags IH]; intros r Hlast Hset; [done|].
  simpl. subst i. rewrite (resolveStep_settled _ _ _ Hset).
  assert (Hstep : resolveTag t r =
            MkResolver (currentDepth r + 1) (tagStack r ++ [(name t, line t)])
              (<[line t := currentDepth r]> (tagDepthMap r))
              (<[line t := (name t, attributes t)]> (tagInfoMap r)) (tagEndLines r)).
  { unfold resolveTag. by rewrite Ho. }
  destruct tags as [|t' tags].
  - simpl in *. injection Hlast as <-. rewrite Hstep. simpl.
    rewrite !lookup_insert_eq. repeat split; try done. f_equal. lia.
  - destruct (IH (resolveTag t r)) as (Hd & Hm & Hi & He).
    + exact Hlast.
    + apply (settledAt_top _ _ _ (name t)). rewrite Hstep. simpl. by rewrite last_snoc.
    + rewrite Hd, Hm, Hi, He. rewrite Hstep. simpl length. simpl.
      repeat split; try done; try lia. f_equal. lia.
Qed.

(** ** C7: a closing tag without an opening tag *)

(** The stack of the folding provider holds, of each name, the opening
    tags that are still unmatched. *)
Lemma foldTag_unmatched nm st t :
  occurrences nm (foldTag st t).1 = unmatchedStep nm (occurrences nm st.1) t.
Proof.
  destruct st as [stack ranges]. unfold foldTag, unmatchedStep. simpl.
  destruct (isOpening t); simpl.
  { rewrite occurrences_app. unfold occurrences at 2. simpl.
    case_bool_decide; simpl; lia. }
  destruct (isClosing t); [|done].
  destruct (spliceLast (name t) stack) as [[[fn fl] stack']|] eqn:E; simpl.
  - apply spliceLast_Some in E as (_ & _ & Ho). rewrite (Ho nm).
    case_bool_decide; simpl; lia.
  - apply spliceLast_None in E. case_bool_decide; [subst; lia | done].
Qed.

Lemma foldTags_unmatched nm tags :
  occurrences nm (foldTags tags).1 = unmatchedOpenings nm tags.
Proof.
  unfold foldTags, unmatchedOpenings.
  assert (occurrences nm (@nil StackEntry, @nil FoldingRange).1 = 0) as H by done.
  revert H. generalize (@nil StackEntry, @nil FoldingRange), 0.
  induction tags as [|t tags IH]; intros st n H; [done|].
  simpl. apply IH. by rewrite foldTag_unmatched, H.
Qed.

Lemma setOf_sub x l seen : x ∈ setOf l seen -> x ∈ l.
Proof.
  revert seen. induction l as [|y l IH]; intros seen; simpl; [done|].
  case_bool_decide.
  - intros ?%IH. by right.
  - intros [->|?%IH]%elem_of_cons; [by left | by right].
Qed.

Lemma ruleTriggers_between i stack h :
  stack <> [] -> ruleTriggers i stack h = true <-> topLine stack < h /\ h < i.
Proof.
  intros Hne. unfold ruleTriggers, topLine.
  destruct (last stack) as [top|] eqn:E.
  - rewrite andb_true_iff, !Nat.ltb_lt. tauto.
  - apply last_None in E. done.
Qed.

(** C7 fails on the sources, in two ways.  In the first document the
    opening tag of line 0 is closed on its own line, so that no opening
    [<foo>] is open where the closing tag of line 1 stands; the extractor
    records the closing tags of a line before its opening tags, and the
    closing tag of line 1 is paired with that opening tag: a folding range
    is pushed for it and the depth counter goes from 1 to 0.  In the second
    document no [<foo>] is opened at all, and the processing of the closing
    tag takes the depth counter from 1 to 0, by the horizontal-rule check
    that goes before it. *)
Lemma unmatched_closing_tag_counted :
  (let text := join [10%N] [str "<foo>x</foo>"; str "</foo>"] in
   let c0 := MkTag (str "foo") 0 0 false true false [] 6 12 in
   let o0 := MkTag (str "foo") 0 0 true false false [] 0 5 in
   let c1 := MkTag (str "foo") 1 0 false true false [] 0 6 in
   xmlTags (Masking.parseDocumentText text) = [c0; o0; c1]
   /\ horizontalRules (Masking.parseDocumentText text) = []
   /\ startIndex o0 < startIndex c0
   /\ (foldTags [c0; o0; c1]).2 = [(0, 1)]
   /\ (0, 1) ∈ Masking.provideFoldingRanges (documentOf text)
   /\ currentDepth (Masking.resolveTags [] [c0; o0]) = 1%Z
   /\ currentDepth (Masking.resolveTags [] [c0; o0; c1]) = 0%Z)
  /\ (let text := join [10%N] [str "<a>"; str "---"; str "</foo>"] in
      let a := MkTag (str "a") 0 0 true false false [] 0 3 in
      let c := MkTag (str "foo") 2 0 false true false [] 0 6 in
      xmlTags (Masking.parseDocumentText text) = [a; c]
      /\ setOf (horizontalRules (Masking.parseDocumentText text)) [] = [1]
      /\ unmatchedOpenings (str "foo") [a] = 0
      /\ currentDepth (Masking.resolveTags [1] [a]) = 1%Z
      /\ currentDepth (Masking.resolveTags [1] [a; c]) = 0%Z
      /\ foldTags [a; c] = foldTags [a]).
Proof.
  split.
  - intros text c0 o0 c1.
    split; [by vm_compute|]. split; [by vm_compute|]. split; [simpl; lia|].
    split; [by vm_compute|]. split; [|by vm_compute].
    assert (Masking.provideFoldingRanges (documentOf text) = [(0, 1)]) as ->
      by by vm_compute.
    by left.
  - intros text a c. repeat split; by vm_compute.
Qed.

(** C7, amended: let a closing tag occur (outside inline code) on a line
    that the extractor reads for tags.  The extractor records the
    occurrence; the resolver notes its line as the end of a section, and
    its depth counter is not negative afterwards.  When no opening tag of
    the name is left unmatched among the tags recorded before it, counted
    in the order of recording, the folding provider pushes no range for it
    and leaves its stack as it was; and the resolver leaves its depth
    counter and its stack as they were before the tag, unless a horizontal
    rule recorded for the document lies strictly between the line of the
    top of the stack (0 for an empty stack) and the line of the tag, in
    which case the counter is 0 and the stack empty afterwards. *)
Theorem unmatched_closing_tag text pre l post mr :
  splitLines text = pre ++ l :: post ->
  blockState isFenceLine false pre = false ->
  isFenceLine l = false ->
  regexTest horizontalRuleRegex l = false ->
  mr ∈ allMatches xmlClosingTagRegex (Masking.maskCodeContent l).1 ->
  let s := Masking.parseDocumentText text in
  let hrLines := setOf (horizontalRules s) [] in
  exists t T1 T2,
    xmlTags s = T1 ++ t :: T2
    /\ isClosing t = true /\ name t = groupOrEmpty 1 mr /\ line t = length pre
    /\ let before := Masking.resolveTags hrLines T1 in
       let after := Masking.resolveTags hrLines (T1 ++ [t]) in
       (0 <= currentDepth after)%Z
       /\ line t ∈ tagEndLines after
       /\ (unmatchedOpenings (name t) T1 = 0 ->
           foldTags (T1 ++ [t]) = foldTags T1
           /\ ((forall h, h ∈ horizontalRules s ->
                   topLine (tagStack before) < h -> h < line t -> False) ->
               currentDepth after = currentDepth before
               /\ tagStack after = tagStack before)
           /\ (forall h, h ∈ horizontalRules s ->
                 topLine (tagStack before) < h -> h < line t ->
                 currentDepth after = 0%Z /\ tagStack after = [])).
Proof.
  intros Hs Hb Hf Hr Hmr s hrLines.
  pose proof (Masking_parse_around text pre l post Hs) as Hp.
  unfold lineStructure in Hp. rewrite Hb, Hf, Hr in Hp.
  apply list_elem_of_split in Hmr as (m1 & m2 & Hm).
  set (indent := length l - length (trimStart l)).
  set (masked := (Masking.maskCodeContent l).1) in *.
  set (mk := fun mr : MatchResult =>
    MkTag (groupOrEmpty 1 mr) (length pre) indent
      false true false [] (mindex mr) (mindex mr + length (mtext mr))).
  set (T1 := xmlTags (Masking.parseLines pre 0 false emptyStructure)
              ++ Masking.selfClosingTags (length pre) indent masked ++ List.map mk m1).
  exists (mk mr), T1,
    (List.map mk m2 ++ Masking.openingTags (length pre) indent masked
       ++ xmlTags (Masking.parseLines post (S (length pre)) false emptyStructure)).
  split.
  { subst s T1. rewrite Hp. unfold appendStructure. cbn [xmlTags].
    unfold Masking.tagsOfLine, Masking.closingTags. fold indent masked. rewrite Hm.
    rewrite List.map_app. change (List.map ?f (mr :: m2)) with (f mr :: List.map f m2).
    fold mk. by rewrite <- !app_assoc, <- app_comm_cons. }
  split; [done|]. split; [done|]. split; [done|].
  intros before after.
  assert (Hheight : depthIsHeight before) by apply Masking_resolveTags_depth.
  assert (Hafter : depthIsHeight after) by apply Masking_resolveTags_depth.
  split; [unfold depthIsHeight in Hafter; lia|].
  assert (Hstep : after = resolveTag (mk mr)
                    (fold_left (Masking.resetAtRule (mk mr)) hrLines before)).
  { unfold after. by rewrite Masking_resolveTags_snoc. }
  split; [rewrite Hstep; by apply resolveTag_closing|].
  intros Hnone. rewrite <- foldTags_unmatched in Hnone.
  split.
  { rewrite foldTags_snoc. unfold foldTag.
    destruct (foldTags T1) as [stack ranges] eqn:E. simpl in Hnone.
    apply spliceLast_None in Hnone. simpl. by rewrite Hnone. }
  set (checked := fold_left (Masking.resetAtRule (mk mr)) hrLines before) in *.
  assert (Hstack : spliceLast (name (mk mr)) (tagStack checked) = None).
  { apply spliceLast_None.
    pose proof (Masking_reset_within (mk mr) hrLines _ _
                  (Masking_resolveTags_within hrLines T1) (name (mk mr))) as Hw.
    fold before checked in Hw. lia. }
  assert (Hsame : currentDepth after = currentDepth checked
                  /\ tagStack after = tagStack checked).
  { rewrite Hstep. unfold resolveTag. simpl isOpening. simpl isClosing. cbv iota.
    by rewrite Hstack. }
  destruct Hsame as [Hd Hst]. rewrite Hd, Hst. clear Hd Hst Hstep Hstack Hafter.
  unfold checked. rewrite Masking_reset_fold.
  destruct (existsb _ hrLines) eqn:E.
  - apply existsb_exists in E as (h & Hh%list_elem_of_In%setOf_sub & Htrig).
    split; [|done]. intros Hno.
    destruct (tagStack before) as [|e stack] eqn:Es.
    + unfold depthIsHeight in Hheight. rewrite Es in Hheight. simpl in *. by rewrite Hheight.
    + exfalso. rewrite <- Es in Htrig. apply ruleTriggers_between in Htrig as [H1 H2];
        [|by rewrite Es]. rewrite Es in H1. by apply (Hno h).
  - split; [done|]. intros h Hh H1 H2. exfalso.
    assert (existsb (ruleTriggers (line (mk mr)) (tagStack before)) hrLines = true) as Ht;
      [|congruence].
    apply existsb_exists. exists h. split.
    + apply list_elem_of_In. destruct (setOf_elem h _ [] Hh) as [?%elem_of_nil|?]; done.
    + destruct (tagStack before) as [|e stack] eqn:Es.
      * unfold ruleTriggers. simpl. rewrite andb_true_r. by apply Nat.ltb_lt.
      * rewrite <- Es. apply ruleTriggers_between; [by rewrite Es|]. by rewrite Es.
Qed.

Lemma unmatched_closing_tag_witness :
  let text := join [10%N] [str "<a>"; str "</foo>"] in
  let s := Masking.parseDocumentText text in
  let a := MkTag (str "a") 0 0 true false false [] 0 3 in
  exists t,
    xmlTags s = [a; t] /\ isClosing t = true /\ name t = str "foo" /\ line t = 1
    /\ unmatchedOpenings (name t) [a] = 0
    /\ foldTags [a; t] = foldTags [a]
    /\ currentDepth (Masking.resolveTags [] [a; t]) = 1%Z.
Proof.
  intros text s a.
  destruct (allMatches xmlClosingTagRegex (Masking.maskCodeContent (str "</foo>")).1)
    as [|mr ms] eqn:E; [by vm_compute in E|].
  assert (Hg : groupOrEmpty 1 mr = str "foo").
  { vm_compute in E. by injection E as <- _. }
  assert (Hmr : mr ∈ allMatches xmlClosingTagRegex
                  (Masking.maskCodeContent (str "</foo>")).1)
    by (rewrite E; constructor).
  assert (H1 : splitLines text = [str "<a>"] ++ str "</foo>" :: []) by by vm_compute.
  assert (H2 : blockState isFenceLine false [str "<a>"] = false) by by vm_compute.
  assert (H3 : isFenceLine (str "</foo>") = false) by by vm_compute.
  assert (H4 : regexTest horizontalRuleRegex (str "</foo>") = false) by by vm_compute.
  destruct (unmatched_closing_tag text [str "<a>"] (str "</foo>") [] mr H1 H2 H3 H4 Hmr)
    as (t & T1 & T2 & Ht & Hc & Hn & Hl & _ & _ & H).
  assert (Htwo : exists c, xmlTags s = [a; c] /\ line c = 1) by (vm_compute; eauto).
  destruct Htwo as (c & Hac & Hlc). fold s in Ht. rewrite Hac in Ht.
  assert (Hrules : horizontalRules s = []) by by vm_compute.
  fold s in H. rewrite Hrules in H. change (setOf [] []) with (@nil nat) in H.
  destruct T1 as [|a0 [|c0 T1]].
  - injection Ht as <- _. by vm_compute in Hl.
  - injection Ht as <- <- _. exists c. rewrite Hg in Hn.
    assert (Hu : unmatchedOpenings (name c) [a] = 0) by (rewrite Hn; by vm_compute).
    destruct (H Hu) as (Hfold & Hsame & _).
    repeat split; try done.
    destruct Hsame as [Hd _]; [by intros h ?%elem_of_nil|].
    change ([a] ++ [c]) with [a; c] in Hd. rewrite Hd. by vm_compute.
  - injection Ht as _ _ Ht. by destruct T1.
Defined.

(** ** C10: several opening tags on one line *)

Lemma Masking_check_same_line hrLines t t' r :
  line t = line t' ->
  fold_left (Masking.resetAtRule t) hrLines r
  = fold_left (Masking.resetAtRule t') hrLines r.
Proof. intros H. by rewrite !Masking_reset_fold, H. Qed.

(** The first tag of a line is processed from the state that the rule
    check for that line leaves. *)
Lemma Masking_resolve_line_start hrLines t tags r :
  tags <> [] -> Forall (fun t' => line t' = line t) tags ->
  fold_left (Masking.resolveStep hrLines) tags r =
  fold_left (Masking.resolveStep hrLines) tags
    (fold_left (Masking.resetAtRule t) hrLines r).
Proof.
  destruct tags as [|t1 tags]; [done|]. intros _ H. apply Forall_inv in H.
  simpl. f_equal. unfold Masking.resolveStep. f_equal.
  rewrite (Masking_check_same_line hrLines t1 t) by done.
  symmetry. apply settledAt_fixed. rewrite H. apply settledAt_after_check.
Qed.

Lemma Masking_selfClosingTags_kind i indent masked :
  Forall (fun t => line t = i /\ isOpening t = false /\ isClosing t = false)
    (Masking.selfClosingTags i indent masked).
Proof.
  unfold Masking.selfClosingTags. apply Forall_forall. intros t.
  rewrite list_elem_of_In, in_map_iff. by intros (mr & <- & _).
Qed.

Lemma Masking_openingTags_kind i indent masked :
  Forall (fun t => line t = i /\ isOpening t = true)
    (Masking.openingTags i indent masked).
Proof.
  unfold Masking.openingTags. apply Forall_forall. intros t.
  rewrite list_elem_of_In, in_map_iff. by intros (mr & <- & _).
Qed.

Lemma Masking_parseLines_before lines i b j :
  i + length lines <= j ->
  Forall (fun t => line t <> j) (xmlTags (Masking.parseLines lines i b emptyStructure)).
Proof.
  intros Hj. apply Forall_forall. intros t (k & l & Hk & Ht)%parseLines_tag_origin.
  apply Masking_tagsOfLine_line in Ht. apply lookup_lt_Some in Hk. lia.
Qed.

Lemma Masking_parseLines_after lines i b j :
  j < i ->
  Forall (fun t => line t <> j) (xmlTags (Masking.parseLines lines i b emptyStructure)).
Proof.
  intros Hj. apply Forall_forall. intros t (k & l & Hk & Ht)%parseLines_tag_origin.
  apply Masking_tagsOfLine_line in Ht. lia.
Qed.

(** C10 fails when the line also holds a closing tag: the line is then a
    section end, and an empty line is all that is pushed for it. *)
Lemma opening_tags_with_closing_tag :
  let text := str "<a><b>x</b>" in
  length (List.filter isOpening (xmlTags (Masking.parseDocumentText text))) = 2
  /\ Masking_pushedAt text 0 = Some [[]]
  /\ Masking.convertToMarkdown text = [].
Proof. by vm_compute. Qed.

(** C10, amended: take a line, outside the code blocks of the extractor
    and of the transformer, that holds two or more opening tags and no
    closing tag.  The extractor records all its tags, self-closing ones
    first.  The depth counter, from the value that the rule check of the
    line leaves, goes up by one for each opening tag.  The transformer
    pushes for the line one header, whose depth is that of the last
    opening tag and whose name and attributes are those of that tag, then
    an empty line, then at most one line of trailing text. *)
Theorem several_opening_tags text pre l post lst :
  splitLines text = pre ++ l :: post ->
  blockState isFenceLine false pre = false ->
  isFenceLine l = false ->
  regexTest horizontalRuleRegex l = false ->
  blockState (regexTest fenceLineRegex) false pre = false ->
  regexTest fenceLineRegex l = false ->
  let i := length pre in
  let indent := length l - length (trimStart l) in
  let masked := (Masking.maskCodeContent l).1 in
  let selfClosing := Masking.selfClosingTags i indent masked in
  let opening := Masking.openingTags i indent masked in
  2 <= length opening ->
  last opening = Some lst ->
  Masking.closingTags i indent masked = [] ->
  let s := Masking.parseDocumentText text in
  let hrLines := setOf (horizontalRules s) [] in
  let T1 := xmlTags (Masking.parseLines pre 0 false emptyStructure) in
  let T2 := xmlTags (Masking.parseLines post (S i) false emptyStructure) in
  xmlTags s = T1 ++ (selfClosing ++ opening) ++ T2
  /\ let before :=
       fold_left (Masking.resetAtRule lst) hrLines (Masking.resolveTags hrLines T1) in
     let depth := (currentDepth before + Z.of_nat (length opening) - 1)%Z in
     currentDepth (Masking.resolveTags hrLines (T1 ++ selfClosing ++ opening))
       = (currentDepth before + Z.of_nat (length opening))%Z
     /\ Masking_pushedAt text i
        = Some (Masking.headerLines depth (name lst, attributes lst) l)
     /\ exists trailing,
          length trailing <= 1
          /\ Masking.headerLines depth (name lst, attributes lst) l
             = (headerPrefix (headerLevelOf depth) ++ str " "
                ++ escapeUnderscore (name lst)
                ++ attrStringOf escapeUnderscore (attributes lst))
               :: [] :: trailing.
Proof.
  intros Hs Hb Hf Hr HbT HfT i indent masked selfClosing opening Hn Hlast Hcl
    s hrLines T1 T2. subst i.
  pose proof (Masking_parse_around text pre l post Hs) as Hp.
  unfold lineStructure in Hp. rewrite Hb, Hf, Hr in Hp.
  assert (Htags : xmlTags s = T1 ++ (selfClosing ++ opening) ++ T2).
  { subst s. rewrite Hp. unfold appendStructure. cbn [xmlTags].
    unfold Masking.tagsOfLine. fold indent masked. by rewrite Hcl. }
  split; [done|]. intros before depth.
  pose proof (Masking_selfClosingTags_kind (length pre) indent masked) as Hsc.
  pose proof (Masking_openingTags_kind (length pre) indent masked) as Hop.
  fold selfClosing in Hsc. fold opening in Hop.
  assert (Hli : line lst = length pre).
  { apply last_Some_elem_of in Hlast.
    by destruct (proj1 (Forall_forall _ _) Hop lst Hlast). }
  set (r0 := Masking.resolveTags hrLines T1).
  assert (Hline : fold_left (Masking.resolveStep hrLines) (selfClosing ++ opening) r0
                  = fold_left (Masking.resolveStep hrLines) (selfClosing ++ opening) before).
  { apply Masking_resolve_line_start.
    - intros [_ H]%app_eq_nil. rewrite H in Hn. simpl in Hn. lia.
    - rewrite Hli. apply Forall_app. split.
      + eapply Forall_impl; [exact Hsc|]. by intros t (? & _).
      + eapply Forall_impl; [exact Hop|]. by intros t (? & _). }
  assert (Hset : settledAt hrLines (length pre) before).
  { rewrite <- Hli. apply settledAt_after_check. }
  destruct (Masking_resolve_selfClosing hrLines _ selfClosing before Hsc Hset)
    as (Hs2 & Hd2 & He2 & Hset2).
  set (r2 := fold_left (Masking.resolveStep hrLines) selfClosing before) in *.
  destruct (Masking_resolve_opening hrLines _ opening lst r2 Hop Hlast Hset2)
    as (Hd3 & Hm3 & Hi3 & He3).
  set (r3 := fold_left (Masking.resolveStep hrLines) opening r2) in *.
  assert (Hr3 : Masking.resolveTags hrLines (T1 ++ selfClosing ++ opening) = r3).
  { unfold Masking.resolveTags. rewrite fold_left_app. fold (Masking.resolveTags hrLines T1).
    fold r0. rewrite Hline. by rewrite fold_left_app. }
  split; [rewrite Hr3, Hd3, Hd2; done|].
  assert (Hfinal : Masking_resolved text
                   = fold_left (Masking.resolveStep hrLines) T2 r3).
  { unfold Masking_resolved. fold s hrLines. rewrite Htags.
    rewrite app_assoc. unfold Masking.resolveTags at 1. rewrite fold_left_app.
    fold (Masking.resolveTags hrLines (T1 ++ selfClosing ++ opening)). by rewrite Hr3. }
  assert (H1 : Forall (fun t => line t <> length pre) T1).
  { apply Masking_parseLines_before. simpl. lia. }
  assert (H2 : Forall (fun t => line t <> length pre) T2).
  { apply Masking_parseLines_after. lia. }
  destruct (Masking_resolve_other_lines hrLines T2 r3 _ H2) as (Hm4 & Hi4 & He4).
  destruct (Masking_resolve_other_lines hrLines T1 initResolver _ H1) as (_ & _ & He0).
  fold (Masking.resolveTags hrLines T1) in He0. fold r0 in He0.
  assert (Hends : length pre ∉ tagEndLines (Masking_resolved text)).
  { rewrite Hfinal, He4, He3, He2.
    destruct (Masking_reset_tables lst hrLines r0) as (_ & _ & Heb).
    change (tagEndLines before = tagEndLines r0) in Heb.
    rewrite Heb, He0. simpl. set_solver. }
  split.
  - unfold Masking_pushedAt, Masking.convertLines. rewrite Hs.
    rewrite (convertLines_lookup _ (regexTest fenceLineRegex))
      by apply Masking_convertLine_flag.
    rewrite HbT. unfold Masking.convertLine. rewrite HfT. simpl "+".
    rewrite bool_decide_eq_false_2 by done.
    rewrite Hfinal, Hm4, Hi4, Hm3, Hi3, Hd2. done.
  - unfold Masking.headerLines. cbn [fst snd].
    destruct (regexMatch _ l) as [mr|]; [destruct (trim _)|];
      eexists; (split; [|reflexivity]); simpl; lia.
Qed.

Lemma several_opening_tags_witness :
  let text := join [10%N] [str "<a>"; str "<b><c_d x=1> tail"] in
  Masking_pushedAt text 1
  = Some [str "#### c\_d (x=" ++ [quote] ++ str "1" ++ [quote] ++ str ")"; []; str "tail"].
Proof.
  intros text.
  destruct (several_opening_tags text [str "<a>"] (str "<b><c_d x=1> tail") []
              (MkTag (str "c_d") 1 0 true false false [(str "x", str "1")] 3 12))
    as (_ & _ & Hpush & _);
    [by vm_compute | by vm_compute | by vm_compute | by vm_compute | by vm_compute
    | by vm_compute | vm_compute; lia | by vm_compute | by vm_compute |].
  refine (eq_trans Hpush _). by vm_compute.
Defined.

(** ** C3: header levels *)







(** * Further properties of the sources *)

(** ** Whitespace at the ends of a line *)

Lemma trimStart_spaces ws s :
  Forall (fun c => isSpace c = true) ws -> trimStart (ws ++ s) = trimStart s.
Proof. induction 1 as [|c ws Hc _ IH]; [done|]. simpl. by rewrite Hc. Qed.

(** A string that does not begin with whitespace. *)
Lemma trimStart_fixed s : trimStart s = s <-> head s = None \/ exists c, head s = Some c /\ isSpace c = false.
Proof.
  destruct s as [|c s]; simpl; [by split; [left|]|].
  destruct (isSpace c) eqn:E.
  - split; [|intros [? | (d & ? & ?)]; congruence]. intros H.
    assert (length (trimStart s) <= length s) as Hlen.
    { clear. induction s as [|d s IH]; simpl; [done|]. destruct (isSpace d); simpl; lia. }
    rewrite H in Hlen. simpl in Hlen. lia.
  - split; [|done]. intros _. right. by exists c.
Qed.

Lemma trimStart_head s :
  head (trimStart s) = None \/ exists c, head (trimStart s) = Some c /\ isSpace c = false.
Proof.
  induction s as [|c s IH]; simpl; [by left|].
  destruct (isSpace c) eqn:E; [done|]. right. by exists c.
Qed.

Lemma trimStart_idem s : trimStart (trimStart s) = trimStart s.
Proof. apply trimStart_fixed, trimStart_head. Qed.

Lemma trimEnd_cons c s : isSpace c = false -> trimEnd (c :: s) = c :: trimEnd s.
Proof.
  intros Hc. unfold trimEnd. simpl.
  assert (forall u, trimStart (u ++ [c]) = trimStart u ++ [c]) as H.
  { induction u as [|d u IH]; simpl; [by rewrite Hc|]. by destruct (isSpace d). }
  by rewrite H, rev_app_distr.
Qed.

Lemma trimEnd_idem s : trimEnd (trimEnd s) = trimEnd s.
Proof. unfold trimEnd. by rewrite rev_involutive, trimStart_idem. Qed.

Lemma trim_fixed_start s : trimStart (trim s) = trim s.
Proof.
  unfold trim. apply trimStart_fixed.
  destruct (trimStart_head s) as [H | (c & H & Hc)];
    destruct (trimStart s) as [|d u]; simplify_eq/=; [by left..|].
  right. exists c. by rewrite trimEnd_cons.
Qed.

Lemma trim_idem s : trim (trim s) = trim s.
Proof.
  unfold trim at 1. rewrite trim_fixed_start. unfold trim. apply trimEnd_idem.
Qed.

Lemma trim_spaces ws s :
  Forall (fun c => isSpace c = true) ws -> trim (ws ++ s) = trim s.
Proof. intros H. unfold trim. by rewrite trimStart_spaces. Qed.

Lemma repeatStr_spaces n :
  Forall (fun c => isSpace c = true) (repeatStr (str "  ") n).
Proof. induction n as [|n IH]; simpl; [done|]. by repeat constructor. Qed.

Lemma trim_indented n l : trim (repeatStr (str "  ") n ++ trim l) = trim l.
Proof. rewrite trim_spaces by apply repeatStr_spaces. apply trim_idem. Qed.

Lemma trim_empty_spaces s :
  trim s = [] <-> Forall (fun c => isSpace c = true) s.
Proof.
  assert (forall u, trimStart u = [] <-> Forall (fun c => isSpace c = true) u) as H.
  { induction u as [|c u IH]; simpl; [done|]. destruct (isSpace c) eqn:E.
    - rewrite IH. split; [by constructor | by inversion 1].
    - split; [done|]. inversion 1; congruence. }
  unfold trim, trimEnd. split.
  - intros Ht. apply H. apply (f_equal (@rev _)) in Ht.
    rewrite rev_involutive in Ht. simpl in Ht.
    assert (trimStart (trimStart s) = []) as Hs.
    { destruct (trimStart s) as [|c u] eqn:Eu; [done|].
      destruct (trimStart_head s) as [Hh | (d & Hh & Hd)]; rewrite Eu in Hh; simplify_eq/=.
      change (rev u ++ [d]) with (rev (d :: u)) in Ht.
      exfalso. rewrite <- (rev_involutive (d :: u)) in Eu.
      simpl in Eu.
      assert (forall v, trimStart (v ++ [d]) <> []) as Hne.
      { induction v as [|e v IHv]; simpl; [by rewrite Hd|]. by destruct (isSpace e). }
      by apply (Hne (rev u)). }
    by rewrite trimStart_idem in Hs.
  - intros Hs. apply H in Hs. by rewrite Hs.
Qed.

(** ** The beautifier: what it leaves alone *)

(** Inside a fenced code block the beautifier pushes a line as it is. *)
Lemma beautifyLines_app pre rest d b :
  exists out d',
    length out = length pre
    /\ beautifyLines (pre ++ rest) d b =
       out ++ beautifyLines rest d' (blockState isFenceLine b pre).
Proof.
  revert d b. induction pre as [|l pre IH]; intros d b; [by exists [], d|].
  cbn [app beautifyLines blockState fold_left]. unfold isFenceLine.
  repeat case_match;
    match goal with
    | |- context [?o :: beautifyLines (pre ++ rest) ?d1 ?b1] =>
        destruct (IH d1 b1) as (out & d' & Hlen & ->); exists (o :: out), d';
        split; [simpl; by rewrite Hlen | done]
    end.
Qed.

(** X2: a line strictly inside a fenced code block comes out of the
    beautifier exactly as it went in, leading and trailing whitespace
    included. *)
Theorem beautify_code_block_exact text pre l post :
  splitLines text = pre ++ l :: post ->
  blockState isFenceLine false pre = true ->
  isFenceLine l = false ->
  exists result,
    beautifyDocument text = join [10%N] result
    /\ length result = length (splitLines text)
    /\ result !! length pre = Some l.
Proof.
  intros Hs Hb Hl. exists (beautifyLines (splitLines text) 0 false).
  split; [done|]. split.
  - generalize (splitLines text) 0%Z false. clear.
    induction l as [|x l IH]; intros d b; simpl; [done|].
    repeat case_match; simpl; by rewrite IH.
  - rewrite Hs. destruct (beautifyLines_app pre (l :: post) 0 false) as (out & d' & Hlen & ->).
    rewrite Hb. rewrite lookup_app_r by lia. rewrite Hlen, Nat.sub_diag.
    simpl. unfold isFenceLine in Hl. by rewrite Hl.
Qed.

Lemma beautify_code_block_exact_witness :
  exists result,
    beautifyDocument (join [10%N] [str "<a>"; str "```"; str "   x  "; str "```"])
      = join [10%N] result
    /\ length result = 4
    /\ result !! 2 = Some (str "   x  ").
Proof.
  apply (beautify_code_block_exact
           (join [10%N] [str "<a>"; str "```"; str "   x  "; str "```"])
           [str "<a>"; str "```"] (str "   x  ") [str "```"]); by vm_compute.
Defined.

(** ** Lines and line breaks *)

Lemma splitFrom_nonempty cur s : splitFrom cur s <> [].
Proof.
  revert cur. induction s as [|c s IH]; intros cur; simpl; [done|].
  repeat case_match; try done; apply IH.
Qed.

(** Joining the lines of a text that has no carriage return gives the
    text back. *)
Lemma join_splitFrom cur s :
  13%N ∉ s -> join [10%N] (splitFrom cur s) = rev cur ++ s.
Proof.
  revert cur. induction s as [|c s IH]; intros cur Hcr; simpl.
  - by rewrite app_nil_r.
  - apply not_elem_of_cons in Hcr as [Hc Hs].
    destruct (N.eqb_spec c 10) as [->|Hlf].
    + specialize (IH [] Hs). simpl in IH.
      destruct (splitFrom [] s) as [|x xs] eqn:E; [by apply splitFrom_nonempty in E|].
      change (join [10%N] (rev cur :: x :: xs))
        with (rev cur ++ [10%N] ++ join [10%N] (x :: xs)).
      by rewrite IH.
    + destruct (N.eqb_spec c 13) as [->|_]; [done|].
      rewrite IH by done. simpl. by rewrite <- app_assoc.
Qed.

Lemma join_splitLines text : 13%N ∉ text -> join [10%N] (splitLines text) = text.
Proof. intros H. unfold splitLines. by rewrite join_splitFrom. Qed.

(** Splitting a text made of lines without line breaks in them gives the
    lines back. *)
Lemma splitFrom_line cur l s :
  10%N ∉ l -> 13%N ∉ l -> splitFrom cur (l ++ s) = splitFrom (rev l ++ cur) s.
Proof.
  revert cur. induction l as [|c l IH]; intros cur Hlf Hcr; [done|].
  apply not_elem_of_cons in Hlf as [Hc1 Hlf]. apply not_elem_of_cons in Hcr as [Hc2 Hcr].
  simpl. destruct (N.eqb_spec c 10) as [->|_]; [done|].
  destruct (N.eqb_spec c 13) as [->|_]; [done|].
  rewrite IH by done. by rewrite <- app_assoc.
Qed.

Lemma splitLines_join ls :
  ls <> [] -> Forall (fun l => 10%N ∉ l /\ 13%N ∉ l) ls ->
  splitLines (join [10%N] ls) = ls.
Proof.
  unfold splitLines. intros Hne H. induction H as [|l ls [Hlf Hcr] Hls IH]; [done|].
  destruct ls as [|l' ls'].
  - simpl. pose proof (splitFrom_line [] l [] Hlf Hcr) as E.
    rewrite !app_nil_r in E. rewrite E. simpl. by rewrite rev_involutive.
  - change (join [10%N] (l :: l' :: ls')) with (l ++ 10%N :: join [10%N] (l' :: ls')).
    rewrite splitFrom_line by done. simpl.
    rewrite app_nil_r, rev_involutive. f_equal. by apply IH.
Qed.

(** What holds of every character of a text holds of every character of
    its lines, and no line has a line feed in it. *)
Lemma Forall_rev' {A} (P : A -> Prop) (l : list A) : Forall P l -> Forall P (rev l).
Proof. rewrite !Forall_forall. intros H x Hx%list_elem_of_In%in_rev. by apply H, list_elem_of_In. Qed.

Lemma splitFrom_Forall (P : char -> Prop) cur s :
  Forall P cur -> Forall P s -> Forall (Forall P) (splitFrom cur s).
Proof.
  revert cur. induction s as [|d s IH]; intros cur Hcur Hs; simpl.
  - constructor; [by apply Forall_rev'|constructor].
  - inversion Hs as [|? ? Hd Hs']; subst.
    assert (Forall (Forall P) (rev cur :: splitFrom [] s)) as Hcut.
    { constructor; [by apply Forall_rev'|]. by apply IH. }
    assert (Forall (Forall P) (splitFrom (d :: cur) s)) as Hgo.
    { apply IH; [by constructor|done]. }
    destruct (d =? 10)%N; [done|]. destruct (d =? 13)%N; [|done].
    destruct s as [|e s']; [done|]. destruct (e =? 10)%N eqn:E; [|done].
    constructor; [by apply Forall_rev'|].
    inversion Hcut as [|? ? _ Ht]; subst. simpl in Ht. rewrite E in Ht.
    by inversion Ht.
Qed.

Lemma splitFrom_no_lf cur s :
  Forall (fun c => c <> 10%N) cur ->
  Forall (Forall (fun c => c <> 10%N)) (splitFrom cur s).
Proof.
  revert cur. induction s as [s IH] using (induction_ltof1 _ (@length _));
    unfold ltof in *; intros cur Hcur.
  destruct s as [|d s]; simpl.
  - constructor; [by apply Forall_rev'|constructor].
  - destruct (N.eqb_spec d 10) as [->|Hd].
    + constructor; [by apply Forall_rev'|]. apply IH; [simpl; lia|done].
    + destruct (d =? 13)%N.
      * destruct s as [|e s']; [apply IH; [simpl; lia | by constructor]|].
        destruct (e =? 10)%N.
        -- constructor; [by apply Forall_rev'|]. apply IH; [simpl; lia|done].
        -- apply IH; [simpl; lia | by constructor].
      * apply IH; [simpl; lia | by constructor].
Qed.

Lemma not_elem_Forall (x : char) l : x ∉ l <-> Forall (fun c => c <> x) l.
Proof.
  rewrite Forall_forall. split.
  - intros H c Hc ->. by apply H.
  - intros H Hx. by apply (H x).
Qed.

(** ** The fence test *)

Lemma trimStart_split s :
  exists ws, s = ws ++ trimStart s /\ Forall (fun c => isSpace c = true) ws.
Proof.
  induction s as [|c s (ws & Hs & Hws)]; simpl; [by exists []|].
  destruct (isSpace c) eqn:E; [|by exists []].
  exists (c :: ws). split; [simpl; by rewrite <- Hs | by constructor].
Qed.

Lemma trimEnd_split s :
  exists ws, s = trimEnd s ++ ws /\ Forall (fun c => isSpace c = true) ws.
Proof.
  unfold trimEnd. destruct (trimStart_split (rev s)) as (ws & Hs & Hws).
  exists (rev ws). split; [|by apply Forall_rev'].
  rewrite <- rev_app_distr, <- Hs. by rewrite rev_involutive.
Qed.

Lemma startsFence_trimEnd s : startsFence (trimEnd s) = startsFence s.
Proof.
  assert (forall a, (isCh "`" a = true \/ isCh "~" a = true) -> isSpace a = false) as Hns.
  { intros a [H | H]; apply N.eqb_eq in H; by subst. }
  destruct (startsFence s) eqn:E.
  - destruct s as [|a [|b [|c v]]]; try done. simpl in E.
    assert (isSpace a = false /\ isSpace b = false /\ isSpace c = false) as (Ha & Hb & Hc).
    { apply orb_prop in E as [E | E];
        apply andb_prop in E as [E Ec]; apply andb_prop in E as [Ea Eb];
        repeat split; apply Hns; auto. }
    by rewrite !trimEnd_cons.
  - destruct (trimEnd_split s) as (ws & Hs & Hws).
    destruct (startsFence (trimEnd s)) eqn:E'; [|done].
    destruct (trimEnd s) as [|a [|b [|c v]]]; try done.
    rewrite Hs in E. simpl in *. congruence.
Qed.

(** A line is a fence for the extractors, the beautifiers and the folding
    providers exactly when, after its leading whitespace, it begins with
    three backticks or with three tildes. *)
Lemma isFenceLine_startsFence l : isFenceLine l = startsFence (trimStart l).
Proof.
  unfold isFenceLine. destruct (startsFence (trimStart l)) eqn:E.
  - apply regexTest_true; [done|]. destruct (trimStart_split l) as (ws & Hl & Hws).
    destruct (trimStart l) as [|a [|b [|c v]]]; try done.
    exists [], l, v. split; [done|].
    unfold codeBlockRegex, fenceRun, Star, AtLeast. simpl.
    exists (a :: b :: c :: v). split.
    + exists l. split; [done|]. apply (proj2 (Reps_class (length l) isSpace _ _ _)).
      exists ws. repeat split; [done | done | lia].
    + simpl in E. apply orb_prop in E as [E | E];
        apply andb_prop in E as [E Ec]; apply andb_prop in E as [Ea Eb];
        [left; apply (proj2 (Reps_class (length l) (isCh "`") _ _ _))
        |right; apply (proj2 (Reps_class (length l) (isCh "~") _ _ _))];
        exists [a; b; c]; repeat split; try done; by repeat constructor.
  - destruct (regexTest codeBlockRegex l) eqn:E'; [|done].
    apply regexTest_true in E' as (pre & s1 & s' & Hs & H); [|done].
    unfold codeBlockRegex, fenceRun, Star, AtLeast in H. simpl in H.
    destruct H as (m & (m0 & [-> Hlen] & Hsp) & Hf).
    apply (lang_at_start l pre s1 Hlen) in Hs as Hpre. subst pre. simpl in Hs. subst s1.
    apply (proj1 (Reps_class (length l) isSpace _ _ _)) in Hsp as (ws & -> & Hws & _).
    assert (exists p w, (p = isCh "`" \/ p = isCh "~") /\ m = w ++ s'
              /\ Forall (fun c => p c = true) w /\ 3 <= length w) as (p & w & Hp & -> & Hw & Hl).
    { destruct Hf as [Hf | Hf].
      - apply (proj1 (Reps_class (length (ws ++ m)) (isCh "`") _ _ _)) in Hf as (w & ? & ? & ?).
        exists (isCh "`"), w. auto.
      - apply (proj1 (Reps_class (length (ws ++ m)) (isCh "~") _ _ _)) in Hf as (w & ? & ? & ?).
        exists (isCh "~"), w. auto. }
    rewrite trimStart_spaces in E by done.
    destruct w as [|a [|b [|c v]]]; simpl in Hl; try lia.
    inversion Hw as [|? ? Ha Hw1]; subst. inversion Hw1 as [|? ? Hb Hw2]; subst.
    inversion Hw2 as [|? ? Hc _]; subst.
    assert (isSpace a = false) as Hsa.
    { destruct Hp as [-> | ->]; apply N.eqb_eq in Ha; by subst. }
    simpl in E. rewrite Hsa in E. simpl in E.
    destruct Hp as [-> | ->]; rewrite Ha, Hb, Hc in E; simpl in E;
      [done | by rewrite orb_true_r in E].
Qed.

(** The fence test looks at nothing but the line without the whitespace
    at its ends. *)
Lemma isFenceLine_indented ws l :
  Forall (fun c => isSpace c = true) ws ->
  isFenceLine (ws ++ trim l) = isFenceLine l.
Proof.
  intros Hws. rewrite !isFenceLine_startsFence, trimStart_spaces by done.
  rewrite trim_fixed_start. unfold trim. apply startsFence_trimEnd.
Qed.

(** ** The beautifier of the line-based extension *)

Lemma trim_Forall (P : char -> Prop) s : Forall P s -> Forall P (trim s).
Proof.
  intros H. destruct (trimStart_split s) as (ws & Hs & _).
  destruct (trimEnd_split (trimStart s)) as (ws' & Hs' & _).
  rewrite Hs, Hs' in H. apply Forall_app in H as [_ H]. by apply Forall_app in H as [H _].
Qed.

(** The lines that the beautifier pushes are lines that it leaves as they
    are. *)
Lemma LineBased_beautifyLines_idem lines depth inCodeBlock :
  LineBasedBeautify.beautifyLines
    (LineBasedBeautify.beautifyLines lines depth inCodeBlock) depth inCodeBlock
  = LineBasedBeautify.beautifyLines lines depth inCodeBlock.
Proof.
  revert depth inCodeBlock.
  induction lines as [|line lines IH]; intros d b; [done|].
  pose proof (isFenceLine_indented (repeatStr (str "  ") (Z.to_nat d)) line
                (repeatStr_spaces _)) as Hf.
  pose proof (isFenceLine_indented
                (repeatStr (str "  ") (Z.to_nat (Z.max 0 (d - 1)))) line
                (repeatStr_spaces _)) as Hf'.
  pose proof (isFenceLine_indented [] line (Forall_nil_2 _)) as Hf0.
  unfold isFenceLine in Hf, Hf', Hf0. simpl in Hf0.
  cbn [LineBasedBeautify.beautifyLines].
  destruct (regexTest codeBlockRegex line) eqn:E.
  { destruct b; cbn [negb LineBasedBeautify.beautifyLines];
      unfold LineBasedBeautify.indent; rewrite Hf; cbn [negb];
      by rewrite trim_indented, IH. }
  destruct b.
  { cbn [LineBasedBeautify.beautifyLines]. by rewrite E, IH. }
  cbv zeta. case_bool_decide as Ht.
  { cbn [LineBasedBeautify.beautifyLines].
    assert (regexTest codeBlockRegex [] = false) as -> by by vm_compute.
    assert (trim [] = []) as -> by done.
    rewrite bool_decide_eq_true_2 by done. by rewrite IH. }
  unfold LineBasedBeautify.indent.
  destruct (regexTest LineBasedBeautify.closingLineRegex (trim line)) eqn:E1;
    [|destruct (regexTest LineBasedBeautify.openingLineRegex (trim line)) eqn:E2;
      [|destruct (regexTest LineBasedBeautify.headerStartRegex (trim line)) eqn:E3]];
    cbn [LineBasedBeautify.beautifyLines]; cbv zeta;
    unfold LineBasedBeautify.indent;
    rewrite ?Hf, ?Hf', ?Hf0, ?trim_indented, ?trim_idem;
    rewrite bool_decide_eq_false_2 by done;
    rewrite ?E1, ?E2, ?E3; by rewrite IH.
Qed.

Lemma LineBased_beautifyLines_Forall (P : char -> Prop) lines depth inCodeBlock :
  P 32%N -> Forall (Forall P) lines ->
  Forall (Forall P) (LineBasedBeautify.beautifyLines lines depth inCodeBlock).
Proof.
  intros Hsp H. revert depth inCodeBlock.
  assert (forall n, Forall P (repeatStr LineBasedBeautify.indent n)) as Hind.
  { induction n as [|n IHn]; simpl; [done|]. by repeat constructor. }
  induction H as [|line lines Hl _ IH]; intros d b; simpl; [constructor|].
  repeat case_match; constructor; try apply IH; try done;
    rewrite ?Forall_app; auto using trim_Forall.
Qed.

Lemma LineBased_beautifyLines_nonempty line lines depth inCodeBlock :
  LineBasedBeautify.beautifyLines (line :: lines) depth inCodeBlock <> [].
Proof. simpl. by repeat case_match. Qed.

(** X3: the beautifier of the line-based extension is idempotent on a
    document without carriage returns: beautifying its result changes
    nothing.  (The beautifier of the other two variants is not, see C9.) *)
Theorem LineBased_beautify_idempotent text :
  13%N ∉ text ->
  LineBasedBeautify.beautifyDocument (LineBasedBeautify.beautifyDocument text)
  = LineBasedBeautify.beautifyDocument text.
Proof.
  intros Hcr. unfold LineBasedBeautify.beautifyDocument.
  rewrite splitLines_join.
  - by rewrite LineBased_beautifyLines_idem.
  - unfold splitLines. destruct (splitFrom [] text) eqn:E;
      [by apply splitFrom_nonempty in E | apply LineBased_beautifyLines_nonempty].
  - apply (Forall_impl (Forall (fun c => c <> 10%N /\ c <> 13%N))).
    + apply LineBased_beautifyLines_Forall; [done|].
      unfold splitLines.
      pose proof (splitFrom_no_lf [] text (Forall_nil_2 _)) as H1.
      pose proof (splitFrom_Forall (fun c => c <> 13%N) [] text (Forall_nil_2 _)
                    (proj1 (not_elem_Forall _ _) Hcr)) as H2.
      rewrite Forall_forall in *. intros l Hl.
      specialize (H1 l Hl). specialize (H2 l Hl).
      rewrite Forall_forall in *. intros c Hc. split; auto.
    + intros l Hl. rewrite !not_elem_Forall.
      split; eapply Forall_impl; try exact Hl; by intros c [? ?].
Qed.

Lemma LineBased_beautify_idempotent_witness :
  let text := join [10%N] [str "<a>"; str "# "; str "   x"; str "</a>"] in
  LineBasedBeautify.beautifyDocument text
    = join [10%N] [str "<a>"; str "  #"; str "  x"; str "</a>"]
  /\ LineBasedBeautify.beautifyDocument (LineBasedBeautify.beautifyDocument text)
     = LineBasedBeautify.beautifyDocument text.
Proof.
  split; [by vm_compute|].
  apply (LineBased_beautify_idempotent
           (join [10%N] [str "<a>"; str "# "; str "   x"; str "</a>"])).
  apply not_elem_Forall. by vm_compute; repeat constructor.
Defined.

Lemma no_lf_indented n line : 10%N ∉ line -> 10%N ∉ repeatStr (str "  ") n ++ trim line.
Proof.
  rewrite !not_elem_Forall. intros H. apply Forall_app. split.
  - induction n as [|n IH]; simpl; [done|]. by repeat constructor.
  - by apply trim_Forall.
Qed.

Lemma reindented_indented n line :
  10%N ∉ line -> reindented line (repeatStr (str "  ") n ++ trim line).
Proof.
  intros H. split; [by apply no_lf_indented|]. split; [apply trim_indented|].
  right. by exists n.
Qed.

Lemma reindented_trimmed line : 10%N ∉ line -> reindented line (trim line).
Proof. intros H. apply (reindented_indented 0 line H). Qed.

Lemma reindented_same line : 10%N ∉ line -> reindented line line.
Proof. intros H. split; [done|]. split; [done|]. by left. Qed.

Lemma beautifyLines_reindented lines currentIndent inCodeBlock :
  Forall (fun l => 10%N ∉ l) lines ->
  Forall2 reindented lines (beautifyLines lines currentIndent inCodeBlock).
Proof.
  intros H. revert currentIndent inCodeBlock.
  induction H as [|line lines Hl _ IH]; intros d b; simpl; [constructor|].
  unfold indented, indentString.
  repeat case_match; constructor; try apply IH;
    auto using reindented_indented, reindented_trimmed, reindented_same.
  match goal with
  | E : bool_decide _ = true |- _ =>
      apply bool_decide_eq_true in E; rewrite <- E; by apply reindented_trimmed
  end.
Qed.

Lemma LineBased_beautifyLines_reindented lines depth inCodeBlock :
  Forall (fun l => 10%N ∉ l) lines ->
  Forall2 reindented lines (LineBasedBeautify.beautifyLines lines depth inCodeBlock).
Proof.
  intros H. revert depth inCodeBlock.
  induction H as [|line lines Hl _ IH]; intros d b; simpl; [constructor|].
  unfold LineBasedBeautify.indent.
  repeat case_match; constructor; try apply IH;
    auto using reindented_indented, reindented_trimmed, reindented_same.
  match goal with
  | E : bool_decide _ = true |- _ =>
      apply bool_decide_eq_true in E; rewrite <- E; by apply reindented_trimmed
  end.
Qed.

Lemma splitLines_no_lf text : Forall (fun l => 10%N ∉ l) (splitLines text).
Proof.
  eapply Forall_impl; [apply (splitFrom_no_lf [] text (Forall_nil_2 _))|].
  intros l Hl. by apply not_elem_Forall.
Qed.

(** The line feeds of a text joined from strings that hold none. *)
Lemma join_line_feeds result :
  Forall (fun pushed => 10%N ∉ pushed) result -> result <> [] ->
  length (List.filter (fun c => c =? 10)%N (join [10%N] result)) + 1 = length result.
Proof.
  assert (forall l : jsstring, 10%N ∉ l -> List.filter (fun c => c =? 10)%N l = [])
    as Hnone.
  { induction l as [|c l IHl]; [done|]. intros [Hc Hl]%not_elem_of_cons.
    cbn [List.filter]. destruct (N.eqb_spec c 10) as [E|_]; [done | by apply IHl]. }
  induction 1 as [|l ls Hl Hls IH]; [done|]. intros _.
  destruct ls as [|l' ls'].
  - cbn [join length]. by rewrite Hnone.
  - change (join [10%N] (l :: l' :: ls')) with (l ++ 10%N :: join [10%N] (l' :: ls')).
    rewrite List.filter_app, Hnone by done. cbn [app List.filter].
    change (10 =? 10)%N with true. specialize (IH ltac:(done)).
    cbn [length] in *. cbn [Nat.add]. f_equal. exact IH.
Qed.

Lemma reindented_no_lf lines result :
  Forall2 reindented lines result -> Forall (fun pushed => 10%N ∉ pushed) result.
Proof. induction 1 as [|? ? ? ? [? _]]; by constructor. Qed.

Lemma splitLines_nonempty text : splitLines text <> [].
Proof. apply splitFrom_nonempty. Qed.

(** X1: the beautifier changes nothing but the whitespace at the two ends
    of a line.  Its result is the strings it pushed, joined by line feeds:
    one string for each line of the document, in order, with no line feed
    in it, which is the line itself or the trimmed line after a number of
    indentation units of two spaces; so that the result has as many line
    feeds as there are lines in the document after the first. *)
Theorem beautify_keeps_lines text :
  exists result,
    beautifyDocument text = join [10%N] result
    /\ Forall2 reindented (splitLines text) result
    /\ length (List.filter (fun c => c =? 10)%N (beautifyDocument text)) + 1
       = length (splitLines text).
Proof.
  exists (beautifyLines (splitLines text) 0 false).
  pose proof (beautifyLines_reindented (splitLines text) 0 false (splitLines_no_lf text))
    as H.
  split; [done|]. split; [done|]. unfold beautifyDocument.
  rewrite join_line_feeds.
  - symmetry. by eapply Forall2_length.
  - by eapply reindented_no_lf.
  - intros E. rewrite E in H. apply Forall2_nil_inv_r in H.
    by apply splitLines_nonempty in H.
Qed.

(** X4: the beautifier of the line-based extension changes nothing but
    the whitespace at the two ends of a line: its result is the strings it
    pushed, joined by line feeds, one for each line of the document, in
    order, with no line feed in it, which is the line itself or the
    trimmed line after a number of indentation units of two spaces; so
    that the result has as many line feeds as there are lines in the
    document after the first. *)
Theorem LineBased_beautify_keeps_lines text :
  exists result,
    LineBasedBeautify.beautifyDocument text = join [10%N] result
    /\ Forall2 reindented (splitLines text) result
    /\ length (List.filter (fun c => c =? 10)%N (LineBasedBeautify.beautifyDocument text)) + 1
       = length (splitLines text).
Proof.
  exists (LineBasedBeautify.beautifyLines (splitLines text) 0 false).
  pose proof (LineBased_beautifyLines_reindented (splitLines text) 0 false
                (splitLines_no_lf text)) as H.
  split; [done|]. split; [done|]. unfold LineBasedBeautify.beautifyDocument.
  rewrite join_line_feeds.
  - symmetry. by eapply Forall2_length.
  - by eapply reindented_no_lf.
  - intros E. rewrite E in H. apply Forall2_nil_inv_r in H.
    by apply splitLines_nonempty in H.
Qed.

(** X5: the fence test of the extractors, the beautifiers and the folding
    providers accepts a line exactly when the line is whitespace, then
    three backticks or three tildes, then anything. *)
Theorem fence_test_classifier line :
  regexTest codeBlockRegex line = true <->
  exists ws c rest,
    line = ws ++ [c; c; c] ++ rest
    /\ Forall (fun x => isSpace x = true) ws
    /\ (c = ch "`" \/ c = ch "~").
Proof.
  change (regexTest codeBlockRegex line) with (isFenceLine line).
  rewrite isFenceLine_startsFence. split.
  - intros E. destruct (trimStart_split line) as (ws & Hl & Hws).
    destruct (trimStart line) as [|a [|b [|c v]]]; try done. simpl in E.
    assert (b = a /\ c = a /\ (a = ch "`" \/ a = ch "~")) as (-> & -> & Ha).
    { unfold isCh in E. apply orb_prop in E as [E | E];
        apply andb_prop in E as [E Ec]; apply andb_prop in E as [Ea Eb];
        apply N.eqb_eq in Ea, Eb, Ec; subst; auto. }
    by exists ws, a, v.
  - intros (ws & c & rest & -> & Hws & Hc). rewrite trimStart_spaces by done.
    by destruct Hc as [-> | ->].
Qed.

(** ** Searching and replacing *)

Lemma matcher_Seq total a b x k :
  matcher total (Seq a b) x k = matcher total a x (fun y => matcher total b y k).
Proof. done. Qed.

Lemma matcher_Chr total p x k :
  matcher total (Chr p) x k =
  match rest x with
  | c :: t => if p c then k (MState t (caps x)) else None
  | [] => None
  end.
Proof. done. Qed.

Lemma matcher_Alt total a b x k :
  matcher total (Alt a b) x k =
  match matcher total a x k with
  | Some z => Some z
  | None => matcher total b x k
  end.
Proof. done. Qed.

Lemma matcher_Grp total n a x k :
  matcher total (Grp n a) x k =
  matcher total a x (fun y =>
    k (MState (rest y)
         (<[n := take (length (rest x) - length (rest y)) (rest x)]> (caps y)))).
Proof. done. Qed.

Lemma matcher_Rep total greedy mn mx a x k :
  matcher total (Rep greedy mn mx a) x k =
  requiredLoop (fun y k' => matcher total a (clearCaps (groupsOf a) y) k')
    greedy k mn mx x.
Proof. done. Qed.

(** A pattern that begins with a character of a class does not match
    where no such character stands. *)
Lemma firstIn_matcher P total r x k z :
  firstIn P r -> matcher total r x k = Some z ->
  exists c t, rest x = c :: t /\ P c.
Proof.
  intros H. revert x k z. induction H as [q Hq|a b _ IH|a _ IH|a b _ IHa _ IHb|n a _ IH
    |greedy mn mx a Hz _ IH]; intros x k z.
  - rewrite matcher_Chr. destruct (rest x) as [|c t]; [done|].
    destruct (q c) eqn:E; [|done]. intros _. exists c, t. auto.
  - rewrite matcher_Seq. apply IH.
  - rewrite matcher_Seq. change (matcher total Bol x ?k)
      with (if length (rest x) =? total then k x else None).
    destruct (length (rest x) =? total); [apply IH | done].
  - rewrite matcher_Alt. destruct (matcher total a x k) eqn:E.
    + intros _. by eapply IHa.
    + apply IHb.
  - rewrite matcher_Grp. apply IH.
  - rewrite matcher_Rep. simpl. rewrite Hz. intros Hm. by apply IH in Hm.
Qed.

Lemma firstIn_matchHere P total r s :
  firstIn P r -> (forall c t, s = c :: t -> ~ P c) -> matchHere total r s = None.
Proof.
  intros Hr Hs. unfold matchHere.
  destruct (matcher total r (MState s ∅) Some) eqn:E; [|done].
  eapply firstIn_matcher in E as (c & t & Hx & Hc); [|done].
  simpl in Hx. by destruct (Hs c t).
Qed.

Lemma search_eq total r s :
  search total r s =
  match matchHere total r s with
  | Some mr => Some mr
  | None => match s with [] => None | _ :: s' => search total r s' end
  end.
Proof. by destruct s. Qed.

Lemma matchesFrom_S fuel total r s :
  matchesFrom (S fuel) total r s =
  match search total r s with
  | None => []
  | Some mr =>
      mr :: match mtext mr, mafter mr with
            | _ :: _, t => matchesFrom fuel total r t
            | [], _ :: t => matchesFrom fuel total r t
            | [], [] => []
            end
  end.
Proof. done. Qed.

Lemma firstIn_search P total r s :
  firstIn P r -> Forall (fun c => ~ P c) s -> search total r s = None.
Proof.
  intros Hr. induction 1 as [|c s Hc _ IH]; rewrite search_eq.
  - by rewrite (firstIn_matchHere P).
  - rewrite (firstIn_matchHere P); [done | done |].
    by intros ? ? [= <- <-].
Qed.

Lemma firstIn_allMatches P r s :
  firstIn P r -> Forall (fun c => ~ P c) s -> allMatches r s = [].
Proof.
  intros Hr Hs. unfold allMatches. rewrite matchesFrom_S.
  by rewrite (firstIn_search P).
Qed.

(** Where the pattern finds nothing, [replace] leaves the string as it
    is. *)
Lemma firstIn_replaceAll P r s f :
  firstIn P r -> Forall (fun c => ~ P c) s -> replaceAll r s f = s.
Proof. intros Hr Hs. unfold replaceAll. by rewrite (firstIn_allMatches P). Qed.

Lemma firstIn_replaceAllSt {S} P r s (f : S -> MatchResult -> S * jsstring) st :
  firstIn P r -> Forall (fun c => ~ P c) s -> replaceAllSt r s f st = (s, st).
Proof. intros Hr Hs. unfold replaceAllSt. by rewrite (firstIn_allMatches P). Qed.


(** ** Documents without tags *)

Ltac firstIn_solve :=
  repeat first
    [ apply firstIn_bol | apply firstIn_seq | apply firstIn_grp
    | apply firstIn_rep; [done|] | apply firstIn_alt ];
  apply firstIn_chr; let H := fresh in intros ? H; exact H.

(** A line without backticks has no inline code to mask. *)
Lemma Masking_mask_plain l :
  Forall (fun c => isCh "`" c <> true) l -> Masking.maskCodeContent l = (l, []).
Proof.
  intros H. unfold Masking.maskCodeContent.
  rewrite (firstIn_replaceAllSt (fun c => isCh "`" c = true)); [|firstIn_solve|done].
  by rewrite (firstIn_replaceAllSt (fun c => isCh "`" c = true)); [|firstIn_solve|done].
Qed.

(** A line without the code unit 0 has no placeholder to restore. *)
Lemma Masking_unmask_plain l codeBlocks :
  Forall (fun c => (c =? 0)%N <> true) l -> Masking.unmaskCodeContent l codeBlocks = l.
Proof.
  intros H. unfold Masking.unmaskCodeContent.
  by rewrite (firstIn_replaceAll (fun c => (0 =? c)%N = true)); [|firstIn_solve|
    eapply Forall_impl; [exact H|]; intros c Hc; by rewrite N.eqb_sym].
Qed.

(** A line without [<] has no tag. *)
Lemma Masking_tagsOfLine_plain i l :
  Forall (fun c => isCh "<" c <> true) l ->
  Forall (fun c => isCh "`" c <> true) l ->
  Masking.tagsOfLine i l = [].
Proof.
  intros H1 H2. unfold Masking.tagsOfLine. rewrite Masking_mask_plain by done.
  cbv zeta. cbn [fst].
  unfold Masking.selfClosingTags, Masking.closingTags, Masking.openingTags.
  rewrite (firstIn_replaceAll (fun c => isCh "<" c = true)); [|firstIn_solve|done].
  assert (forall r, firstIn (fun c => isCh "<" c = true) r -> allMatches r l = []) as Hn.
  { intros r Hr. by apply (firstIn_allMatches (fun c => isCh "<" c = true)). }
  rewrite (Hn xmlSelfClosingRegex) by firstIn_solve.
  rewrite (Hn xmlClosingTagRegex) by firstIn_solve.
  by rewrite (Hn xmlOpeningTagRegex) by firstIn_solve.
Qed.

Lemma parseLines_no_tags tagsOfLine lines i b acc :
  Forall (fun l => forall j, tagsOfLine j l = []) lines ->
  xmlTags (parseLinesWith tagsOfLine lines i b acc) = xmlTags acc.
Proof.
  intros H. revert i b acc. induction H as [|l lines Hl _ IH]; intros i b acc; [done|].
  simpl. repeat case_match; rewrite IH; try done. simpl. by rewrite Hl, app_nil_r.
Qed.

Lemma Masking_contentLines_plain l :
  Forall (fun c => isCh "<" c <> true) l ->
  Forall (fun c => isCh "`" c <> true) l ->
  Forall (fun c => (c =? 0)%N <> true) l ->
  Masking.contentLines l = [l].
Proof.
  intros H1 H2 H3. unfold Masking.contentLines. rewrite Masking_mask_plain by done.
  rewrite (firstIn_replaceAll (fun c => isCh "<" c = true)); [|firstIn_solve|done].
  rewrite Masking_unmask_plain by done. by destruct (trim l).
Qed.

Lemma concat_singletons {A} (l : list A) : concat (List.map (fun x => [x]) l) = l.
Proof. induction l as [|x l IH]; simpl; by rewrite ?IH. Qed.

Lemma Masking_convertLines_plain lines i b :
  Forall (fun l => Forall (fun c => isCh "<" c <> true) l
                   /\ Forall (fun c => isCh "`" c <> true) l
                   /\ Forall (fun c => (c =? 0)%N <> true) l) lines ->
  Masking.convertLines initResolver lines i b = List.map (fun l => [l]) lines.
Proof.
  intros H. revert i b. induction H as [|l lines (H1 & H2 & H3) _ IH]; intros i b; [done|].
  unfold Masking.convertLines in *. cbn [convertLinesWith List.map].
  unfold Masking.convertLine. cbn [initResolver tagEndLines tagDepthMap tagInfoMap].
  rewrite Masking_contentLines_plain by done.
  rewrite bool_decide_eq_false_2 by set_solver. rewrite lookup_empty.
  by repeat case_match; simplify_eq; rewrite IH.
Qed.

Lemma Forall_lines (P : char -> Prop) text :
  Forall P text -> Forall (Forall P) (splitLines text).
Proof. intros H. by apply splitFrom_Forall. Qed.

Lemma not_elem_isCh a (s : jsstring) : ch a ∉ s <-> Forall (fun c => isCh a c <> true) s.
Proof.
  rewrite not_elem_Forall.
  split; intros H; (eapply Forall_impl; [exact H|]); intros c Hc; unfold isCh in *.
  - by intros ?%N.eqb_eq.
  - intros ->. by rewrite N.eqb_refl in Hc.
Qed.

(** X6: a text with no [<], no backtick and no code unit 0 has nothing
    that [convertToMarkdown] rewrites.  Its lines come out as they are,
    joined by line feeds; without carriage returns, the result is the
    text itself. *)
Theorem plain_text_unchanged text :
  ch "<" ∉ text -> ch "`" ∉ text -> 0%N ∉ text ->
  Masking.convertToMarkdown text = join [10%N] (splitLines text)
  /\ (13%N ∉ text -> Masking.convertToMarkdown text = text).
Proof.
  intros H1%not_elem_isCh H2%not_elem_isCh H3%not_elem_Forall.
  assert (Masking.convertToMarkdown text = join [10%N] (splitLines text)) as E.
  { unfold Masking.convertToMarkdown, Masking.parseDocumentText, Masking.parseLines.
    cbv zeta. rewrite parseLines_no_tags.
    - cbn [xmlTags Masking.resolveTags fold_left].
      rewrite Masking_convertLines_plain; [by rewrite concat_singletons|].
      apply Forall_lines with (P := fun c => isCh "<" c <> true) in H1.
      apply Forall_lines with (P := fun c => isCh "`" c <> true) in H2.
      apply Forall_lines with (P := fun c => c <> 0%N) in H3.
      rewrite Forall_forall in *. intros l Hl. repeat split; auto.
      eapply Forall_impl; [exact (H3 l Hl)|]. by intros c Hc ?%N.eqb_eq.
    - apply Forall_lines with (P := fun c => isCh "<" c <> true) in H1.
      apply Forall_lines with (P := fun c => isCh "`" c <> true) in H2.
      rewrite Forall_forall in *. intros l Hl j.
      apply Masking_tagsOfLine_plain; auto. }
  split; [done|]. intros Hcr. by rewrite E, join_splitLines.
Qed.

Lemma plain_text_unchanged_witness :
  let text := join [10%N] [str "# Title"; str ""; str "~~~"; str "  code"; str "~~~"; str "- item"] in
  Masking.convertToMarkdown text = text.
Proof.
  intros text.
  refine (proj2 (plain_text_unchanged text _ _ _) _);
    apply not_elem_Forall; by vm_compute; repeat constructor.
Defined.

Lemma Legacy_tagsOfLine_plain i l :
  Forall (fun c => isCh "<" c <> true) l -> Legacy.tagsOfLine i l = [].
Proof.
  intros H1. unfold Legacy.tagsOfLine. cbv zeta.
  rewrite (firstIn_replaceAll (fun c => isCh "<" c = true)); [|firstIn_solve|done].
  assert (forall r, firstIn (fun c => isCh "<" c = true) r -> allMatches r l = []) as Hn.
  { intros r Hr. by apply (firstIn_allMatches (fun c => isCh "<" c = true)). }
  rewrite (Hn xmlSelfClosingRegex) by firstIn_solve.
  rewrite (Hn xmlClosingTagRegex) by firstIn_solve.
  by rewrite (Hn xmlOpeningTagRegex) by firstIn_solve.
Qed.

Lemma Legacy_contentLines_plain l :
  Forall (fun c => isCh "<" c <> true) l -> Legacy.contentLines l = [l].
Proof.
  intros H1. unfold Legacy.contentLines.
  rewrite (firstIn_allMatches (fun c => isCh "<" c = true)); [|firstIn_solve|done].
  cbn [fold_left].
  rewrite (firstIn_replaceAll (fun c => isCh "<" c = true)); [|firstIn_solve|done].
  by destruct (trim l).
Qed.

Lemma Legacy_convertLines_plain lines i b :
  Forall (fun l => Forall (fun c => isCh "<" c <> true) l) lines ->
  Legacy.convertLines initResolver lines i b = List.map (fun l => [l]) lines.
Proof.
  intros H. revert i b. induction H as [|l lines H1 _ IH]; intros i b; [done|].
  unfold Legacy.convertLines in *. cbn [convertLinesWith List.map].
  unfold Legacy.convertLine. cbn [initResolver tagEndLines tagDepthMap tagInfoMap].
  rewrite Legacy_contentLines_plain by done.
  rewrite bool_decide_eq_false_2 by set_solver. rewrite lookup_empty.
  by repeat case_match; simplify_eq; rewrite IH.
Qed.

(** X7: the first extension leaves a document without [<] as it is: the
    lines of its text come out unchanged, joined by line feeds. *)
Theorem Legacy_plain_text_unchanged document :
  ch "<" ∉ getText document ->
  Forall (fun l => ch "<" ∉ l) (lineTexts document) ->
  Legacy.convertToMarkdown document = join [10%N] (splitLines (getText document))
  /\ (13%N ∉ getText document -> Legacy.convertToMarkdown document = getText document).
Proof.
  intros H1%not_elem_isCh H2.
  assert (Legacy.convertToMarkdown document
          = join [10%N] (splitLines (getText document))) as E.
  { unfold Legacy.convertToMarkdown, Legacy.parseDocument, Legacy.parseLines.
    cbv zeta. rewrite parseLines_no_tags.
    - cbn [xmlTags Legacy.resolveTags fold_left].
      rewrite Legacy_convertLines_plain; [by rewrite concat_singletons|].
      by apply Forall_lines.
    - eapply Forall_impl; [exact H2|]. intros l Hl%not_elem_isCh j.
      by apply Legacy_tagsOfLine_plain. }
  split; [done|]. intros Hcr. by rewrite E, join_splitLines.
Qed.

Lemma Legacy_plain_text_unchanged_witness :
  let text := join [10%N] [str "# Title"; str "```"; str "  `x`"; str "```"; str "a `b` c"] in
  Legacy.convertToMarkdown (documentOf text) = text.
Proof.
  intros text.
  refine (proj2 (Legacy_plain_text_unchanged (documentOf text) _ _) _).
  - apply not_elem_Forall. by vm_compute; repeat constructor.
  - vm_compute. repeat constructor; apply not_elem_Forall; by repeat constructor.
  - apply not_elem_Forall. by vm_compute; repeat constructor.
Defined.

(** ** Folding ranges *)

Lemma spliceLast_found nm stack found stack' :
  spliceLast nm stack = Some (found, stack') ->
  found ∈ stack /\ forall e, e ∈ stack' -> e ∈ stack.
Proof.
  revert found stack'. induction stack as [|e stack IH]; intros found stack'; simpl; [done|].
  destruct (spliceLast nm stack) as [[f s']|] eqn:E.
  - intros [= <- <-]. destruct (IH f s' eq_refl) as [Hf Hs]. split.
    + by right.
    + intros x [->|Hx]%elem_of_cons; [by left | right; by apply Hs].
  - case_bool_decide; [|done]. intros [= <- <-]. split; [by left|].
    intros x Hx. by right.
Qed.

(** The ranges of the tag loop: each goes from the line of an opening tag
    to the line of a closing tag of the same name that comes later in the
    list and stands on a later line. *)
Lemma foldTag_ranges tags :
  forall st, st = foldTags tags ->
  (forall e, e ∈ st.1 -> exists t, t ∈ tags /\ isOpening t = true
                            /\ name t = e.1 /\ line t = e.2)
  /\ (forall s e, (s, e) ∈ st.2 ->
        s < e /\ exists t1 t2 T1 T2, tags = T1 ++ t2 :: T2 /\ t1 ∈ T1
          /\ isOpening t1 = true /\ isOpening t2 = false /\ isClosing t2 = true
          /\ name t1 = name t2 /\ line t1 = s /\ line t2 = e).
Proof.
  induction tags as [|t tags IH] using rev_ind; intros st ->.
  { split; intros *; by intros ?%elem_of_nil. }
  rewrite foldTags_snoc. destruct (IH _ eq_refl) as [IH1 IH2].
  destruct (foldTags tags) as [stack ranges] eqn:E. simpl in IH1, IH2.
  assert (forall s e, (s, e) ∈ ranges ->
            s < e /\ exists t1 t2 T1 T2, tags ++ [t] = T1 ++ t2 :: T2 /\ t1 ∈ T1
              /\ isOpening t1 = true /\ isOpening t2 = false /\ isClosing t2 = true
              /\ name t1 = name t2 /\ line t1 = s /\ line t2 = e) as IH2'.
  { intros s e Hse. destruct (IH2 s e Hse) as (Hlt & t1 & t2 & T1 & T2 & -> & Hrest).
    split; [done|]. exists t1, t2, T1, (T2 ++ [t]).
    split; [by rewrite <- app_assoc|done]. }
  assert (forall e, e ∈ stack -> exists t0, t0 ∈ tags /\ isOpening t0 = true
                                  /\ name t0 = e.1 /\ line t0 = e.2) as IH1' by done.
  assert (forall e, e ∈ stack -> exists t0, t0 ∈ tags ++ [t] /\ isOpening t0 = true
                                  /\ name t0 = e.1 /\ line t0 = e.2) as IH1''.
  { intros e He. destruct (IH1 e He) as (t0 & H0 & Hrest). exists t0.
    split; [apply elem_of_app; by left | done]. }
  unfold foldTag. destruct (isOpening t) eqn:Eo.
  { simpl. split; [|done]. intros e [He|He]%elem_of_app; [by apply IH1''|].
    apply list_elem_of_singleton in He as ->. exists t.
    split; [apply elem_of_app; right; by left | done]. }
  destruct (isClosing t) eqn:Ec; [|by split].
  destruct (spliceLast (name t) stack) as [[[nm startLine] stack']|] eqn:Es; [|by split].
  apply spliceLast_Some in Es as Hnm. destruct Hnm as [Hnm _]. simpl in Hnm.
  apply spliceLast_found in Es as [Hf Hs]. simpl. split.
  { intros e He. by apply IH1'', Hs. }
  intros s e. destruct (startLine <? line t) eqn:El; [|by apply IH2'].
  intros [Hse|Hse]%elem_of_app; [by apply IH2'|].
  apply list_elem_of_singleton in Hse as [= -> ->].
  apply Nat.ltb_lt in El. split; [done|].
  destruct (IH1' _ Hf) as (t1 & H1 & Ho & Hn & Hl). simpl in Hn, Hl.
  exists t1, t, tags, []. repeat split; try done. congruence.
Qed.

Lemma popHeaders_ranges keep endLine stack s e :
  (s, e) ∈ (popHeaders keep endLine stack).2 -> s < e /\ e = endLine.
Proof.
  induction stack as [|[lvl ln] stack IH]; simpl; [by intros ?%elem_of_nil|].
  destruct (keep (lvl, ln)); [by intros ?%elem_of_nil|].
  destruct (popHeaders keep endLine stack) as [st rs]. simpl in *.
  intros [H|H]%elem_of_app; [|by apply IH].
  destruct (ln <? endLine) eqn:E; [|by apply elem_of_nil in H].
  apply list_elem_of_singleton in H as [= -> ->]. by apply Nat.ltb_lt in E.
Qed.

Lemma foldHeaders_ranges lineCount sorted stack s e :
  (s, e) ∈ foldHeaders lineCount sorted stack ->
  s < e /\ (e = Nat.pred lineCount \/ exists h, h ∈ sorted /\ e = Nat.pred (hline h)).
Proof.
  revert stack. induction sorted as [|current next IH]; intros stack;
    cbn [foldHeaders]; [by intros ?%elem_of_nil|].
  destruct (popHeaders _ (Nat.pred (hline current)) stack) as [stack1 rs1] eqn:E1.
  assert (forall s e, (s, e) ∈ rs1 -> s < e /\ e = Nat.pred (hline current)) as H1.
  { intros s0 e0 H.
    apply (popHeaders_ranges (fun e => e.1 <? level current) _ stack). by rewrite E1. }
  destruct next as [|h next'].
  - intros [H|H]%elem_of_app.
    + destruct (H1 _ _ H) as [? ->]. split; [done|]. right. exists current.
      split; [by left | done].
    + apply popHeaders_ranges in H as [? ->]. auto.
  - intros [H|H]%elem_of_app.
    + destruct (H1 _ _ H) as [? ->]. split; [done|]. right. exists current.
      split; [by left | done].
    + apply IH in H as [? [->|(h' & Hh' & ->)]]; [auto|].
      split; [done|]. right. exists h'. split; [by right | done].
Qed.

Lemma insertHeader_elem h l x : x ∈ insertHeader h l <-> x = h \/ x ∈ l.
Proof.
  induction l as [|h' l IH]; simpl.
  - rewrite list_elem_of_singleton. split; [auto|]. by intros [?|?%elem_of_nil].
  - destruct (hline h' <=? hline h).
    + rewrite !elem_of_cons, IH. tauto.
    + by rewrite elem_of_cons.
Qed.

Lemma sortHeaders_elem l x : x ∈ sortHeaders l <-> x ∈ l.
Proof.
  unfold sortHeaders.
  assert (forall acc, x ∈ fold_left (fun acc h => insertHeader h acc) l acc
                      <-> x ∈ acc \/ x ∈ l) as H.
  { induction l as [|h l IH]; intros acc; simpl.
    - split; [auto|]. by intros [?|?%elem_of_nil].
    - rewrite IH, insertHeader_elem, elem_of_cons. tauto. }
  rewrite H. split; [by intros [?%elem_of_nil|?] | auto].
Qed.

(** The ranges of the code-block loop: each goes from a fence line that
    opens a block to the next fence line. *)
Lemma foldFences_ranges lines i codeBlockStart s e :
  (forall start, codeBlockStart = Some start -> start < i) ->
  (s, e) ∈ foldFences lines i codeBlockStart ->
  s < e
  /\ ((codeBlockStart = Some s
       /\ exists mid le post, lines = mid ++ le :: post /\ e = i + length mid
            /\ isFenceLine le = true /\ Forall (fun l => isFenceLine l = false) mid)
      \/ (exists pre ls mid le post,
            lines = pre ++ ls :: mid ++ le :: post
            /\ s = i + length pre /\ e = i + length pre + 1 + length mid
            /\ isFenceLine ls = true /\ isFenceLine le = true
            /\ Forall (fun l => isFenceLine l = false) mid
            /\ blockState isFenceLine (bool_decide (is_Some codeBlockStart)) pre = false)).
Proof.
  revert i codeBlockStart. induction lines as [|l lines IH]; intros i cbs Hstart; simpl;
    [by intros ?%elem_of_nil|].
  fold (isFenceLine l). destruct (isFenceLine l) eqn:El.
  - destruct cbs as [start|].
    + intros [H|H]%elem_of_app.
      * specialize (Hstart start eq_refl). apply Nat.ltb_lt in Hstart as Hlt.
        rewrite Hlt in H. apply list_elem_of_singleton in H as [= -> ->].
        split; [done|]. left. split; [done|]. exists [], l, lines.
        repeat split; [simpl; lia | done | done].
      * apply IH in H; [|done]. destruct H as [Hlt [[? _]|H]]; [done|].
        destruct H as (pre & ls & mid & le & post & -> & -> & -> & Hls & Hle & Hmid & Hb).
        split; [done|]. right. exists (l :: pre), ls, mid, le, post.
        repeat split; try done; simpl; try lia.
        unfold blockState in *. simpl. rewrite El. simpl.
        first [ by rewrite bool_decide_eq_false_2 in Hb by (by intros [? ?])
              | by rewrite bool_decide_eq_true_2 in Hb by eauto ].
    + intros H. apply IH in H; [|intros ? [= <-]; lia].
      destruct H as [Hlt [H|H]].
      * destruct H as ([= <-] & mid & le & post & -> & -> & Hle & Hmid).
        split; [done|]. right. exists [], l, mid, le, post.
        repeat split; try done; simpl; lia.
      * destruct H as (pre & ls & mid & le & post & -> & -> & -> & Hls & Hle & Hmid & Hb).
        split; [done|]. right. exists (l :: pre), ls, mid, le, post.
        repeat split; try done; simpl; try lia.
        unfold blockState in *. simpl. rewrite El. simpl.
        first [ by rewrite bool_decide_eq_false_2 in Hb by (by intros [? ?])
              | by rewrite bool_decide_eq_true_2 in Hb by eauto ].
  - intros H. apply IH in H; [|intros start Hs; specialize (Hstart start Hs); lia].
    destruct H as [Hlt [H|H]].
    + destruct H as (-> & mid & le & post & -> & -> & Hle & Hmid).
      split; [done|]. left. split; [done|]. exists (l :: mid), le, post.
      repeat split; try done; [simpl; lia | by constructor].
    + destruct H as (pre & ls & mid & le & post & -> & -> & -> & Hls & Hle & Hmid & Hb).
      split; [done|]. right. exists (l :: pre), ls, mid, le, post.
      repeat split; try done; simpl; try lia.
      unfold blockState in *. simpl. by rewrite El.
Qed.

Lemma provided_ranges_bounds (tags : list XmlTag) (hs : list MarkdownHeader)
    (lines : list jsstring) (n : nat) s e :
  (forall t, t ∈ tags -> line t < n) ->
  (forall h, h ∈ hs -> hline h < n) ->
  (s, e) ∈ (foldTags tags).2 ++ foldHeaders (length lines) (sortHeaders hs) []
           ++ foldFences lines 0 None ->
  s < e /\ (n = length lines -> e < length lines).
Proof.
  intros Ht Hh [H|[H|H]%elem_of_app]%elem_of_app.
  - destruct (foldTag_ranges tags _ eq_refl) as [_ Hr].
    destruct (Hr s e H) as (Hlt & t1 & t2 & T1 & T2 & -> & _ & _ & _ & _ & _ & _ & <-).
    split; [done|]. intros <-. apply Ht, elem_of_app. right. by left.
  - apply foldHeaders_ranges in H as [Hlt [->|(h & Hh' & ->)]].
    + split; [done|]. lia.
    + split; [done|]. intros <-. apply sortHeaders_elem, Hh in Hh'. lia.
  - apply foldFences_ranges in H as [Hlt [[? _]|H]]; [done| |done].
    destruct H as (pre & ls & mid & le & post & -> & -> & -> & _).
    split; [done|]. intros _. rewrite !length_app. simpl. rewrite !length_app. simpl. lia.
Qed.

(** X8: a folding range never ends before or where it starts, and it
    ends on a line of the document.  (For the provider of part_000, which
    reads the tags and headers off the text and the fences off the
    editor's lines, the second part needs the two to be cut alike.) *)
Theorem folding_ranges_in_document :
  (forall document s e,
     (s, e) ∈ Legacy.provideFoldingRanges document ->
     s < e < length (lineTexts document))
  /\ (forall document s e,
        (s, e) ∈ Masking.provideFoldingRanges document ->
        s < e /\ (lineTexts document = splitLines (getText document) ->
                  e < length (lineTexts document))).
Proof.
  split; intros document s e H.
  - unfold Legacy.provideFoldingRanges in H. cbv zeta in H.
    eapply (provided_ranges_bounds _ _ _ (length (lineTexts document))) in H as [H1 H2].
    + split; [done | by apply H2].
    + intros t Ht. by apply Legacy_parse_tag in Ht as [_ ?].
    + intros h Hh. unfold Legacy.parseDocument, Legacy.parseLines in Hh.
      apply parseLines_header_lines in Hh. lia.
  - unfold Masking.provideFoldingRanges in H. cbv zeta in H.
    eapply (provided_ranges_bounds _ _ _ (length (splitLines (getText document))))
      in H as [H1 H2].
    + split; [done|]. intros E. apply H2. by rewrite E.
    + intros t Ht. by apply Masking_parse_tag in Ht as [_ ?].
    + intros h Hh. unfold Masking.parseDocumentText, Masking.parseLines in Hh.
      apply parseLines_header_lines in Hh. lia.
Qed.

Lemma folding_ranges_in_document_witness :
  let document :=
    documentOf (join [10%N] [str "# T"; str "<a>"; str "~~~"; str "x"; str "~~~"; str "</a>"]) in
  Legacy.provideFoldingRanges document = [(1, 5); (0, 5); (2, 4)]
  /\ Masking.provideFoldingRanges document = [(1, 5); (0, 5); (2, 4)]
  /\ 1 < 5 < length (lineTexts document)
  /\ 2 < 4 /\ 4 < length (lineTexts document).
Proof.
  intros document. split; [by vm_compute|]. split; [by vm_compute|]. split.
  - apply (proj1 folding_ranges_in_document document 1 5).
    apply list_elem_of_In. vm_compute. auto.
  - destruct (proj2 folding_ranges_in_document document 2 4) as [H1 H2].
    + apply list_elem_of_In. vm_compute. auto.
    + split; [exact H1 | apply H2; by vm_compute].
Defined.

(** X9: every folding range of the tag loop goes from the line of an
    opening tag to the line of a closing tag of the same name that was
    recorded later and stands on a later line. *)
Theorem folding_tag_ranges tags s e :
  (s, e) ∈ (foldTags tags).2 ->
  s < e
  /\ exists t1 t2 T1 T2,
       tags = T1 ++ t2 :: T2 /\ t1 ∈ T1
       /\ isOpening t1 = true /\ isOpening t2 = false /\ isClosing t2 = true
       /\ name t1 = name t2 /\ line t1 = s /\ line t2 = e.
Proof. intros H. by apply (foldTag_ranges tags _ eq_refl). Qed.

Lemma folding_tag_ranges_witness :
  let tags := xmlTags (Masking.parseDocumentText
                         (join [10%N] [str "<a>"; str "<b>"; str "</a>"; str "</b>"])) in
  (foldTags tags).2 = [(0, 2); (1, 3)]
  /\ exists t1 t2 T1 T2,
       tags = T1 ++ t2 :: T2 /\ t1 ∈ T1
       /\ isOpening t1 = true /\ isOpening t2 = false /\ isClosing t2 = true
       /\ name t1 = name t2 /\ line t1 = 1 /\ line t2 = 3.
Proof.
  intros tags. split; [by vm_compute|].
  apply (folding_tag_ranges tags 1 3). apply list_elem_of_In. vm_compute. auto.
Defined.

(** X10: every folding range of the code-block loop is a fenced block as
    the extractor sees it: it starts at a fence line that the extractor
    meets outside a block, and ends at the next fence line. *)
Theorem folding_fence_ranges lines s e :
  (s, e) ∈ foldFences lines 0 None ->
  exists pre opening inside closing post,
    lines = pre ++ opening :: inside ++ closing :: post
    /\ s = length pre /\ e = length pre + 1 + length inside
    /\ isFenceLine opening = true /\ isFenceLine closing = true
    /\ Forall (fun l => isFenceLine l = false) inside
    /\ blockState isFenceLine false pre = false.
Proof.
  intros H. apply foldFences_ranges in H as [_ [[? _]|H]]; [done| |done].
  destruct H as (pre & ls & mid & le & post & -> & -> & -> & Hls & Hle & Hmid & Hb).
  by exists pre, ls, mid, le, post.
Qed.

Lemma folding_fence_ranges_witness :
  let lines := [str "```"; str "a"; str "```"; str "b"; str "~~~"; str "~~~"] in
  foldFences lines 0 None = [(0, 2); (4, 5)]
  /\ exists pre opening inside closing post,
       lines = pre ++ opening :: inside ++ closing :: post
       /\ 4 = length pre /\ 5 = length pre + 1 + length inside
       /\ isFenceLine opening = true /\ isFenceLine closing = true
       /\ Forall (fun l => isFenceLine l = false) inside
       /\ blockState isFenceLine false pre = false.
Proof.
  intros lines. split; [by vm_compute|].
  apply (folding_fence_ranges lines 4 5). apply list_elem_of_In. vm_compute. auto.
Defined.

(** ** The tables of the nesting resolver *)

Lemma resolveTag_tables tag r :
  depthIsHeight r -> tablesAgree r -> tablesAgree (resolveTag tag r).
Proof.
  intros Hd [H1 H2]. unfold depthIsHeight in Hd. unfold resolveTag.
  destruct (isOpening tag); [|destruct (isClosing tag);
    [destruct (spliceLast _ _) as [[? ?]|]|destruct (isSelfClosing tag)]];
    split; simpl; try done.
  - intros i. destruct (decide (i = line tag)) as [->|Hne].
    + rewrite !lookup_insert_eq. split; eauto.
    + by rewrite !lookup_insert_ne.
  - intros i d. destruct (decide (i = line tag)) as [->|Hne].
    + rewrite lookup_insert_eq. intros [= <-]. lia.
    + rewrite lookup_insert_ne by done. apply H2.
  - intros i. destruct (decide (i = line tag)) as [->|Hne].
    + rewrite !lookup_insert_eq. split; eauto.
    + by rewrite !lookup_insert_ne.
  - intros i d. destruct (decide (i = line tag)) as [->|Hne].
    + rewrite lookup_insert_eq. intros [= <-]. lia.
    + rewrite lookup_insert_ne by done. apply H2.
Qed.

Lemma resolveTag_lines tag r i :
  (i ∈ tagEndLines (resolveTag tag r)
   <-> i ∈ tagEndLines r \/ (endsSection tag = true /\ line tag = i))
  /\ (is_Some (tagDepthMap (resolveTag tag r) !! i)
      <-> is_Some (tagDepthMap r !! i) \/ (beginsSection tag = true /\ line tag = i)).
Proof.
  unfold resolveTag, endsSection, beginsSection.
  destruct (isOpening tag); [|destruct (isClosing tag);
    [destruct (spliceLast _ _) as [[? ?]|]|destruct (isSelfClosing tag)]];
    simpl; (split; [try set_solver|]);
    try (destruct (decide (i = line tag)) as [->|Hne];
         [rewrite lookup_insert_eq; split; eauto
         |rewrite lookup_insert_ne by done; split; [auto|by intros [?|[_ ?]]]]);
    try (split; [auto|by intros [?|[? _]]]).
Qed.

Section ResolverTables.

Variable check : XmlTag -> Resolver -> Resolver.

Hypothesis check_tables : forall tag r,
  tagDepthMap (check tag r) = tagDepthMap r
  /\ tagInfoMap (check tag r) = tagInfoMap r
  /\ tagEndLines (check tag r) = tagEndLines r.

Hypothesis check_depth : forall tag r, depthIsHeight r -> depthIsHeight (check tag r).

Lemma resolve_tables tags r :
  depthIsHeight r -> tablesAgree r ->
  depthIsHeight (fold_left (fun r tag => resolveTag tag (check tag r)) tags r)
  /\ tablesAgree (fold_left (fun r tag => resolveTag tag (check tag r)) tags r).
Proof.
  revert r. induction tags as [|t tags IH]; intros r Hd Ht; [done|]. simpl.
  apply IH.
  - by apply resolveTag_depth, check_depth.
  - apply resolveTag_tables; [by apply check_depth|].
    destruct (check_tables t r) as (E1 & E2 & _). unfold tablesAgree. by rewrite E1, E2.
Qed.

Lemma resolve_lines tags r i :
  (i ∈ tagEndLines (fold_left (fun r tag => resolveTag tag (check tag r)) tags r)
   <-> i ∈ tagEndLines r \/ exists t, t ∈ tags /\ endsSection t = true /\ line t = i)
  /\ (is_Some (tagDepthMap (fold_left (fun r tag => resolveTag tag (check tag r)) tags r) !! i)
      <-> is_Some (tagDepthMap r !! i)
          \/ exists t, t ∈ tags /\ beginsSection t = true /\ line t = i).
Proof.
  revert r. induction tags as [|t tags IH]; intros r; simpl.
  - split; (split; [auto|]); by intros [?|(? & ?%elem_of_nil & _)].
  - destruct (IH (resolveTag t (check t r))) as [IH1 IH2].
    destruct (resolveTag_lines t (check t r) i) as [H1 H2].
    destruct (check_tables t r) as (E1 & _ & E3). rewrite E1 in H2. rewrite E3 in H1.
    rewrite IH1, IH2, H1, H2. clear. split; split.
    + intros [[?|[? ?]]|(t' & ? & ?)]; [by left| |].
      * right. exists t. split; [by left|done].
      * right. exists t'. split; [by right|done].
    + intros [?|(t' & [->|?]%elem_of_cons & ? & ?)]; [by left; left|by left; right|].
      right. by exists t'.
    + intros [[?|[? ?]]|(t' & ? & ?)]; [by left| |].
      * right. exists t. split; [by left|done].
      * right. exists t'. split; [by right|done].
    + intros [?|(t' & [->|?]%elem_of_cons & ? & ?)]; [by left; left|by left; right|].
      right. by exists t'.
Qed.

End ResolverTables.

Lemma Masking_check_tables hrLines tag r :
  tagDepthMap (fold_left (Masking.resetAtRule tag) hrLines r) = tagDepthMap r
  /\ tagInfoMap (fold_left (Masking.resetAtRule tag) hrLines r) = tagInfoMap r
  /\ tagEndLines (fold_left (Masking.resetAtRule tag) hrLines r) = tagEndLines r.
Proof. apply Masking_reset_tables. Qed.

Lemma Legacy_check_tables hrLines tag r :
  let r' := if 0 <? line tag then fold_left (Legacy.resetAtRule tag) hrLines r else r in
  tagDepthMap r' = tagDepthMap r /\ tagInfoMap r' = tagInfoMap r
  /\ tagEndLines r' = tagEndLines r.
Proof. simpl. destruct (0 <? line tag); [apply Legacy_reset_tables | done]. Qed.

Lemma Legacy_check_depth hrLines tag r :
  depthIsHeight r ->
  depthIsHeight (if 0 <? line tag then fold_left (Legacy.resetAtRule tag) hrLines r else r).
Proof.
  intros H. destruct (0 <? line tag); [|done]. revert r H.
  induction hrLines as [|h hrLines IH]; intros r H; [done|]. simpl. apply IH.
  unfold Legacy.resetAtRule. by case_match.
Qed.

(** X11: in the tag loop of both [convertToMarkdown], whatever the tags
    and the horizontal rules: the depth counter is the height of the
    stack, so that [Math.max(0, currentDepth - 1)] never clamps; a line
    has a depth exactly when it has a name and attributes, so that the
    line loop never reads a missing entry; and no recorded depth is
    negative. *)
Theorem resolver_tables_agree hrLines tags :
  (depthIsHeight (Masking.resolveTags hrLines tags)
   /\ tablesAgree (Masking.resolveTags hrLines tags))
  /\ (depthIsHeight (Legacy.resolveTags hrLines tags)
      /\ tablesAgree (Legacy.resolveTags hrLines tags)).
Proof.
  assert (depthIsHeight initResolver) as Hd by done.
  assert (tablesAgree initResolver) as Ht.
  { split; intros i; simpl; rewrite ?lookup_empty; [|done].
    split; by intros [? ?]. }
  split.
  - apply (resolve_tables (fun tag r => fold_left (Masking.resetAtRule tag) hrLines r));
      [intros; apply Masking_check_tables | intros; by apply Masking_reset_depth
      | done | done].
  - apply (resolve_tables
             (fun tag r => if 0 <? line tag
                           then fold_left (Legacy.resetAtRule tag) hrLines r else r));
      [intros; apply Legacy_check_tables | intros; by apply Legacy_check_depth
      | done | done].
Qed.

(** X12: what the tag loop of both [convertToMarkdown] leaves in its
    tables: a line is a section end exactly when a closing tag was
    recorded on it, and it has a depth exactly when an opening or a
    self-closing tag was; the horizontal rules change neither. *)
Theorem resolver_lines hrLines tags i :
  (i ∈ tagEndLines (Masking.resolveTags hrLines tags)
   <-> exists t, t ∈ tags /\ endsSection t = true /\ line t = i)
  /\ (is_Some (tagDepthMap (Masking.resolveTags hrLines tags) !! i)
      <-> exists t, t ∈ tags /\ beginsSection t = true /\ line t = i)
  /\ (i ∈ tagEndLines (Legacy.resolveTags hrLines tags)
      <-> exists t, t ∈ tags /\ endsSection t = true /\ line t = i)
  /\ (is_Some (tagDepthMap (Legacy.resolveTags hrLines tags) !! i)
      <-> exists t, t ∈ tags /\ beginsSection t = true /\ line t = i).
Proof.
  destruct (resolve_lines (fun tag r => fold_left (Masking.resetAtRule tag) hrLines r)
              (Masking_check_tables hrLines) tags initResolver i) as [M1 M2].
  destruct (resolve_lines
              (fun tag r => if 0 <? line tag
                            then fold_left (Legacy.resetAtRule tag) hrLines r else r)
              (Legacy_check_tables hrLines) tags initResolver i) as [L1 L2].
  simpl in M1, M2, L1, L2. rewrite lookup_empty in M2, L2.
  repeat split; intros H;
    first [ apply M1 in H as [?%elem_of_empty|?]; done
          | apply M2 in H as [[? ?]|?]; done
          | apply L1 in H as [?%elem_of_empty|?]; done
          | apply L2 in H as [[? ?]|?]; done
          | apply M1; by right | apply M2; by right
          | apply L1; by right | apply L2; by right ].
Qed.

(** ** The structure is recorded in document order *)

Lemma ordered_nil {A} (R : A -> A -> Prop) : ordered R [].
Proof. intros i j a b H. by rewrite lookup_nil in H. Qed.

Lemma ordered_app {A} (R : A -> A -> Prop) l1 l2 :
  ordered R l1 -> ordered R l2 ->
  (forall a b, a ∈ l1 -> b ∈ l2 -> R a b) ->
  ordered R (l1 ++ l2).
Proof.
  intros H1 H2 H12 i j a b Ha Hb Hij.
  apply lookup_app_Some in Ha as [Ha | [Hi Ha]];
    apply lookup_app_Some in Hb as [Hb | [Hj Hb]].
  - by apply (H1 i j).
  - apply H12; by eapply list_elem_of_lookup_2.
  - apply lookup_lt_Some in Hb. lia.
  - apply (H2 (i - length l1) (j - length l1)); [done | done | lia].
Qed.

Lemma ordered_same {A} (f : A -> nat) l :
  (forall a b, a ∈ l -> b ∈ l -> f a = f b) -> ordered (fun a b => f a <= f b) l.
Proof.
  intros H i j a b Ha Hb _.
  rewrite (H a b); [done | by eapply list_elem_of_lookup_2..].
Qed.

Lemma headerOfLine_line i l h : h ∈ headerOfLine i l -> hline h = i.
Proof.
  unfold headerOfLine. destruct (regexMatch headerRegex l); [|by intros ?%elem_of_nil].
  by intros ->%list_elem_of_singleton.
Qed.

Lemma headerOfLine_ordered i l : ordered (fun a b => hline a < hline b) (headerOfLine i l).
Proof.
  unfold headerOfLine. destruct (regexMatch headerRegex l); [|apply ordered_nil].
  intros [|i'] [|j] a b Ha Hb Hij; simpl in *; try done; lia.
Qed.

Section ExtractorOrder.

Variable tagsOfLine : nat -> jsstring -> list XmlTag.
Hypothesis tagsOfLine_line : forall i l t, t ∈ tagsOfLine i l -> line t = i.

Lemma lineStructure_lines i l b :
  let s := lineStructure tagsOfLine i l b in
  (forall t, t ∈ xmlTags s -> line t = i)
  /\ (forall h, h ∈ headers s -> hline h = i)
  /\ (forall k, k ∈ horizontalRules s -> k = i)
  /\ ordered (fun a b => line a <= line b) (xmlTags s)
  /\ ordered (fun a b => hline a < hline b) (headers s)
  /\ ordered lt (horizontalRules s).
Proof.
  unfold lineStructure. repeat case_match; simpl;
    repeat split; try (intros *; by intros ?%elem_of_nil); try apply ordered_nil.
  - by intros k ->%list_elem_of_singleton.
  - intros [|i'] [|j] a b' Ha Hb Hij; simpl in *; try done; lia.
  - apply tagsOfLine_line.
  - apply headerOfLine_line.
  - apply ordered_same. intros a b' Ha Hb.
    by rewrite (tagsOfLine_line _ _ _ Ha), (tagsOfLine_line _ _ _ Hb).
  - apply headerOfLine_ordered.
Qed.

Lemma parseLines_lower lines i b :
  let s := parseLinesWith tagsOfLine lines i b emptyStructure in
  (forall t, t ∈ xmlTags s -> i <= line t < i + length lines)
  /\ (forall h, h ∈ headers s -> i <= hline h < i + length lines)
  /\ (forall k, k ∈ horizontalRules s -> i <= k < i + length lines).
Proof.
  simpl. split; [|split].
  - intros t Ht. apply parseLines_tag_origin in Ht as (k & l & Hk & Ht).
    apply tagsOfLine_line in Ht. apply lookup_lt_Some in Hk. lia.
  - apply parseLines_header_lines.
  - apply parseLines_rule_lines.
Qed.

Lemma parseLines_ordered lines i b :
  inDocumentOrder (parseLinesWith tagsOfLine lines i b emptyStructure) (i + length lines).
Proof.
  destruct (parseLines_lower lines i b) as (B1 & B2 & B3).
  unfold inDocumentOrder.
  split; [|split; [|split; [|split; [|split]]]];
    try (intros x Hx; first [apply B1 in Hx | apply B2 in Hx | apply B3 in Hx]; lia).
  all: clear B1 B2 B3; revert i b; induction lines as [|l lines IH]; intros i b;
    [apply ordered_nil|]; rewrite parseLines_cons;
    destruct (lineStructure_lines i l b) as (L1 & L2 & L3 & O1 & O2 & O3);
    destruct (parseLines_lower lines (S i) (if isFenceLine l then negb b else b))
      as (B1 & B2 & B3);
    simpl; apply ordered_app; try done; try apply IH.
  - intros a b' Ha Hb. apply L1 in Ha. apply B1 in Hb. lia.
  - intros a b' Ha Hb. apply L2 in Ha. apply B2 in Hb. lia.
  - intros a b' Ha Hb. apply L3 in Ha. apply B3 in Hb. lia.
Qed.

End ExtractorOrder.

(** X13: both extractors record the structure in document order: the
    tags by line (several on a line at most), the headers and the
    horizontal rules by line and one on a line at most, all on lines of
    the document. *)
Theorem extractor_document_order :
  (forall text,
     inDocumentOrder (Masking.parseDocumentText text) (length (splitLines text)))
  /\ (forall document,
        inDocumentOrder (Legacy.parseDocument document) (length (lineTexts document))).
Proof.
  split.
  - intros text. apply (parseLines_ordered _ Masking_tagsOfLine_line _ 0 false).
  - intros document. apply (parseLines_ordered _ Legacy_tagsOfLine_line _ 0 false).
Qed.

Lemma insertHeader_last h acc :
  (forall h', h' ∈ acc -> hline h' <= hline h) -> insertHeader h acc = acc ++ [h].
Proof.
  induction acc as [|h' acc IH]; intros H; simpl; [done|].
  destruct (Nat.leb_spec (hline h') (hline h)) as [_|Hlt].
  - rewrite IH; [done|]. intros x Hx. apply H. by right.
  - assert (hline h' <= hline h) by (apply H; by left). lia.
Qed.

Lemma sortHeaders_ordered l :
  ordered (fun a b => hline a < hline b) l -> sortHeaders l = l.
Proof.
  unfold sortHeaders. intros H.
  assert (forall acc, ordered (fun a b => hline a < hline b) (acc ++ l) ->
            fold_left (fun acc h => insertHeader h acc) l acc = acc ++ l) as Hgen.
  { clear H. induction l as [|h l IH]; intros acc H; simpl; [by rewrite app_nil_r|].
    rewrite insertHeader_last.
    - rewrite IH; rewrite <- app_assoc; done.
    - intros h' Hh'. apply list_elem_of_lookup_1 in Hh' as [i Hi].
      apply Nat.lt_le_incl. apply (H i (length acc) h' h).
      + by apply lookup_app_l_Some.
      + by rewrite lookup_app_r, Nat.sub_diag by lia.
      + by apply lookup_lt_Some in Hi. }
  by apply (Hgen []).
Qed.

Lemma setOf_ordered l seen :
  ordered lt l -> (forall x y, x ∈ seen -> y ∈ l -> x < y) -> setOf l seen = l.
Proof.
  revert seen. induction l as [|x l IH]; intros seen Ho Hs; simpl; [done|].
  rewrite bool_decide_eq_false_2.
  - f_equal. apply IH.
    + intros i j a b Ha Hb Hij. apply (Ho (S i) (S j)); [done | done | lia].
    + intros a b [->|Ha]%elem_of_cons Hb.
      * apply list_elem_of_lookup_1 in Hb as [j Hj]. apply (Ho 0 (S j)); [done | done | lia].
      * apply Hs; [done | by right].
  - intros Hx. assert (x < x) by (apply Hs; [done | by left]). lia.
Qed.

(** X14: the headers and the horizontal rules of a structure come sorted
    and without repetition from both extractors, so that the sort of
    [provideFoldingRanges] and the set of [convertToMarkdown] leave them
    as they are. *)
Theorem structure_needs_no_sorting :
  (forall text,
     sortHeaders (headers (Masking.parseDocumentText text))
       = headers (Masking.parseDocumentText text)
     /\ setOf (horizontalRules (Masking.parseDocumentText text)) []
       = horizontalRules (Masking.parseDocumentText text))
  /\ (forall document,
        sortHeaders (headers (Legacy.parseDocument document))
          = headers (Legacy.parseDocument document)
        /\ setOf (horizontalRules (Legacy.parseDocument document)) []
          = horizontalRules (Legacy.parseDocument document)).
Proof.
  split.
  - intros text.
    destruct (parseLines_ordered _ Masking_tagsOfLine_line (splitLines text) 0 false)
      as (_ & H2 & H3 & _).
    split; [by apply sortHeaders_ordered|].
    apply setOf_ordered; [done|]. by intros x y ?%elem_of_nil.
  - intros document.
    destruct (parseLines_ordered _ Legacy_tagsOfLine_line (lineTexts document) 0 false)
      as (_ & H2 & H3 & _).
    split; [by apply sortHeaders_ordered|].
    apply setOf_ordered; [done|]. by intros x y ?%elem_of_nil.
Qed.

(** ** Inside a fenced code block *)

(** X15: in a text without carriage returns, line separators and
    paragraph separators, a line strictly inside a fenced code block is
    pushed by [convertToMarkdown] as it is, and [parseDocumentText] records
    no tag, no header and no horizontal rule on it.  (With a line
    separator after a fence the two disagree, see C1.) *)
Theorem code_block_lines_pass text pre l post :
  13%N ∉ text -> 8232%N ∉ text -> 8233%N ∉ text ->
  splitLines text = pre ++ l :: post ->
  blockState isFenceLine false pre = true ->
  isFenceLine l = false ->
  Masking_pushedAt text (length pre) = Some [l]
  /\ (forall t, t ∈ xmlTags (Masking.parseDocumentText text) -> line t <> length pre)
  /\ (forall h, h ∈ headers (Masking.parseDocumentText text) -> hline h <> length pre)
  /\ (forall n, n ∈ horizontalRules (Masking.parseDocumentText text) -> n <> length pre).
Proof.
  intros H1%not_elem_Forall H2%not_elem_Forall H3%not_elem_Forall Hs Hb Hl.
  apply (code_block_line_untouched text pre l post); try done.
  assert (Forall (Forall (fun c => isDot c = true)) (splitLines text)) as Hdot.
  { pose proof (splitFrom_no_lf [] text (Forall_nil_2 _)) as Hlf.
    apply Forall_lines with (P := fun c => c <> 13%N) in H1.
    apply Forall_lines with (P := fun c => c <> 8232%N) in H2.
    apply Forall_lines with (P := fun c => c <> 8233%N) in H3.
    unfold splitLines in *. rewrite Forall_forall in *. intros x Hx.
    specialize (Hlf x Hx). specialize (H1 x Hx). specialize (H2 x Hx).
    specialize (H3 x Hx). rewrite Forall_forall in *. intros c Hc.
    specialize (Hlf c Hc). specialize (H1 c Hc). specialize (H2 c Hc).
    specialize (H3 c Hc). unfold isDot, isLineTerminator.
    apply N.eqb_neq in Hlf, H1, H2, H3. by rewrite Hlf, H1, H2, H3. }
  rewrite Hs in Hdot.
  assert (pre ++ l :: post = (pre ++ [l]) ++ post) as E by by rewrite <- app_assoc.
  rewrite E in Hdot. apply Forall_app in Hdot as [Hdot _].
  eapply Forall_impl; [exact Hdot|]. intros x Hx. by apply fence_tests_agree.
Qed.

Lemma code_block_lines_pass_witness :
  let text := join [10%N] [str "~~~"; str "<a>  "; str "~~~"] in
  Masking_pushedAt text 1 = Some [str "<a>  "]
  /\ (forall t, t ∈ xmlTags (Masking.parseDocumentText text) -> line t <> 1).
Proof.
  intros text.
  refine (let H := code_block_lines_pass text [str "~~~"] (str "<a>  ") [str "~~~"]
                     _ _ _ _ _ _ in conj (proj1 H) (proj1 (proj2 H)));
    first [ by vm_compute | apply not_elem_Forall; by vm_compute; repeat constructor ].
Defined.

(** ** The matcher follows the declarative reading on states *)

Lemma matcher_Eps total x k : matcher total Eps x k = k x.
Proof. done. Qed.

Lemma matcher_Bref total n x k :
  matcher total (Bref n) x k =
  match caps x !! n with
  | None => k x
  | Some w =>
      match stripPrefix w (rest x) with
      | Some t => k (MState t (caps x))
      | None => None
      end
  end.
Proof. done. Qed.

Lemma matcher_Bol total x k :
  matcher total Bol x k = if length (rest x) =? total then k x else None.
Proof. done. Qed.

Lemma matcher_Eol total x k :
  matcher total Eol x k = match rest x with [] => k x | _ :: _ => None end.
Proof. done. Qed.

Lemma starLoop_steps P ma greedy k :
  SoundSt P ma ->
  forall fuel mx x z, starLoop ma greedy k fuel mx x = Some z ->
    exists y, RepsSt P 0 mx x y /\ k y = Some z.
Proof.
  intros Hma. induction fuel as [|fuel IH]; intros mx x z; simpl;
    destruct (isZero mx) eqn:Hz.
  - intros Hk. exists x. split; [constructor | done].
  - assert (Hd : forall d' z', (forall y, d' y = None) -> ma x d' = Some z' -> False).
    { intros d' z' Hd' H. apply Hma in H as (y & _ & Hy). by rewrite Hd' in Hy. }
    destruct greedy.
    + destruct (ma x _) eqn:E.
      * exfalso. eapply Hd; [|exact E]. intros y. simpl. by case_match.
      * intros Hk. exists x. split; [constructor | done].
    + destruct (k x) eqn:Ek.
      * intros [= <-]. exists x. split; [constructor | done].
      * intros E. exfalso. eapply Hd; [|exact E]. intros y. simpl. by case_match.
  - intros Hk. exists x. split; [constructor | done].
  - assert (Hround : forall z', ma x (fun y =>
              if length (rest y) <? length (rest x)
              then starLoop ma greedy k fuel (predMax mx) y else None) = Some z' ->
            exists y, RepsSt P 0 mx x y /\ k y = Some z').
    { intros z' H. apply Hma in H as (y & HP & Hy).
      destruct (Nat.ltb_spec (length (rest y)) (length (rest x))); [|done].
      apply IH in Hy as (y' & HR & Hy'). exists y'. split; [|done].
      eapply RepsSt_optional; eauto. }
    destruct greedy.
    + destruct (ma x _) eqn:E.
      * intros [= <-]. by apply Hround.
      * intros Hk. exists x. split; [constructor | done].
    + destruct (k x) eqn:Ek.
      * intros [= <-]. exists x. split; [constructor | done].
      * apply Hround.
Qed.

Lemma requiredLoop_steps P ma greedy k :
  SoundSt P ma ->
  forall mn mx x z, requiredLoop ma greedy k mn mx x = Some z ->
    exists y, RepsSt P mn mx x y /\ k y = Some z.
Proof.
  intros Hma. induction mn as [|mn IH]; intros mx x z; simpl.
  - apply starLoop_steps, Hma.
  - destruct (isZero mx) eqn:Hz.
    + intros Hk. exists x. split; [|done].
      destruct mx as [[|?]|]; try done. apply RepsSt_full.
    + intros H. apply Hma in H as (y & HP & Hy).
      apply IH in Hy as (y' & HR & Hy'). exists y'. split; [|done].
      eapply RepsSt_required; eauto.
Qed.

Lemma matcher_steps total r : SoundSt (steps total r) (matcher total r).
Proof.
  induction r; intros x k z.
  - rewrite matcher_Eps. intros Hk. by exists x.
  - rewrite matcher_Chr. destruct (rest x) as [|c t] eqn:Ex; [done|].
    destruct (p c) eqn:Ep; [|done].
    intros Hk. exists (MState t (caps x)). split; [|done]. by exists c, t.
  - rewrite matcher_Seq. intros H.
    apply IHr1 in H as (m & Hm & H). apply IHr2 in H as (y & Hy & H).
    exists y. split; [|done]. by exists m.
  - rewrite matcher_Alt. destruct (matcher total r1 x k) eqn:E.
    + intros [= <-]. apply IHr1 in E as (y & Hy & H). exists y. simpl. tauto.
    + intros H. apply IHr2 in H as (y & Hy & H). exists y. simpl. tauto.
  - rewrite matcher_Rep. intros H.
    eapply requiredLoop_steps in H; [exact H|].
    intros x' k' z' H'. by apply IHr in H'.
  - rewrite matcher_Grp. intros H. apply IHr in H as (y & Hy & H).
    eexists (MState _ _). split; [|exact H]. by exists y.
  - rewrite matcher_Bref. simpl. destruct (caps x !! n) as [w|]; [|intros Hk; by exists x].
    destruct (stripPrefix w (rest x)) as [t|] eqn:E; [|done].
    intros Hk. exists (MState t (caps x)). split; [by exists t | done].
  - rewrite matcher_Bol.
    destruct (Nat.eqb_spec (length (rest x)) total); [|done]. intros Hk. by exists x.
  - rewrite matcher_Eol. destruct (rest x) eqn:Ex; [|done]. intros Hk. by exists x.
Qed.

(** A match consumes a prefix of the input ahead. *)
Lemma stripPrefix_app w s t : stripPrefix w s = Some t -> s = w ++ t.
Proof.
  revert s. induction w as [|c w IH]; intros [|d s]; simpl; try done.
  - by intros [= ->].
  - by intros [= ->].
  - destruct (N.eqb_spec c d) as [->|]; [|done]. intros H. by rewrite (IH _ H).
Qed.

Lemma RepsSt_suffix (P : mstate -> mstate -> Prop) mn mx x y :
  (forall a b, P a b -> exists w, rest a = w ++ rest b) ->
  RepsSt P mn mx x y -> exists w, rest x = w ++ rest y.
Proof.
  intros HP. induction 1 as [| |? ? ? ? ? _ H1 _ IH|? ? ? ? _ H1 _ _ IH];
    try by exists [].
  - apply HP in H1 as (w1 & ->). destruct IH as (w2 & ->).
    exists (w1 ++ w2). by rewrite app_assoc.
  - apply HP in H1 as (w1 & ->). destruct IH as (w2 & ->).
    exists (w1 ++ w2). by rewrite app_assoc.
Qed.

Lemma steps_suffix total r x y : steps total r x y -> exists w, rest x = w ++ rest y.
Proof.
  revert x y. induction r; intros x y; simpl.
  - intros ->. by exists [].
  - intros (c & t & -> & _ & ->). by exists [c].
  - intros (m & (w1 & ->)%IHr1 & (w2 & ->)%IHr2). exists (w1 ++ w2). by rewrite app_assoc.
  - intros [H|H]; eauto.
  - apply RepsSt_suffix. intros a b H. by apply IHr in H.
  - intros (m & (w & ->)%IHr & ->). by exists w.
  - destruct (caps x !! n) as [w|]; [|intros ->; by exists []].
    intros (t & Ht%stripPrefix_app & ->). by exists w.
  - intros [-> _]. by exists [].
  - intros [-> _]. by exists [].
Qed.

(** What [exec] returns at an index: the text it matched and the text
    after it make up the input from that index on. *)
Lemma matchHere_Some total r s mr :
  matchHere total r s = Some mr ->
  exists y, steps total r (MState s ∅) y
    /\ mindex mr = total - length s /\ s = mtext mr ++ mafter mr
    /\ mgroups mr = caps y /\ mafter mr = rest y.
Proof.
  unfold matchHere. destruct (matcher total r (MState s ∅) Some) as [y|] eqn:E; [|done].
  intros [= <-]. apply matcher_steps in E as (y' & Hy & [= ->]).
  exists y. split; [done|]. simpl. apply steps_suffix in Hy as (w & Hw). simpl in Hw.
  repeat split; try done. subst s. rewrite length_app.
  replace (length w + length (rest y) - length (rest y)) with (length w) by lia.
  by rewrite take_app_length.
Qed.

(** ** Replacing, one index after the other *)

Lemma search_from total r s mr :
  search total r s = Some mr ->
  exists skipped s1, s = skipped ++ s1 /\ matchHere total r s1 = Some mr.
Proof.
  induction s as [|c s IH]; rewrite search_eq.
  - destruct (matchHere total r []) eqn:E; [|done]. intros [= <-]. by exists [], [].
  - destruct (matchHere total r (c :: s)) eqn:E.
    + intros [= <-]. by exists [], (c :: s).
    + intros (skipped & s1 & -> & H)%IH. by exists (c :: skipped), s1.
Qed.

Lemma search_index total r s mr :
  search total r s = Some mr -> total - length s <= mindex mr.
Proof.
  intros (skipped & s1 & -> & H)%search_from.
  apply matchHere_Some in H as (y & _ & -> & _). rewrite length_app. lia.
Qed.

Lemma matchesFrom_skip total r c t :
  matchHere total r (c :: t) = None ->
  matchesFrom (S (S (length t))) total r (c :: t) = matchesFrom (S (length t)) total r t.
Proof.
  intros H. rewrite !matchesFrom_S. rewrite (search_eq total r (c :: t)), H.
  destruct (search total r t) as [mr|] eqn:E; [|done]. f_equal.
  apply search_after in E as [Hle Hlt].
  destruct (mtext mr) eqn:Et.
  - destruct (mafter mr) eqn:Ea; [done|]. simpl in Hle.
    apply matchesFrom_fuel; lia.
  - assert (length (mafter mr) < length t) by by apply Hlt.
    apply matchesFrom_fuel; lia.
Qed.

Lemma spliceMatches_skip s pos c ms f :
  s !! pos = Some c -> (forall mr, head ms = Some mr -> pos < mindex mr) ->
  spliceMatches s pos ms f = c :: spliceMatches s (S pos) ms f.
Proof.
  intros Hc Hms. destruct ms as [|mr ms]; simpl.
  - by apply drop_S.
  - specialize (Hms mr eq_refl). rewrite (drop_S _ _ _ Hc).
    replace (mindex mr - pos) with (S (mindex mr - S pos)) by lia. done.
Qed.

Lemma spliceMatchesSt_skip {S} s pos c ms (f : S -> MatchResult -> S * jsstring) st :
  s !! pos = Some c -> (forall mr, head ms = Some mr -> pos < mindex mr) ->
  spliceMatchesSt s pos ms f st =
  (c :: (spliceMatchesSt s (Datatypes.S pos) ms f st).1,
   (spliceMatchesSt s (Datatypes.S pos) ms f st).2).
Proof.
  intros Hc Hms. destruct ms as [|mr ms]; simpl.
  - by rewrite (drop_S _ _ _ Hc).
  - specialize (Hms mr eq_refl). rewrite (drop_S _ _ _ Hc).
    replace (mindex mr - pos) with (Datatypes.S (mindex mr - Datatypes.S pos)) by lia.
    destruct (f st mr) as [st1 out].
    by destruct (spliceMatchesSt s (mindex mr + length (mtext mr)) ms f st1).
Qed.

Section ReplaceFrom.

Variable r : regex.

Lemma skip_matches pre c t :
  matchHere (length (pre ++ c :: t)) r (c :: t) = None ->
  matchesFrom (S (length (c :: t))) (length (pre ++ c :: t)) r (c :: t)
    = matchesFrom (S (length t)) (length ((pre ++ [c]) ++ t)) r t
  /\ (pre ++ c :: t) !! length pre = Some c
  /\ forall mr,
       head (matchesFrom (S (length t)) (length ((pre ++ [c]) ++ t)) r t) = Some mr ->
       length pre < mindex mr.
Proof.
  intros H. rewrite <- (app_assoc pre [c] t). simpl. split; [|split].
  - by apply matchesFrom_skip.
  - by rewrite lookup_app_r, Nat.sub_diag by lia.
  - intros mr. rewrite matchesFrom_S.
    destruct (search _ r t) as [mr'|] eqn:E; [|done]. intros [= <-].
    apply search_index in E. rewrite length_app in E. simpl in E. lia.
Qed.

Lemma match_matches pre suf mr :
  matchHere (length (pre ++ suf)) r suf = Some mr -> mtext mr <> [] ->
  suf = mtext mr ++ mafter mr
  /\ mindex mr = length pre
  /\ matchesFrom (S (length suf)) (length (pre ++ suf)) r suf
     = mr :: matchesFrom (S (length (mafter mr)))
               (length ((pre ++ mtext mr) ++ mafter mr)) r (mafter mr).
Proof.
  intros H Hne. apply matchHere_Some in H as Hmr.
  destruct Hmr as (y & _ & Hi & Hs & _). split; [done|]. split.
  { rewrite Hi, length_app. lia. }
  rewrite matchesFrom_S, search_eq, H. f_equal.
  rewrite <- app_assoc, <- Hs.
  assert (length (mafter mr) < length suf) as Hlt.
  { apply (f_equal (@length _)) in Hs. rewrite length_app in Hs.
    destruct (mtext mr); [done | simpl in Hs; lia]. }
  destruct (mtext mr); [done|]. apply matchesFrom_fuel; lia.
Qed.

Lemma replaceFrom_nil f pre :
  matchHere (length (pre ++ [])) r [] = None -> replaceFrom r f pre [] = [].
Proof.
  intros H. unfold replaceFrom. rewrite matchesFrom_S, search_eq, H. simpl.
  rewrite app_nil_r. apply drop_all.
Qed.

Lemma replaceFrom_skip f pre c t :
  matchHere (length (pre ++ c :: t)) r (c :: t) = None ->
  replaceFrom r f pre (c :: t) = c :: replaceFrom r f (pre ++ [c]) t.
Proof.
  intros H. destruct (skip_matches pre c t H) as (E & Hc & Hi).
  unfold replaceFrom. rewrite E.
  rewrite (spliceMatches_skip _ _ c) by done.
  rewrite (length_app pre [c]), Nat.add_1_r. by rewrite <- (app_assoc pre [c] t).
Qed.

Lemma replaceFrom_match f pre suf mr :
  matchHere (length (pre ++ suf)) r suf = Some mr -> mtext mr <> [] ->
  replaceFrom r f pre suf = f mr ++ replaceFrom r f (pre ++ mtext mr) (mafter mr).
Proof.
  intros H Hne. destruct (match_matches pre suf mr H Hne) as (Hs & Hi & E).
  assert (pre ++ suf = (pre ++ mtext mr) ++ mafter mr) as Hps
    by (rewrite <- app_assoc; congruence).
  unfold replaceFrom. rewrite E. cbn [spliceMatches]. rewrite Hi, Nat.sub_diag.
  by rewrite (length_app pre), Hps.
Qed.

Lemma replaceFromSt_nil {S} (f : S -> MatchResult -> S * jsstring) pre st :
  matchHere (length (pre ++ [])) r [] = None -> replaceFromSt r f pre [] st = ([], st).
Proof.
  intros H. unfold replaceFromSt. rewrite matchesFrom_S, search_eq, H. simpl.
  by rewrite app_nil_r, drop_all.
Qed.

Lemma replaceFromSt_skip {S} (f : S -> MatchResult -> S * jsstring) pre c t st :
  matchHere (length (pre ++ c :: t)) r (c :: t) = None ->
  replaceFromSt r f pre (c :: t) st =
  (c :: (replaceFromSt r f (pre ++ [c]) t st).1, (replaceFromSt r f (pre ++ [c]) t st).2).
Proof.
  intros H. destruct (skip_matches pre c t H) as (E & Hc & Hi).
  unfold replaceFromSt. rewrite E.
  rewrite (spliceMatchesSt_skip _ _ c) by done.
  rewrite (length_app pre [c]), Nat.add_1_r. by rewrite <- (app_assoc pre [c] t).
Qed.

Lemma replaceFromSt_match {S} (f : S -> MatchResult -> S * jsstring) pre suf mr st :
  matchHere (length (pre ++ suf)) r suf = Some mr -> mtext mr <> [] ->
  replaceFromSt r f pre suf st =
  ((f st mr).2 ++ (replaceFromSt r f (pre ++ mtext mr) (mafter mr) (f st mr).1).1,
   (replaceFromSt r f (pre ++ mtext mr) (mafter mr) (f st mr).1).2).
Proof.
  intros H Hne. destruct (match_matches pre suf mr H Hne) as (Hs & Hi & E).
  assert (pre ++ suf = (pre ++ mtext mr) ++ mafter mr) as Hps
    by (rewrite <- app_assoc; congruence).
  unfold replaceFromSt. rewrite E. cbn [spliceMatchesSt]. rewrite Hi, Nat.sub_diag.
  destruct (f st mr) as [st1 out]. cbn [fst snd].
  rewrite (length_app pre), Hps.
  by destruct (spliceMatchesSt _ _ _ f st1).
Qed.

End ReplaceFrom.

Lemma replaceAll_from r s f : replaceAll r s f = replaceFrom r f [] s.
Proof. done. Qed.

Lemma replaceAllSt_from {S} r s (f : S -> MatchResult -> S * jsstring) st :
  replaceAllSt r s f st = replaceFromSt r f [] s st.
Proof. done. Qed.

(** ** Escaping underscores *)

Lemma matchHere_Chr total p s :
  matchHere total (Chr p) s =
  match s with
  | c :: t => if p c then Some (MkMatch (total - length s) [c] ∅ t) else None
  | [] => None
  end.
Proof.
  unfold matchHere. rewrite matcher_Chr. destruct s as [|c t]; [done|].
  simpl. destruct (p c); [|done]. simpl.
  by replace (S (length t) - length t) with 1 by lia.
Qed.

Lemma replaceFrom_Chr p w pre suf :
  replaceFrom (Chr p) (fun _ => w) pre suf
  = concat (List.map (fun c => if p c then w else [c]) suf).
Proof.
  revert pre. induction suf as [|c t IH]; intros pre.
  - apply replaceFrom_nil. by rewrite matchHere_Chr.
  - simpl. destruct (p c) eqn:E.
    + rewrite (replaceFrom_match _ _ _ _ (MkMatch (length (pre ++ c :: t) - length (c :: t)) [c] ∅ t));
        [|by rewrite matchHere_Chr, E|done].
      simpl. by rewrite IH.
    + rewrite replaceFrom_skip by (by rewrite matchHere_Chr, E).
      by rewrite IH.
Qed.

(** X16: [escapeMarkdownInHeader], and the same replacement applied to
    tag names and attribute keys by [convertToMarkdown], put a backslash
    before every underscore and change nothing else. *)
Theorem escape_underscores text :
  LineBased.escapeMarkdownInHeader text
    = concat (List.map (fun c => if (c =? 95)%N then [92%N; 95%N] else [c]) text)
  /\ escapeUnderscore text = LineBased.escapeMarkdownInHeader text.
Proof.
  split; [|done]. unfold LineBased.escapeMarkdownInHeader.
  rewrite replaceAll_from. apply (replaceFrom_Chr (isCh "_")).
Qed.

(** ** Placeholders *)

(** The index written into a placeholder is the index read back. *)
Lemma digitsOf_spec n :
  N.to_nat (parseInt (digitsOf n)) = n
  /\ Forall (fun c => isDigit c = true) (digitsOf n)
  /\ digitsOf n <> [].
Proof.
  pose (step := fun (acc : N) (c : char) => (acc * 10 + (c - 48))%N).
  pose (go := fix go (fuel n : nat) (acc : jsstring) {struct fuel} : jsstring :=
     match fuel with
     | 0 => acc
     | S fuel' =>
         let acc' := (48 + N.of_nat (n mod 10))%N :: acc in
         if n / 10 =? 0 then acc' else go fuel' (n / 10) acc'
     end).
  change (N.to_nat (fold_left step (go (S n) n []) 0%N) = n
          /\ Forall (fun c => isDigit c = true) (go (S n) n [])
          /\ go (S n) n [] <> []).
  assert (forall m, isDigit (48 + N.of_nat (m mod 10))%N = true) as Hdigit.
  { intros m. unfold isDigit. pose proof (Nat.mod_upper_bound m 10).
    apply andb_true_intro. split; apply N.leb_le; lia. }
  assert (forall fuel m acc, m < fuel ->
            fold_left step (go fuel m acc) 0%N = fold_left step acc (N.of_nat m)
            /\ (Forall (fun c => isDigit c = true) acc ->
                Forall (fun c => isDigit c = true) (go fuel m acc))
            /\ go fuel m acc <> []) as Hgo.
  { assert (forall fuel m acc, go (S fuel) m acc =
              if m / 10 =? 0 then (48 + N.of_nat (m mod 10))%N :: acc
              else go fuel (m / 10) ((48 + N.of_nat (m mod 10))%N :: acc)) as Heq by done.
    induction fuel as [|fuel IH]; intros m acc Hm; [lia|]. rewrite Heq.
    pose proof (Nat.div_mod_eq m 10) as Hdm.
    destruct (Nat.eqb_spec (m / 10) 0) as [Hz|Hnz].
    - split; [|split; [by constructor | done]].
      cbn [fold_left]. unfold step at 2. f_equal. lia.
    - destruct (IH (m / 10) ((48 + N.of_nat (m mod 10))%N :: acc)) as (E & HF & Hne).
      { assert (m / 10 < m) by (apply Nat.div_lt; lia). lia. }
      split; [|split; [intros; apply HF; by constructor | done]].
      rewrite E. cbn [fold_left]. unfold step at 2. f_equal. lia. }
  destruct (Hgo (S n) n [] (Nat.lt_succ_diag_r n)) as (E & HF & Hne).
  repeat split; [|by apply HF|done]. rewrite E. simpl. lia.
Qed.

(** A greedy repetition of a character class takes the whole run when
    the continuation accepts what follows it. *)
Lemma starLoop_class_greedy total p k t cps z w :
  Forall (fun c => p c = true) w ->
  (forall c t', t = c :: t' -> p c = false) ->
  k (MState t cps) = Some z ->
  forall fuel, length (w ++ t) <= fuel ->
    starLoop (fun y k' => matcher total (Chr p) (clearCaps (groupsOf (Chr p)) y) k')
      true k fuel None (MState (w ++ t) cps) = Some z.
Proof.
  intros Hw Ht Hk. induction Hw as [|c w Hc _ IH]; intros fuel Hfuel.
  - assert (matcher total (Chr p) (clearCaps [] (MState t cps))
              (fun y => if length (rest y) <? length t
                        then match fuel with
                             | 0 => None
                             | S fuel' =>
                                 starLoop (fun y k' => matcher total (Chr p)
                                             (clearCaps (groupsOf (Chr p)) y) k')
                                   true k fuel' None y
                             end
                        else None) = None) as E.
    { rewrite matcher_Chr. simpl. destruct t as [|c t']; [done|].
      by rewrite (Ht c t' eq_refl). }
    destruct fuel; simpl in *; by rewrite ?E.
  - destruct fuel as [|fuel]; [simpl in Hfuel; lia|].
    cbn [starLoop isZero]. rewrite matcher_Chr. simpl. rewrite Hc.
    rewrite (proj2 (Nat.ltb_lt _ _)) by lia.
    rewrite IH; [done | simpl in Hfuel; lia].
Qed.

Lemma requiredLoop_class_greedy total p k t cps z w mn :
  Forall (fun c => p c = true) w -> mn <= length w ->
  (forall c t', t = c :: t' -> p c = false) ->
  k (MState t cps) = Some z ->
  requiredLoop (fun y k' => matcher total (Chr p) (clearCaps (groupsOf (Chr p)) y) k')
    true k mn None (MState (w ++ t) cps) = Some z.
Proof.
  intros Hw Hmn Ht Hk. revert mn Hmn. induction Hw as [|c w Hc Hw IH]; intros mn Hmn.
  - destruct mn; [|simpl in Hmn; lia]. simpl.
    by apply (starLoop_class_greedy total p k t cps z []).
  - destruct mn as [|mn].
    + cbn [requiredLoop]. apply (starLoop_class_greedy total p k t cps z (c :: w));
        [by constructor | done | done | done].
    + cbn [requiredLoop isZero]. rewrite matcher_Chr. simpl. rewrite Hc.
      apply IH. simpl in Hmn. lia.
Qed.

(** A placeholder is found where it stands, with its index captured. *)
Lemma placeholder_matchHere total n tail :
  exists mr,
    matchHere total Masking.placeholderRegex (Masking.placeholder n ++ tail) = Some mr
    /\ mtext mr = Masking.placeholder n /\ mafter mr = tail
    /\ groupOrEmpty 1 mr = digitsOf n.
Proof.
  destruct (digitsOf_spec n) as (_ & Hd & _).
  assert (matcher total Masking.placeholderRegex
            (MState (Masking.placeholder n ++ tail) ∅) Some
          = Some (MState tail (<[1 := digitsOf n]> ∅))) as E.
  { unfold Masking.placeholderRegex, Masking.placeholder.
    change (str "CODE") with [67%N; 79%N; 68%N; 69%N].
    cbn [Str app].
    repeat first [ rewrite matcher_Seq
                 | rewrite matcher_Chr; cbn [rest caps app N.eqb Pos.eqb] ].
    rewrite matcher_Eps, matcher_Grp. unfold Plus. rewrite matcher_Rep.
    cbn [rest caps]. rewrite <- app_assoc.
    apply (requiredLoop_class_greedy total isDigit _ ([0%N] ++ tail) ∅ _ (digitsOf n) 1);
      [done | | by intros c t' [= <- <-] |].
    - destruct (digitsOf_spec n) as (_ & _ & Hne). destruct (digitsOf n); [done | simpl; lia].
    - cbn [rest caps]. rewrite matcher_Chr. cbn [rest caps app N.eqb].
      rewrite length_app. simpl.
      replace (length (digitsOf n) + S (length tail) - S (length tail))
        with (length (digitsOf n)) by lia.
      by rewrite take_app_length. }
  unfold matchHere. rewrite E. eexists. split; [reflexivity|]. cbn [mtext mafter rest caps].
  split; [|split; [done|]].
  - rewrite length_app.
    replace (length (Masking.placeholder n) + length tail - length tail)
      with (length (Masking.placeholder n)) by lia.
    by rewrite take_app_length.
  - unfold groupOrEmpty, group. cbn [mgroups]. by rewrite lookup_insert_eq.
Qed.

(** ** Masking inline code and restoring it *)

Lemma placeholder_matchHere_None total c s :
  c <> 0%N -> matchHere total Masking.placeholderRegex (c :: s) = None.
Proof.
  intros Hc. apply (firstIn_matchHere (fun c => (0 =? c)%N = true)); [firstIn_solve|].
  intros ? ? [= <- <-] H%N.eqb_eq. by subst.
Qed.

Lemma placeholder_matchHere_nil total :
  matchHere total Masking.placeholderRegex [] = None.
Proof.
  apply (firstIn_matchHere (fun c => (0 =? c)%N = true)); [firstIn_solve | done].
Qed.

Section MaskUnmask.

(** The pattern of a masking pass, which matches no empty text. *)
Variable r : regex.
Hypothesis r_consumes : forall total s mr, matchHere total r s = Some mr -> mtext mr <> [].

Lemma mask_from_spec n :
  forall suf, length suf <= n -> forall pre codeBlocks,
    Forall (fun c => c <> 0%N) suf ->
    (exists extra,
       (replaceFromSt r Masking.pushCode pre suf codeBlocks).2 = codeBlocks ++ extra)
    /\ (forall pre' more,
          replaceFrom Masking.placeholderRegex
            (restoreCode ((replaceFromSt r Masking.pushCode pre suf codeBlocks).2 ++ more))
            pre' (replaceFromSt r Masking.pushCode pre suf codeBlocks).1 = suf)
    /\ (forall P : char -> Prop,
          (forall i, Forall P (Masking.placeholder i)) -> Forall P suf ->
          Forall P (replaceFromSt r Masking.pushCode pre suf codeBlocks).1).
Proof.
  induction n as [|n IH]; intros suf Hlen pre cb H0.
  - destruct suf; [|simpl in Hlen; lia].
    assert (matchHere (length (pre ++ [])) r [] = None) as E.
    { destruct (matchHere _ r []) as [mr|] eqn:E; [|done].
      apply r_consumes in E as Hne. apply matchHere_Some in E as (_ & _ & _ & Hs & _).
      by destruct (mtext mr). }
    rewrite replaceFromSt_nil by done. simpl. split; [|split].
    + exists []. by rewrite app_nil_r.
    + intros pre' more. apply replaceFrom_nil, placeholder_matchHere_nil.
    + done.
  - destruct suf as [|c t].
    { apply (IH []); [simpl; lia | done]. }
    destruct (matchHere (length (pre ++ c :: t)) r (c :: t)) as [mr|] eqn:E.
    + apply r_consumes in E as Hne.
      apply matchHere_Some in E as Hmr. destruct Hmr as (_ & _ & _ & Hs & _).
      rewrite (replaceFromSt_match _ _ _ _ mr) by done.
      change (Masking.pushCode cb mr)
        with (cb ++ [mtext mr], Masking.placeholder (length cb)). cbn [fst snd].
      assert (length (mafter mr) <= n) as Hlen'.
      { apply (f_equal (@length _)) in Hs. rewrite length_app in Hs.
        destruct (mtext mr); [done|]. simpl in *. unfold jsstring, char in *. lia. }
      assert (Forall (fun c => c <> 0%N) (mafter mr)) as H0'.
      { rewrite Hs in H0. by apply Forall_app in H0 as [_ ?]. }
      destruct (IH (mafter mr) Hlen' (pre ++ mtext mr) (cb ++ [mtext mr]) H0')
        as ((extra & E2) & U & F).
      split; [|split].
      * exists ([mtext mr] ++ extra). by rewrite E2, app_assoc.
      * intros pre' more.
        destruct (placeholder_matchHere
                    (length (pre' ++ Masking.placeholder (length cb)
                               ++ (replaceFromSt r Masking.pushCode (pre ++ mtext mr)
                                     (mafter mr) (cb ++ [mtext mr])).1))
                    (length cb)
                    (replaceFromSt r Masking.pushCode (pre ++ mtext mr)
                       (mafter mr) (cb ++ [mtext mr])).1)
          as (mr' & Hm & Ht & Ha & Hg).
        rewrite (replaceFrom_match _ _ _ _ mr' Hm) by (by rewrite Ht).
        rewrite Ht, Ha, U. transitivity (mtext mr ++ mafter mr); [|done]. f_equal.
        unfold restoreCode. rewrite Hg. destruct (digitsOf_spec (length cb)) as (-> & _).
        rewrite E2, <- !app_assoc. rewrite lookup_app_r by lia.
        by rewrite Nat.sub_diag.
      * intros P HP HF. rewrite Hs in HF. apply Forall_app in HF as [_ HF].
        apply Forall_app. split; [apply HP | by apply F].
    + rewrite replaceFromSt_skip by done. cbn [fst snd].
      inversion H0 as [|? ? Hc H0']; subst.
      destruct (IH t (le_S_n _ _ Hlen) (pre ++ [c]) cb H0') as (Hex & U & F).
      split; [done|]. split.
      * intros pre' more.
        rewrite replaceFrom_skip by (by apply placeholder_matchHere_None).
        by rewrite U.
      * intros P HP HF. inversion HF; subst. constructor; [done | by apply F].
Qed.

(** One masking pass and the restoring of its placeholders, on a text
    without the code unit 0: the text comes back. *)
Lemma mask_unmask_pass text codeBlocks :
  Forall (fun c => c <> 0%N) text ->
  replaceAll Masking.placeholderRegex
    (replaceAllSt r text Masking.pushCode codeBlocks).1
    (restoreCode (replaceAllSt r text Masking.pushCode codeBlocks).2)
  = text.
Proof.
  intros H0. rewrite replaceAll_from, replaceAllSt_from.
  destruct (mask_from_spec (length text) text (le_n _) [] codeBlocks H0) as (_ & U & _).
  specialize (U [] []). by rewrite app_nil_r in U.
Qed.

End MaskUnmask.

(** A pattern that begins with a character matches no empty text. *)
Lemma firstIn_steps P total r x y :
  firstIn P r -> steps total r x y -> length (rest y) < length (rest x).
Proof.
  intros H. revert x y. induction H as [q Hq|a b _ IH|a _ IH|a b _ IHa _ IHb|n a _ IH
    |greedy mn mx a Hz _ IH]; intros x y; simpl.
  - intros (c & t & -> & _ & ->). simpl. lia.
  - intros (m & Hm%IH & (w & Hw)%steps_suffix). rewrite Hw, length_app in Hm. lia.
  - intros (m & [-> _] & Hy). by apply IH.
  - intros [?|?]; auto.
  - intros (m & Hm%IH & ->). done.
  - inversion 1 as [| |? ? ? m ? _ Hm Hrest|]; subst; [done|].
    apply IH in Hm. simpl in Hm.
    apply RepsSt_suffix in Hrest as (w & Hw).
    + rewrite Hw, length_app in Hm. lia.
    + intros a0 b0 Hab. apply steps_suffix in Hab. by simpl in Hab.
Qed.

Lemma firstIn_consumes P r total s mr :
  firstIn P r -> matchHere total r s = Some mr -> mtext mr <> [].
Proof.
  intros Hr (y & Hy & _ & Hs & _ & Ha)%matchHere_Some Hnil.
  apply (firstIn_steps P) in Hy; [|done]. simpl in Hy.
  rewrite Hnil in Hs. simpl in Hs. rewrite <- Ha, <- Hs in Hy. lia.
Qed.

(** The first pass of [maskCodeContent] needs two backticks in a row. *)
Lemma multiBacktick_start total s mr :
  matchHere total Masking.multiBacktickRegex s = Some mr ->
  exists t, s = ch "`" :: ch "`" :: t.
Proof.
  intros (y & Hy & _)%matchHere_Some.
  unfold Masking.multiBacktickRegex, AtLeast in Hy. simpl in Hy.
  destruct Hy as (m2 & (m1 & (m0 & H & _) & _) & _).
  inversion H as [| |? ? ? a ? _ (c1 & t1 & Hx & Hc1 & ->) H'|]; subst.
  inversion H' as [| |? ? ? b ? _ (c2 & t2 & Hx2 & Hc2 & ->) _|]; subst.
  simpl in Hx, Hx2. apply N.eqb_eq in Hc1, Hc2. subst. by exists t2.
Qed.

Lemma includes_false s w :
  includes s w = false -> forall pre s1, s = pre ++ s1 -> stripPrefix w s1 = None.
Proof.
  induction s as [|c s IH]; simpl.
  - destruct (stripPrefix w []) eqn:E; [done|]. intros _ pre s1 Hs.
    symmetry in Hs. by apply app_eq_nil in Hs as [_ ->].
  - destruct (stripPrefix w (c :: s)) eqn:E; [done|]. intros H [|d pre] s1 Hs.
    + simpl in Hs. by subst.
    + injection Hs as -> ->. by apply (IH H pre).
Qed.

Lemma Masking_first_pass_nothing text :
  includes text (str "``") = false ->
  replaceAllSt Masking.multiBacktickRegex text Masking.pushCode [] = (text, []).
Proof.
  intros H. unfold replaceAllSt, allMatches. rewrite matchesFrom_S.
  destruct (search _ _ text) as [mr|] eqn:E; [|done].
  apply search_from in E as (skipped & s1 & Hs & (t & ->)%multiBacktick_start).
  by apply (includes_false _ _ H) in Hs.
Qed.

(** X17: on a text without the code unit 0 and without two backticks in
    a row, [unmaskCodeContent] undoes [maskCodeContent].  (With a
    double-backtick span inside a single-backtick span it does not, see
    C2.) *)
Theorem mask_unmask_round_trip text :
  0%N ∉ text -> includes text (str "``") = false ->
  Masking.unmaskCodeContent (Masking.maskCodeContent text).1
    (Masking.maskCodeContent text).2 = text.
Proof.
  intros H0%not_elem_Forall H2. unfold Masking.maskCodeContent.
  rewrite Masking_first_pass_nothing by done.
  apply (mask_unmask_pass Masking.singleBacktickRegex); [|done].
  intros total s mr. apply (firstIn_consumes (fun c => isCh "`" c = true)). firstIn_solve.
Qed.

Lemma mask_unmask_round_trip_witness :
  let text := str "run `a <b> c` then `d`" in
  (Masking.maskCodeContent text).1
    = str "run " ++ Masking.placeholder 0 ++ str " then " ++ Masking.placeholder 1
  /\ Masking.unmaskCodeContent (Masking.maskCodeContent text).1
       (Masking.maskCodeContent text).2 = text.
Proof.
  intros text. split; [by vm_compute|].
  apply (mask_unmask_round_trip text); [|by vm_compute].
  apply not_elem_Forall. by vm_compute; repeat constructor.
Defined.

(** ** The line-based converter on lines without tags *)

Lemma placeholder_no_tag i : Forall (fun c => isCh "<" c <> true) (Masking.placeholder i).
Proof.
  unfold Masking.placeholder. constructor; [done|].
  apply Forall_app. split; [by repeat constructor|].
  apply Forall_app. split; [|by repeat constructor].
  destruct (digitsOf_spec i) as (_ & Hd & _).
  eapply Forall_impl; [exact Hd|]. intros c Hc Hlt. unfold isDigit in Hc.
  apply N.eqb_eq in Hlt. subst c. done.
Qed.

Lemma LineBased_processContentLine_id line :
  Forall (fun c => isCh "<" c <> true) line -> Forall (fun c => c <> 0%N) line ->
  LineBased.processContentLine line = line.
Proof.
  intros H1 H0. unfold LineBased.processContentLine.
  change (fun (codeSegments : list jsstring) (mr : MatchResult) =>
            (codeSegments ++ [mtext mr],
             0%N :: str "CODE" ++ digitsOf (length codeSegments) ++ [0%N]))
    with Masking.pushCode.
  assert (forall total s mr,
            matchHere total LineBased.inlineCodeRegex s = Some mr -> mtext mr <> []) as Hr.
  { intros total s mr. apply (firstIn_consumes (fun c => isCh "`" c = true)). firstIn_solve. }
  pose proof (mask_unmask_pass _ Hr line [] H0) as U.
  destruct (mask_from_spec _ Hr (length line) line (le_n _) [] [] H0) as (_ & _ & F).
  specialize (F _ placeholder_no_tag H1). rewrite <- replaceAllSt_from in F.
  destruct (replaceAllSt LineBased.inlineCodeRegex line Masking.pushCode [])
    as [masked codeSegments]. cbn [fst snd] in *.
  rewrite (firstIn_replaceAll (fun c => isCh "<" c = true) strayTagRegex masked);
    [exact U|firstIn_solve|done].
Qed.

(** X18: [processContentLine] leaves a line without [<] and without the
    code unit 0 as it is, inline code included. *)
Theorem processContentLine_plain line :
  ch "<" ∉ line -> 0%N ∉ line -> LineBased.processContentLine line = line.
Proof.
  intros H1%not_elem_isCh H0%not_elem_Forall. by apply LineBased_processContentLine_id.
Qed.

Lemma processContentLine_plain_witness :
  LineBased.processContentLine (str "call `f(x)` and `g`") = str "call `f(x)` and `g`".
Proof.
  apply (processContentLine_plain (str "call `f(x)` and `g`"));
    apply not_elem_Forall; by vm_compute; repeat constructor.
Defined.

Lemma LineBased_processLine_plain line tagStack :
  Forall (fun c => isCh "<" c <> true) line -> Forall (fun c => c <> 0%N) line ->
  LineBased.processLine line tagStack
  = (match trim line with [] => [] | _ :: _ => line end, tagStack).
Proof.
  intros H1 H0. unfold LineBased.processLine. cbv zeta.
  destruct (trim line) as [|c t] eqn:Et; [done|].
  assert (forall r, firstIn (fun c => isCh "<" c = true) r ->
            regexMatch r (c :: t) = None) as Hn.
  { intros r Hr. unfold regexMatch.
    apply (firstIn_search (fun c => isCh "<" c = true)); [done|].
    rewrite <- Et. by apply trim_Forall. }
  rewrite (Hn LineBased.standaloneClosingRegex) by firstIn_solve.
  rewrite (Hn LineBased.standaloneOpeningRegex) by firstIn_solve.
  rewrite (Hn LineBased.inlineTagRegex) by firstIn_solve.
  rewrite (Hn LineBased.openingWithContentRegex) by firstIn_solve.
  by rewrite LineBased_processContentLine_id.
Qed.

Lemma LineBased_convertLines_plain lines st :
  Forall (fun l => Forall (fun c => isCh "<" c <> true) l
                   /\ Forall (fun c => c <> 0%N) l) lines ->
  exists out,
    concat (LineBased.convertLines lines st) = out
    /\ Forall2 (fun line pushed => pushed = line \/ (trim line = [] /\ pushed = []))
         lines out.
Proof.
  intros H. revert st. induction H as [|l lines [H1 H0] _ IH]; intros st.
  { exists []. by split; [|constructor]. }
  cbn [LineBased.convertLines]. unfold LineBased.convertLine.
  destruct st as [fence tagStack]. rewrite LineBased_processLine_plain by done.
  assert (forall st', exists out,
            concat ([l] :: LineBased.convertLines lines st') = out
            /\ Forall2 (fun line pushed => pushed = line \/ (trim line = [] /\ pushed = []))
                 (l :: lines) out) as Hsame.
  { intros st'. destruct (IH st') as (out & <- & HF). eexists. split; [done|].
    simpl. constructor; [by left | done]. }
  assert (forall st', exists out,
            concat ([match trim l with [] => [] | _ :: _ => l end]
                      :: LineBased.convertLines lines st') = out
            /\ Forall2 (fun line pushed => pushed = line \/ (trim line = [] /\ pushed = []))
                 (l :: lines) out) as Hproc.
  { intros st'. destruct (IH st') as (out & <- & HF). eexists. split; [done|].
    simpl. constructor; [|done]. destruct (trim l); [by right | by left]. }
  destruct (regexMatch fenceLineRegex l); repeat case_match; simplify_eq;
    first [apply Hsame | apply Hproc].
Qed.

(** X19: the line-based converter leaves a text without [<] and without
    the code unit 0 as it is, line by line, apart from lines of
    whitespace only, which it may empty (it does so outside fenced code
    blocks). *)
Theorem LineBased_plain_text_unchanged text :
  ch "<" ∉ text -> 0%N ∉ text ->
  exists result,
    LineBased.convertClaudeMdToMarkdown text = join [10%N] result
    /\ Forall2 (fun line pushed => pushed = line \/ (trim line = [] /\ pushed = []))
         (splitLines text) result.
Proof.
  intros H1%not_elem_isCh H0%not_elem_Forall.
  unfold LineBased.convertClaudeMdToMarkdown.
  destruct (LineBased_convertLines_plain (splitLines text) (LineBased.MkFence false [] 0, []))
    as (out & <- & HF); [|by eexists].
  apply Forall_lines with (P := fun c => isCh "<" c <> true) in H1.
  apply Forall_lines with (P := fun c => c <> 0%N) in H0.
  rewrite Forall_forall in *. intros l Hl. auto.
Qed.

Lemma LineBased_plain_text_unchanged_witness :
  let text := join [10%N] [str "# T"; str "   "; str "```"; str "   "; str "```"; str "`x` y"] in
  LineBased.convertClaudeMdToMarkdown text
    = join [10%N] [str "# T"; str ""; str "```"; str "   "; str "```"; str "`x` y"]
  /\ exists result,
       LineBased.convertClaudeMdToMarkdown text = join [10%N] result
       /\ Forall2 (fun line pushed => pushed = line \/ (trim line = [] /\ pushed = []))
            (splitLines text) result.
Proof.
  intros text. split; [by vm_compute|].
  apply (LineBased_plain_text_unchanged text);
    apply not_elem_Forall; by vm_compute; repeat constructor.
Defined.

(** ** What the capture groups hold *)

Lemma clearCaps_lookup gs x n :
  n ∉ gs -> caps (clearCaps gs x) !! n = caps x !! n.
Proof.
  unfold clearCaps. simpl. induction gs as [|g gs IH]; intros Hn; simpl; [done|].
  apply not_elem_of_cons in Hn as [Hne Hn]. rewrite lookup_delete_ne by done. by apply IH.
Qed.

(** A pattern leaves the captures of the groups that are not its own. *)
Lemma steps_frame total r x y n :
  steps total r x y -> n ∉ groupsOf r -> caps y !! n = caps x !! n.
Proof.
  revert x y. induction r; intros x y; simpl.
  - by intros ->.
  - by intros (c & t & _ & _ & ->).
  - intros (m & H1 & H2) [Hn1 Hn2]%not_elem_of_app.
    rewrite (IHr2 _ _ H2 Hn2). by apply IHr1.
  - intros [H|H] [Hn1 Hn2]%not_elem_of_app; auto.
  - intros H Hn. induction H as [| |? ? ? ? ? _ H1 _ IH|? ? ? ? _ H1 _ _ IH]; try done.
    + rewrite IH. rewrite (IHr _ _ H1 Hn). by apply clearCaps_lookup.
    + rewrite IH. rewrite (IHr _ _ H1 Hn). by apply clearCaps_lookup.
  - intros (m & H & ->) [Hne Hn]%not_elem_of_cons. simpl.
    rewrite lookup_insert_ne by done. by apply IHr.
  - destruct (caps x !! n0); [by intros (t & _ & ->) | by intros ->].
  - by intros [-> _].
  - by intros [-> _].
Qed.

(** Without backreferences, the reading on states is the reading on
    strings. *)
Lemma steps_lang total r x y :
  noBref r = true -> steps total r x y -> lang total r (rest x) (rest y).
Proof.
  revert x y. induction r; intros x y Hb; simpl in *.
  - by intros ->.
  - intros (c & t & -> & Hc & ->). by exists c.
  - apply andb_prop in Hb as [Ha Hb]. intros (m & H1 & H2). exists (rest m). auto.
  - apply andb_prop in Hb as [Ha Hb]. intros [H|H]; auto.
  - induction 1 as [| |? ? ? ? ? Hz H1 _ IH|? ? ? ? Hz H1 Hlt _ IH].
    + constructor.
    + apply Reps_full.
    + eapply Reps_required; [done | | exact IH]. by apply IHr in H1.
    + eapply Reps_optional; [done | | | exact IH]; [by apply IHr in H1 | done].
  - intros (m & H & ->). simpl. by apply IHr.
  - done.
  - by intros [-> ?].
  - by intros [-> ?].
Qed.

(** A group captures the text that its pattern matched. *)
Lemma steps_Grp total n a x y :
  noBref a = true -> steps total (Grp n a) x y ->
  exists w, rest x = w ++ rest y /\ lang total a (rest x) (rest y)
    /\ caps y !! n = Some w.
Proof.
  intros Hb (m & H & ->). apply steps_suffix in H as Hw. destruct Hw as (w & Hw).
  exists w. simpl. split; [done|]. split; [by apply steps_lang|].
  rewrite lookup_insert_eq. f_equal. rewrite Hw, length_app.
  replace (length w + length (rest m) - length (rest m)) with (length w) by lia.
  by rewrite take_app_length.
Qed.

(** The rounds of a character class, with a bound on their number. *)
Lemma Reps_class_bounded total p mn mx s s' :
  Reps (lang total (Chr p)) mn mx s s' ->
  exists w, s = w ++ s' /\ Forall (fun c => p c = true) w
    /\ (forall k, mx = Some k -> length w <= k)
    /\ (mn <= length w \/ exists k, mx = Some k /\ k < mn).
Proof.
  induction 1 as [mx s|mn s|mn mx s m s' Hz (c & -> & Hc) _ IH
    |mx s m s' Hz (c & -> & Hc) _ _ IH].
  - exists []. repeat split; [constructor | simpl; lia | left; simpl; lia].
  - exists []. repeat split; [constructor | simpl; lia |].
    destruct mn; [left; simpl; lia | right; exists 0; split; [done | lia]].
  - destruct IH as (w & -> & Hw & Hmx & Hmn). exists (c :: w).
    repeat split; [by constructor | |].
    + intros k ->. destruct k; [done|]. specialize (Hmx k eq_refl). simpl. lia.
    + destruct Hmn as [?|(k & Hk & ?)]; [left; simpl; lia|].
      right. destruct mx as [[|k']|]; simplify_eq/=. exists (S k). split; [done | lia].
  - destruct IH as (w & -> & Hw & Hmx & Hmn). exists (c :: w).
    repeat split; [by constructor | | left; simpl; lia].
    intros k ->. destruct k; [done|]. specialize (Hmx k eq_refl). simpl. lia.
Qed.

(** The matches of a global pattern are matches at an index. *)
Lemma matchesFrom_elem fuel total r s mr :
  mr ∈ matchesFrom fuel total r s -> exists s1, matchHere total r s1 = Some mr.
Proof.
  revert s. induction fuel as [|fuel IH]; intros s; [by intros ?%elem_of_nil|].
  rewrite matchesFrom_S. destruct (search total r s) as [mr'|] eqn:E;
    [|by intros ?%elem_of_nil].
  intros [->|H]%elem_of_cons.
  - apply search_from in E as (_ & s1 & _ & E). by exists s1.
  - destruct (mtext mr'), (mafter mr'); try (by apply elem_of_nil in H); by eapply IH.
Qed.

Lemma allMatches_elem r s mr :
  mr ∈ allMatches r s -> exists s1, matchHere (length s) r s1 = Some mr.
Proof. apply matchesFrom_elem. Qed.

(** ** The headers that the extractors record *)

Lemma steps_Seq total a b x y :
  steps total (Seq a b) x y <-> exists m, steps total a x m /\ steps total b m y.
Proof. done. Qed.

Lemma Forall_hashes w :
  Forall (fun c => isCh "#" c = true) w -> w = repeatStr (str "#") (length w).
Proof.
  induction 1 as [|c w Hc _ IH]; [done|]. simpl. apply N.eqb_eq in Hc. by rewrite Hc, <- IH.
Qed.

(** What the header pattern matches and captures: the hashes, whitespace,
    the text, whitespace. *)
Lemma headerRegex_match line mr :
  regexMatch headerRegex line = Some mr ->
  exists hashes ws1 txt ws2,
    line = hashes ++ ws1 ++ txt ++ ws2
    /\ group 1 mr = Some hashes /\ group 2 mr = Some txt
    /\ Forall (fun c => isCh "#" c = true) hashes /\ 1 <= length hashes <= 6
    /\ Forall (fun c => isSpace c = true) ws1 /\ 1 <= length ws1
    /\ Forall (fun c => isDot c = true) txt /\ 1 <= length txt
    /\ Forall (fun c => isSpace c = true) ws2.
Proof.
  unfold regexMatch. intros (skipped & s1 & Hline & H)%search_from.
  apply matchHere_Some in H as (y & Hy & _ & _ & Hg & _).
  unfold headerRegex in Hy.
  apply steps_Seq in Hy as (m5 & Hy & [-> Hend]).
  apply steps_Seq in Hy as (m4 & Hy & H5).
  apply steps_Seq in Hy as (m3 & Hy & H4).
  apply steps_Seq in Hy as (m2 & Hy & H3).
  apply steps_Seq in Hy as (m1 & [-> Hbol] & H2).
  simpl in Hbol. apply (lang_at_start line skipped s1 Hbol) in Hline as Hsk.
  subst skipped. simpl in Hline. subst s1.
  (* group 1: the hashes *)
  apply steps_Grp in H2 as (hashes & Hr1 & L1 & C1); [|done]. simpl in Hr1, L1.
  apply (Reps_class_bounded (length line) (isCh "#")) in L1
    as (w1 & Hw1 & Hh & Hmax & Hmin).
  rewrite Hr1 in Hw1. apply app_inv_tail in Hw1. subst w1.
  (* whitespace *)
  pose proof (steps_frame _ _ _ _ 1 H3) as F3.
  apply steps_lang in H3; [|done]. simpl in H3.
  apply (proj1 (Reps_class (length line) isSpace _ _ _)) in H3 as (ws1 & Hr2 & Hs1 & Hl1).
  (* group 2: the text *)
  pose proof (steps_frame _ _ _ _ 1 H4) as F4.
  apply steps_Grp in H4 as (txt & Hr3 & L4 & C4); [|done]. simpl in L4.
  apply (proj1 (Reps_class (length line) isDot _ _ _)) in L4 as (w4 & Hw4 & Hd & Hl4).
  rewrite Hr3 in Hw4. apply app_inv_tail in Hw4. subst w4.
  (* whitespace up to the end *)
  pose proof (steps_frame _ _ _ _ 1 H5) as F51.
  pose proof (steps_frame _ _ _ _ 2 H5) as F52.
  apply steps_lang in H5; [|done]. simpl in H5.
  apply (proj1 (Reps_class (length line) isSpace _ _ _)) in H5 as (ws2 & Hr4 & Hs2 & _).
  rewrite Hend, app_nil_r in Hr4.
  exists hashes, ws1, txt, ws2. split.
  { rewrite Hr1, Hr2, Hr3. by rewrite Hr4. }
  unfold group. rewrite Hg. split.
  { rewrite F51, F4, F3 by (simpl; set_solver). done. }
  split; [by rewrite F52 by (simpl; set_solver)|].
  repeat split; try done.
  - destruct Hmin as [?|(k & [= <-] & ?)]; lia.
  - by apply Hmax.
Qed.

Section HeaderOrigin.

Variable tagsOfLine : nat -> jsstring -> list XmlTag.

Lemma parseLines_header_origin lines i b h :
  h ∈ headers (parseLinesWith tagsOfLine lines i b emptyStructure) ->
  exists k l, lines !! k = Some l /\ h ∈ headerOfLine (i + k) l.
Proof.
  revert i b. induction lines as [|l lines IH]; intros i b.
  { by intros ?%elem_of_nil. }
  rewrite parseLines_cons. simpl. rewrite elem_of_app. intros [Hh | Hh].
  - exists 0, l. split; [done|]. rewrite Nat.add_0_r. unfold lineStructure in Hh.
    repeat case_match; simpl in Hh; by try apply elem_of_nil in Hh.
  - apply IH in Hh as (k & l' & Hk & Hh). exists (S k), l'. split; [done|].
    by replace (i + S k) with (S i + k) by lia.
Qed.

Lemma parseLines_header_shape lines h :
  h ∈ headers (parseLinesWith tagsOfLine lines 0 false emptyStructure) ->
  exists l ws1 ws2,
    lines !! hline h = Some l
    /\ l = repeatStr (str "#") (level h) ++ ws1 ++ text h ++ ws2
    /\ 1 <= level h <= 6
    /\ ws1 <> [] /\ Forall (fun c => isSpace c = true) ws1
    /\ text h <> [] /\ Forall (fun c => isDot c = true) (text h)
    /\ Forall (fun c => isSpace c = true) ws2.
Proof.
  intros (k & l & Hk & Hh)%parseLines_header_origin. simpl in Hh.
  unfold headerOfLine in Hh.
  destruct (regexMatch headerRegex l) as [mr|] eqn:E; [|by apply elem_of_nil in Hh].
  apply list_elem_of_singleton in Hh as ->. cbn [hline level text].
  apply headerRegex_match in E
    as (hashes & ws1 & txt & ws2 & Hl & G1 & G2 & Hh & Hlen & Hs1 & Hl1 & Hd & Hl4 & Hs2).
  unfold groupOrEmpty. rewrite G1, G2. simpl.
  exists l, ws1, ws2. split; [done|]. split.
  { by rewrite <- (Forall_hashes hashes). }
  repeat split; try done; try lia.
  - destruct ws1; [simpl in Hl1; lia | done].
  - destruct txt; [simpl in Hl4; lia | done].
Qed.

End HeaderOrigin.

(** X20: every header that the extractors record comes from a line of
    the document that is one to six hashes, then whitespace, then the
    text of the header, which is not empty and holds no line terminator,
    then whitespace; its level is the number of the hashes. *)
Theorem recorded_headers :
  (forall content h,
     h ∈ headers (Masking.parseDocumentText content) ->
     exists l ws1 ws2,
       splitLines content !! hline h = Some l
       /\ l = repeatStr (str "#") (level h) ++ ws1 ++ text h ++ ws2
       /\ 1 <= level h <= 6
       /\ ws1 <> [] /\ Forall (fun c => isSpace c = true) ws1
       /\ text h <> [] /\ Forall (fun c => isDot c = true) (text h)
       /\ Forall (fun c => isSpace c = true) ws2)
  /\ (forall document h,
        h ∈ headers (Legacy.parseDocument document) ->
        exists l ws1 ws2,
          lineTexts document !! hline h = Some l
          /\ l = repeatStr (str "#") (level h) ++ ws1 ++ text h ++ ws2
          /\ 1 <= level h <= 6
          /\ ws1 <> [] /\ Forall (fun c => isSpace c = true) ws1
          /\ text h <> [] /\ Forall (fun c => isDot c = true) (text h)
          /\ Forall (fun c => isSpace c = true) ws2).
Proof.
  split.
  - intros content h. apply parseLines_header_shape.
  - intros document h. apply parseLines_header_shape.
Qed.

Lemma recorded_headers_witness :
  let content := join [10%N] [str "intro"; str "##  Title  "] in
  headers (Masking.parseDocumentText content) = [MkHeader 2 1 (str "Title")]
  /\ exists l ws1 ws2,
       splitLines content !! 1 = Some l
       /\ l = repeatStr (str "#") 2 ++ ws1 ++ str "Title" ++ ws2
       /\ 1 <= 2 <= 6
       /\ ws1 <> [] /\ Forall (fun c => isSpace c = true) ws1
       /\ str "Title" <> [] /\ Forall (fun c => isDot c = true) (str "Title")
       /\ Forall (fun c => isSpace c = true) ws2.
Proof.
  intros content. split; [by vm_compute|].
  apply (proj1 recorded_headers content (MkHeader 2 1 (str "Title"))).
  apply list_elem_of_In. vm_compute. auto.
Defined.

(** ** The names that the extractors record *)

Lemma steps_name_group total n x y :
  steps total (Grp n tagName) x y ->
  exists w, caps y !! n = Some w /\ isTagName w = true.
Proof.
  intros (w & Hr & L & C)%steps_Grp; [|done]. exists w. split; [done|].
  unfold tagName in L. simpl in L. destruct L as (m & (c & Hx & Hc) & L).
  apply (proj1 (Reps_class total isNameChar _ _ _)) in L as (w' & -> & Hw' & _).
  rewrite Hx in Hr. change (c :: w' ++ rest y) with ((c :: w') ++ rest y) in Hr.
  apply app_inv_tail in Hr. subst w. simpl. rewrite Hc. simpl.
  apply forallb_forall. intros d Hd. rewrite Forall_forall in Hw'.
  by apply Hw', list_elem_of_In.
Qed.

Lemma tag_patterns_name total s mr :
  matchHere total xmlOpeningTagRegex s = Some mr
  \/ matchHere total xmlClosingTagRegex s = Some mr
  \/ matchHere total xmlSelfClosingRegex s = Some mr ->
  isTagName (groupOrEmpty 1 mr) = true.
Proof.
  unfold groupOrEmpty, group.
  intros [H|[H|H]]; apply matchHere_Some in H as (y & Hy & _ & _ & -> & _).
  - unfold xmlOpeningTagRegex in Hy. apply steps_Seq in Hy as (m4 & Hy & H5).
    apply steps_Seq in Hy as (m3 & Hy & H4). apply steps_Seq in Hy as (m2 & Hy & H3).
    apply steps_Seq in Hy as (m1 & _ & H2).
    apply steps_name_group in H2 as (w & C & Hw).
    rewrite (steps_frame _ _ _ _ 1 H5), (steps_frame _ _ _ _ 1 H4),
      (steps_frame _ _ _ _ 1 H3), C by (simpl; set_solver). done.
  - unfold xmlClosingTagRegex in Hy. apply steps_Seq in Hy as (m3 & Hy & H4).
    apply steps_Seq in Hy as (m2 & _ & H3).
    apply steps_name_group in H3 as (w & C & Hw).
    rewrite (steps_frame _ _ _ _ 1 H4), C by (simpl; set_solver). done.
  - unfold xmlSelfClosingRegex in Hy. apply steps_Seq in Hy as (m5 & Hy & H6).
    apply steps_Seq in Hy as (m4 & Hy & H5).
    apply steps_Seq in Hy as (m3 & Hy & H4). apply steps_Seq in Hy as (m2 & Hy & H3).
    apply steps_Seq in Hy as (m1 & _ & H2).
    apply steps_name_group in H2 as (w & C & Hw).
    rewrite (steps_frame _ _ _ _ 1 H6), (steps_frame _ _ _ _ 1 H5),
      (steps_frame _ _ _ _ 1 H4), (steps_frame _ _ _ _ 1 H3), C by (simpl; set_solver).
    done.
Qed.

Lemma Masking_tagsOfLine_name i l t :
  t ∈ Masking.tagsOfLine i l -> isTagName (name t) = true.
Proof.
  unfold Masking.tagsOfLine, Masking.selfClosingTags, Masking.closingTags,
    Masking.openingTags.
  rewrite !elem_of_app, !list_elem_of_fmap.
  intros [(mr & -> & Hmr)|[(mr & -> & Hmr)|(mr & -> & Hmr)]];
    apply allMatches_elem in Hmr as (s1 & Hmr); simpl;
    eapply tag_patterns_name; eauto.
Qed.

Lemma Legacy_tagsOfLine_name i l t :
  t ∈ Legacy.tagsOfLine i l -> isTagName (name t) = true.
Proof.
  unfold Legacy.tagsOfLine. cbv zeta.
  rewrite !elem_of_app, !list_elem_of_fmap.
  intros [(mr & -> & Hmr)|[(mr & -> & Hmr)|(mr & -> & Hmr)]];
    apply allMatches_elem in Hmr as (s1 & Hmr); simpl;
    eapply tag_patterns_name; eauto.
Qed.

(** X21: every tag that the extractors record has a name made of a
    letter or an underscore followed by letters, digits, underscores and
    hyphens; so the pattern that [convertToMarkdown] builds from the name
    holds the name as a literal. *)
Theorem recorded_tag_names :
  (forall content t,
     t ∈ xmlTags (Masking.parseDocumentText content) -> isTagName (name t) = true)
  /\ (forall document t,
        t ∈ xmlTags (Legacy.parseDocument document) -> isTagName (name t) = true).
Proof.
  split.
  - intros content t (k & l & _ & Ht)%parseLines_tag_origin.
    by apply Masking_tagsOfLine_name in Ht.
  - intros document t (k & l & _ & Ht)%parseLines_tag_origin.
    by apply Legacy_tagsOfLine_name in Ht.
Qed.

Lemma recorded_tag_names_witness :
  let content := str "<my-tag_1 x=1> </b2>" in
  List.map name (xmlTags (Masking.parseDocumentText content)) = [str "b2"; str "my-tag_1"]
  /\ isTagName (str "my-tag_1") = true.
Proof.
  intros content. split; [by vm_compute|].
  apply (proj1 recorded_tag_names content
           (MkTag (str "my-tag_1") 0 0 true false false [(str "x", str "1")] 0 14)).
  apply list_elem_of_In. vm_compute. auto.
Defined.

(** ** The attributes of a tag *)

Lemma mapSet_keys k v m :
  List.map fst (mapSet k v m)
  = if bool_decide (k ∈ List.map fst m) then List.map fst m else List.map fst m ++ [k].
Proof.
  induction m as [|[k' v'] m IH]; simpl; [done|].
  destruct (decide (k' = k)) as [->|Hne].
  - rewrite bool_decide_eq_true_2 by done. simpl.
    by rewrite bool_decide_eq_true_2 by (by left).
  - rewrite bool_decide_eq_false_2 by done. simpl. rewrite IH.
    destruct (decide (k ∈ List.map fst m)) as [Hin|Hnin].
    + rewrite !bool_decide_eq_true_2; [done | by right | done].
    + rewrite !bool_decide_eq_false_2; [done | | done].
      by intros [?|?]%elem_of_cons.
Qed.

Lemma mapSet_Forall (P : jsstring * jsstring -> Prop) k v m :
  P (k, v) -> Forall P m -> Forall P (mapSet k v m).
Proof.
  intros Hk. induction 1 as [|[k' v'] m Hx Hm IH]; simpl; [by repeat constructor|].
  case_bool_decide; by constructor.
Qed.

Lemma attrRegex_name total s mr :
  matchHere total attrRegex s = Some mr -> isTagName (groupOrEmpty 1 mr) = true.
Proof.
  unfold groupOrEmpty, group.
  intros (y & Hy & _ & _ & -> & _)%matchHere_Some.
  unfold attrRegex in Hy. apply steps_Seq in Hy as (m4 & Hy & H5).
  apply steps_Seq in Hy as (m3 & Hy & H4). apply steps_Seq in Hy as (m2 & Hy & H3).
  apply steps_Seq in Hy as (m1 & H1 & H2).
  apply steps_name_group in H1 as (w & C & Hw).
  rewrite (steps_frame _ _ _ _ 1 H5), (steps_frame _ _ _ _ 1 H4),
    (steps_frame _ _ _ _ 1 H3), (steps_frame _ _ _ _ 1 H2), C by (simpl; set_solver).
  done.
Qed.

(** X22: [parseAttributes] returns a map whose keys are names (a letter
    or an underscore, then letters, digits, underscores and hyphens), each
    of them once. *)
Theorem parseAttributes_keys attrString :
  NoDup (List.map fst (parseAttributes attrString))
  /\ Forall (fun kv => isTagName kv.1 = true) (parseAttributes attrString).
Proof.
  unfold parseAttributes.
  assert (forall ms acc,
            Forall (fun mr => isTagName (groupOrEmpty 1 mr) = true) ms ->
            NoDup (List.map fst acc) ->
            Forall (fun kv : jsstring * jsstring => isTagName kv.1 = true) acc ->
            let res := fold_left
              (fun attributes mr =>
                 mapSet (groupOrEmpty 1 mr)
                   (orElse (group 2 mr) (orElse (group 3 mr) (orElse (group 4 mr) [])))
                   attributes) ms acc in
            NoDup (List.map fst res)
            /\ Forall (fun kv : jsstring * jsstring => isTagName kv.1 = true) res) as H.
  { induction ms as [|mr ms IH]; intros acc Hms Hnd Hacc; [done|].
    inversion Hms; subst. simpl. apply IH; [done | |by apply mapSet_Forall].
    rewrite mapSet_keys. case_bool_decide as Hin; [done|].
    apply NoDup_app. split; [done|]. split; [|apply NoDup_singleton].
    intros k Hk ->%list_elem_of_singleton. done. }
  apply H; [|constructor|constructor].
  apply Forall_forall. intros mr (s1 & Hmr)%allMatches_elem.
  by eapply attrRegex_name.
Qed.

(** ** The folding provider of the line-based extension *)

Lemma findFrom_bounds test lines j0 j :
  LineBasedFolding.findFrom test lines j0 = Some j ->
  j0 <= j < j0 + length lines.
Proof.
  revert j0. induction lines as [|l lines IH]; intros j0; simpl; [done|].
  destruct (test l).
  - intros [= <-]. lia.
  - intros H%IH. lia.
Qed.

Lemma headerRange_bounds lines i level s e :
  (s, e) ∈ LineBasedFolding.headerRange lines i level ->
  s = i /\ i < e < length lines.
Proof.
  unfold LineBasedFolding.headerRange.
  destruct (LineBasedFolding.findFrom _ _ _) as [j|] eqn:E.
  - apply findFrom_bounds in E. rewrite length_drop in E.
    destruct (Nat.ltb_spec i (j - 1)); [|by intros ?%elem_of_nil].
    intros [= -> ->]%list_elem_of_singleton. lia.
  - destruct (Nat.ltb_spec (S i) (length lines)); [|by intros ?%elem_of_nil].
    intros [= -> ->]%list_elem_of_singleton. lia.
Qed.

Lemma foldLoop_bounds fuel lines i inCodeBlock tagStack s e :
  (s, e) ∈ LineBasedFolding.foldLoop fuel lines i inCodeBlock tagStack ->
  s < e < length lines.
Proof.
  revert i inCodeBlock tagStack.
  induction fuel as [|fuel IH]; intros i b st; simpl; [by intros ?%elem_of_nil|].
  destruct (lines !! i) as [line|] eqn:Ei; [|by intros ?%elem_of_nil].
  apply lookup_lt_Some in Ei.
  destruct (regexTest codeBlockRegex line).
  { destruct b; simpl; [apply IH|].
    destruct (LineBasedFolding.findFrom _ _ _) as [j|] eqn:E; [|apply IH].
    apply findFrom_bounds in E. rewrite length_drop in E.
    intros [[= -> ->]|H]%elem_of_cons; [lia | by eapply IH]. }
  destruct b; [apply IH|].
  destruct (match regexMatch xmlClosingTagRegex line with
            | Some _ => _ | None => _ end) as [closed tagRanges] eqn:Ec.
  intros [H|[H|H]%elem_of_app]%elem_of_app.
  - destruct (regexMatch xmlClosingTagRegex line); [|simplify_eq; by apply elem_of_nil in H].
    destruct (spliceLast _ _) as [[[nm startLine] stack']|];
      [|simplify_eq; by apply elem_of_nil in H].
    simplify_eq. destruct (Nat.ltb_spec startLine i); [|by apply elem_of_nil in H].
    apply list_elem_of_singleton in H as [= -> ->]. lia.
  - destruct (regexMatch LineBasedFolding.headerStartRegex line);
      [|by apply elem_of_nil in H].
    apply headerRange_bounds in H. lia.
  - by eapply IH.
Qed.

(** The number of lines is fuel enough: more changes nothing. *)
Lemma foldLoop_fuel lines fuel fuel' i inCodeBlock tagStack :
  length lines - i <= fuel -> length lines - i <= fuel' ->
  LineBasedFolding.foldLoop fuel lines i inCodeBlock tagStack
  = LineBasedFolding.foldLoop fuel' lines i inCodeBlock tagStack.
Proof.
  revert fuel' i inCodeBlock tagStack.
  induction fuel as [|fuel IH]; intros fuel' i b st Hf Hf'.
  - assert (lines !! i = None) as E by (apply lookup_ge_None; lia).
    destruct fuel'; simpl; [done | by rewrite E].
  - destruct fuel' as [|fuel'].
    + assert (lines !! i = None) as E by (apply lookup_ge_None; lia).
      simpl. by rewrite E.
    + simpl. destruct (lines !! i) as [line|] eqn:Ei; [|done].
      apply lookup_lt_Some in Ei.
      destruct (regexTest codeBlockRegex line).
      { destruct b; simpl; [apply IH; lia|].
        destruct (LineBasedFolding.findFrom _ _ _) as [j|] eqn:E; [|apply IH; lia].
        apply findFrom_bounds in E. f_equal. apply IH; lia. }
      destruct b; [apply IH; lia|].
      destruct (match regexMatch xmlClosingTagRegex line with
                | Some _ => _ | None => _ end) as [closed tagRanges].
      do 2 f_equal. apply IH; lia.
Qed.

(** X23: every folding range of the line-based provider has its start
    strictly before its end, and its end is a line of the document. *)
Theorem LineBased_folding_ranges_in_document text s e :
  (s, e) ∈ LineBasedFolding.provideFoldingRanges text ->
  s < e < length (splitLines text).
Proof. apply foldLoop_bounds. Qed.

Lemma LineBased_folding_ranges_in_document_witness :
  let text := join [10%N] [str "# T"; str "<a>"; str "~~~"; str "x"; str "~~~"; str "</a>"] in
  LineBasedFolding.provideFoldingRanges text = [(0, 5); (2, 4); (1, 5)]
  /\ 1 < 5 < length (splitLines text).
Proof.
  intros text. split; [by vm_compute|].
  apply (LineBased_folding_ranges_in_document text 1 5).
  apply list_elem_of_In. vm_compute. auto.
Defined.

(** ** What the extractors skip *)

Section ExtractorSkips.

Variable tagsOfLine : nat -> jsstring -> list XmlTag.
Hypothesis tagsOfLine_line : forall i l t, t ∈ tagsOfLine i l -> line t = i.

Lemma parseLines_skips pre l post :
  blockState isFenceLine false pre = true \/ isFenceLine l = true ->
  let s := parseLinesWith tagsOfLine (pre ++ l :: post) 0 false emptyStructure in
  (forall t, t ∈ xmlTags s -> line t <> length pre)
  /\ (forall h, h ∈ headers s -> hline h <> length pre)
  /\ (forall n, n ∈ horizontalRules s -> n <> length pre).
Proof.
  intros Hskip. cbv zeta. rewrite parseLines_around.
  assert (lineStructure tagsOfLine (length pre) l (blockState isFenceLine false pre)
          = emptyStructure) as ->.
  { unfold lineStructure. destruct Hskip as [-> | ->]; [by case_match | done]. }
  rewrite appendStructure_empty_l.
  destruct (parseLines_lower tagsOfLine tagsOfLine_line pre 0 false) as (A1 & A2 & A3).
  destruct (parseLines_lower tagsOfLine tagsOfLine_line post (S (length pre))
              (if isFenceLine l then negb (blockState isFenceLine false pre)
               else blockState isFenceLine false pre)) as (B1 & B2 & B3).
  simpl in *. repeat split.
  - intros t [Ht|Ht]%elem_of_app; [apply A1 in Ht | apply B1 in Ht]; lia.
  - intros h [Hh|Hh]%elem_of_app; [apply A2 in Hh | apply B2 in Hh]; lia.
  - intros n [Hn|Hn]%elem_of_app; [apply A3 in Hn | apply B3 in Hn]; lia.
Qed.

End ExtractorSkips.

(** X24: both extractors record no tag, no header and no horizontal rule
    on a fence line, nor on a line inside a fenced code block (a line
    with an odd number of fence lines before it). *)
Theorem extractor_skips_code_blocks :
  (forall content pre l post,
     splitLines content = pre ++ l :: post ->
     blockState isFenceLine false pre = true \/ isFenceLine l = true ->
     (forall t, t ∈ xmlTags (Masking.parseDocumentText content) -> line t <> length pre)
     /\ (forall h, h ∈ headers (Masking.parseDocumentText content) -> hline h <> length pre)
     /\ (forall n, n ∈ horizontalRules (Masking.parseDocumentText content) ->
           n <> length pre))
  /\ (forall document pre l post,
        lineTexts document = pre ++ l :: post ->
        blockState isFenceLine false pre = true \/ isFenceLine l = true ->
        (forall t, t ∈ xmlTags (Legacy.parseDocument document) -> line t <> length pre)
        /\ (forall h, h ∈ headers (Legacy.parseDocument document) -> hline h <> length pre)
        /\ (forall n, n ∈ horizontalRules (Legacy.parseDocument document) ->
              n <> length pre)).
Proof.
  split.
  - intros content pre l post Hs Hskip.
    unfold Masking.parseDocumentText, Masking.parseLines. rewrite Hs.
    by apply (parseLines_skips _ Masking_tagsOfLine_line).
  - intros document pre l post Hs Hskip.
    unfold Legacy.parseDocument, Legacy.parseLines. rewrite Hs.
    by apply (parseLines_skips _ Legacy_tagsOfLine_line).
Qed.

Lemma extractor_skips_code_blocks_witness :
  let content := join [10%N] [str "```"; str "# h"; str "<a>"; str "---"; str "```"; str "<b>"] in
  List.map line (xmlTags (Masking.parseDocumentText content)) = [5]
  /\ forall t, t ∈ xmlTags (Masking.parseDocumentText content) -> line t <> 2.
Proof.
  intros content. split; [by vm_compute|].
  refine (proj1 (proj1 extractor_skips_code_blocks content
                   [str "```"; str "# h"] (str "<a>") [str "---"; str "```"; str "<b>"] _ _));
    [by vm_compute | left; by vm_compute].
Defined.

(** ** Standalone tag lines in the line-based converter *)

Lemma isTagName_chars nm :
  isTagName nm = true ->
  exists c w, nm = c :: w /\ isNameStart c = true
    /\ Forall (fun x => isNameChar x = true) (c :: w).
Proof.
  destruct nm as [|c w]; [done|]. simpl. intros [Hc Hw]%andb_prop.
  exists c, w. repeat split; [done|]. constructor.
  - unfold isNameStart, isNameChar in *.
    repeat (apply orb_prop in Hc as [Hc|Hc]); rewrite Hc; by rewrite ?orb_true_r.
  - apply Forall_forall. intros x Hx%list_elem_of_In.
    by apply (proj1 (forallb_forall _ _) Hw).
Qed.

(** Two runs of name characters that end at the same character, which
    is no name character, are the same run. *)
Lemma name_run_unique (w nm : jsstring) c c' t t' :
  Forall (fun x => isNameChar x = true) w ->
  Forall (fun x => isNameChar x = true) nm ->
  isNameChar c = false -> isNameChar c' = false ->
  w ++ c :: t = nm ++ c' :: t' -> w = nm /\ c = c' /\ t = t'.
Proof.
  intros Hw. revert nm. induction Hw as [|x w Hx _ IH]; intros nm Hnm Hc Hc' E.
  - destruct nm as [|y nm]; simpl in E; [by injection E as -> ->|].
    injection E as -> _. inversion Hnm; subst. congruence.
  - destruct nm as [|y nm]; simpl in E.
    + injection E as -> _. congruence.
    + injection E as -> E. inversion Hnm; subst.
      destruct (IH nm) as (-> & -> & ->); done.
Qed.

Lemma steps_Lit total a x y :
  steps total (Lit a) x y <-> exists t, rest x = ch a :: t /\ y = MState t (caps x).
Proof.
  unfold Lit. simpl. split.
  - intros (c & t & Hx & Hc%N.eqb_eq & ->). subst c. by exists t.
  - intros (t & Hx & ->). exists (ch a), t. repeat split; [done|]. apply N.eqb_refl.
Qed.

Lemma steps_class total greedy mn p x y :
  steps total (Rep greedy mn None (Chr p)) x y ->
  exists w, rest x = w ++ rest y /\ Forall (fun c => p c = true) w /\ mn <= length w
    /\ forall n, caps y !! n = caps x !! n.
Proof.
  intros H. pose proof (fun n => steps_frame _ _ _ _ n H) as F.
  apply steps_lang in H; [|done]. simpl in H.
  apply (proj1 (Reps_class total p _ _ _)) in H as (w & Hw & Hp & Hl).
  exists w. repeat split; try done. intros n. apply F. simpl. set_solver.
Qed.

Lemma regexMatch_Some r s mr :
  regexMatch r s = Some mr ->
  exists skipped s1 y,
    s = skipped ++ s1 /\ steps (length s) r (MState s1 ∅) y /\ mgroups mr = caps y.
Proof.
  unfold regexMatch. intros (skipped & s1 & Hs & H)%search_from.
  apply matchHere_Some in H as (y & Hy & _ & _ & Hg & _). by exists skipped, s1, y.
Qed.

Lemma regexMatch_is_Some r s :
  noBref r = true -> (exists s', lang (length s) r s s') -> is_Some (regexMatch r s).
Proof.
  intros Hb [s' H]. unfold regexMatch. apply search_is_Some; [done|]. by exists [], s, s'.
Qed.

Lemma regexMatch_None r s :
  noBref r = true ->
  (forall pre s1 s', s = pre ++ s1 -> ~ lang (length s) r s1 s') ->
  regexMatch r s = None.
Proof.
  intros Hb H. unfold regexMatch. destruct (search _ r s) as [mr|] eqn:E; [|done].
  assert (is_Some (search (length s) r s)) as Hs by by rewrite E.
  apply search_is_Some in Hs as (pre & s1 & s' & Hp & Hl); [|done].
  by destruct (H pre s1 s').
Qed.

Lemma lang_tagName total nm s' :
  isTagName nm = true -> lang total tagName (nm ++ s') s'.
Proof.
  intros (c & w & -> & Hc & Hw)%isTagName_chars. unfold tagName. simpl.
  exists (w ++ s'). split; [by exists c|].
  apply (proj2 (Reps_class total isNameChar _ _ _)). exists w.
  inversion Hw; subst. repeat split; [done | lia].
Qed.

Lemma lang_tagName_inv total s s' :
  lang total tagName s s' ->
  exists w, s = w ++ s' /\ isTagName w = true /\ Forall (fun x => isNameChar x = true) w.
Proof.
  unfold tagName. simpl. intros (m & (c & -> & Hc) & H).
  apply (proj1 (Reps_class total isNameChar _ _ _)) in H as (w & -> & Hw & _).
  exists (c :: w). split; [done|].
  assert (isTagName (c :: w) = true) as Ht.
  { simpl. rewrite Hc. simpl. apply forallb_forall. intros x Hx%list_elem_of_In.
    rewrite Forall_forall in Hw. by apply Hw. }
  split; [done|]. by apply isTagName_chars in Ht as (? & ? & [= <- <-] & _ & ?).
Qed.

Lemma isSpace_not_name c : isSpace c = true -> isNameChar c = false.
Proof.
  unfold isSpace, isWhiteSpace, isLineTerminator, isNameChar, isLower, isUpper, isDigit.
  intros H. repeat (apply orb_prop in H as [H|H]);
    try (apply N.eqb_eq in H; by subst).
  apply andb_prop in H as [H1%N.leb_le H2%N.leb_le].
  repeat (apply orb_false_intro);
    first [ apply N.eqb_neq; lia | apply andb_false_iff; rewrite !N.leb_gt; lia ].
Qed.

Lemma standaloneClosing_match nm :
  isTagName nm = true ->
  exists mr,
    regexMatch LineBased.standaloneClosingRegex (str "</" ++ nm ++ str ">") = Some mr
    /\ groupOrEmpty 1 mr = nm.
Proof.
  intros Hnm.
  change (str "</" ++ nm ++ str ">") with (60%N :: 47%N :: nm ++ [62%N]).
  set (s := 60%N :: 47%N :: nm ++ [62%N]).
  destruct (regexMatch_is_Some LineBased.standaloneClosingRegex s eq_refl) as [mr Hmr].
  { exists []. unfold LineBased.standaloneClosingRegex, Star, Lit. simpl.
    exists []. split; [|done]. exists []. split; [|constructor].
    exists [62%N]. split; [|by exists 62%N]. exists (nm ++ [62%N]).
    split; [|by apply (lang_tagName (length s) nm [62%N])].
    exists (47%N :: nm ++ [62%N]). split; [|by exists 47%N].
    exists s. split; [done|]. by exists 60%N. }
  exists mr. split; [done|].
  apply regexMatch_Some in Hmr as (skipped & s1 & y & Hs & Hy & Hg).
  unfold LineBased.standaloneClosingRegex in Hy.
  apply steps_Seq in Hy as (m6 & Hy & [-> _]).
  apply steps_Seq in Hy as (m5 & Hy & (_ & _ & _ & _ & F6)%steps_class).
  apply steps_Seq in Hy as (m4 & Hy & (t5 & Hr4 & ->)%(steps_Lit (length s))).
  apply steps_Seq in Hy as (m3 & Hy & (w & Hr3 & L & C)%steps_Grp); [|done].
  apply steps_Seq in Hy as (m2 & Hy & (t3 & Hr2 & ->)%(steps_Lit (length s))).
  apply steps_Seq in Hy as (m1 & [-> Hbol] & (t2 & Hr1 & ->)%(steps_Lit (length s))).
  cbn [rest caps] in *. apply (lang_at_start s skipped s1 Hbol) in Hs as Hsk. subst skipped.
  cbn [app] in Hs. subst s1.
  apply lang_tagName_inv in L as (w' & Hw' & _ & Hname).
  rewrite Hr3 in Hw'. apply app_inv_tail in Hw'. subst w'.
  apply isTagName_chars in Hnm as (c & v & Hcv & _ & Hnmc).
  unfold s in Hr1. injection Hr1 as <-. rewrite Hr3, Hr4 in Hr2.
  injection Hr2 as Hr2.
  assert (w = nm) as Hwn.
  { rewrite Hcv. symmetry in Hr2. rewrite Hcv in Hr2.
    by apply (name_run_unique w (c :: v) (ch ">") 62%N t5 []) in Hr2 as (-> & _). }
  unfold groupOrEmpty, group. rewrite Hg, F6.
  exact (eq_trans (f_equal (default []) C) Hwn).
Qed.

Lemma standaloneClosing_no_match nm :
  isTagName nm = true ->
  regexMatch LineBased.standaloneClosingRegex (str "<" ++ nm ++ str ">") = None.
Proof.
  intros (c & v & -> & Hc & _)%isTagName_chars.
  change (str "<" ++ (c :: v) ++ str ">") with (60%N :: c :: v ++ [62%N]).
  apply regexMatch_None; [done|]. intros pre s1 s' Hs.
  unfold LineBased.standaloneClosingRegex, Star, Lit. simpl.
  intros (m6 & (m5 & (m4 & (m3 & (m2 & (m1 & [-> Hbol] & (c1 & -> & Hc1)) & (c2 & -> & Hc2))
    & _) & _) & _) & _).
  apply lang_at_start in Hs as Hp; [|done]. subst pre. cbn [app] in Hs.
  injection Hs as _ <- _. apply N.eqb_eq in Hc2. by subst c.
Qed.

Lemma standaloneOpening_match nm :
  isTagName nm = true ->
  exists mr,
    regexMatch LineBased.standaloneOpeningRegex (str "<" ++ nm ++ str ">") = Some mr
    /\ groupOrEmpty 1 mr = nm /\ groupOrEmpty 2 mr = [].
Proof.
  intros Hnm.
  change (str "<" ++ nm ++ str ">") with (60%N :: nm ++ [62%N]).
  set (s := 60%N :: nm ++ [62%N]).
  destruct (regexMatch_is_Some LineBased.standaloneOpeningRegex s eq_refl) as [mr Hmr].
  { exists []. unfold LineBased.standaloneOpeningRegex, attrRegion, Opt, Lit. simpl.
    exists []. split; [|done]. exists [62%N]. split; [|by exists 62%N].
    exists [62%N]. split; [|constructor]. exists (nm ++ [62%N]).
    split; [|by apply (lang_tagName (length s) nm [62%N])].
    exists s. split; [done|]. by exists 60%N. }
  exists mr. split; [done|].
  apply regexMatch_Some in Hmr as (skipped & s1 & y & Hs & Hy & Hg).
  unfold LineBased.standaloneOpeningRegex in Hy.
  apply steps_Seq in Hy as (m5 & Hy & [-> _]).
  apply steps_Seq in Hy as (m4 & Hy & (t5 & Hr4 & ->)%(steps_Lit (length s))).
  apply steps_Seq in Hy as (m3 & Hy & Hattr).
  apply steps_Seq in Hy as (m2 & Hy & Hname).
  pose proof (steps_frame _ _ _ _ 2 Hname) as F2.
  apply steps_Grp in Hname as (w & Hr3 & L & C); [|done].
  apply steps_Seq in Hy as (m1 & [-> Hbol] & (t2 & Hr1 & ->)%(steps_Lit (length s))).
  cbn [rest caps] in *. apply (lang_at_start s skipped s1 Hbol) in Hs as Hsk. subst skipped.
  cbn [app] in Hs. subst s1.
  apply lang_tagName_inv in L as (w' & Hw' & _ & Hname).
  rewrite Hr3 in Hw'. apply app_inv_tail in Hw'. subst w'.
  unfold s in Hr1. injection Hr1 as <-.
  unfold attrRegion, Opt in Hattr. cbn [steps] in Hattr.
  inversion Hattr as [? ? E1 E2| |
    |? ? m ? _ (m' & (ma & Hsp & _) & _) _ _]; subst.
  - (* no attribute region *)
    apply isTagName_chars in Hnm as (c & v & Hcv & _ & Hnmc).
    rewrite Hr4 in Hr3. symmetry in Hr3. rewrite Hcv in Hr3.
    apply (name_run_unique w (c :: v) (ch ">") 62%N t5 []) in Hr3 as (Hwn & _); try done.
    unfold groupOrEmpty, group. rewrite Hg. cbn [caps]. split.
    + rewrite Hcv. exact (eq_trans (f_equal (default []) C) Hwn).
    + rewrite F2 by (simpl; set_solver). by rewrite lookup_empty.
  - (* an attribute region begins with whitespace, which the line has not *)
    exfalso.
    inversion Hsp as [| |? ? ? a ? _ (c1 & t1 & Hx & Hc1 & ->) _|]; subst.
    apply isTagName_chars in Hnm as (c & v & Hcv & _ & Hnmc).
    cbn [rest clearCaps] in Hx. rewrite Hx in Hr3. symmetry in Hr3. rewrite Hcv in Hr3.
    apply (name_run_unique w (c :: v) c1 62%N t1 []) in Hr3 as (_ & -> & _); try done.
    by apply isSpace_not_name.
Qed.

(** What the stack loop of [processLine] takes off the stack: the last
    entry of the name, and nothing when no entry has the name. *)
Lemma spliceLastTag_spec nm stack :
  match LineBased.spliceLastTag nm stack with
  | None => Forall (fun e => LineBased.tname e <> nm) stack
  | Some stack' =>
      exists pre e post,
        stack = pre ++ e :: post /\ LineBased.tname e = nm
        /\ Forall (fun x => LineBased.tname x <> nm) post
        /\ stack' = pre ++ post
  end.
Proof.
  induction stack as [|e stack IH]; simpl; [constructor|].
  destruct (LineBased.spliceLastTag nm stack) as [stack'|].
  - destruct IH as (pre & e' & post & -> & Hn & Hpost & ->).
    by exists (e :: pre), e', post.
  - case_bool_decide as He.
    + by exists [], e, stack.
    + by constructor.
Qed.

(** X25: the line-based converter on a line that is nothing but a tag
    (whitespace around it apart).  A closing tag gives an empty line and
    takes off the stack the last entry of its name, the entries before and
    after it staying in their order; when no entry has the name, the stack
    stays as it is.  An opening tag without attributes gives a header of
    level [min(depth + 2, 6)] for the stack depth, with the underscores of
    the name escaped, and goes on the stack. *)
Theorem LineBased_standalone_tags line nm tagStack :
  isTagName nm = true ->
  (trim line = str "</" ++ nm ++ str ">" ->
   exists stack',
     LineBased.processLine line tagStack = ([], stack')
     /\ ((Forall (fun e => LineBased.tname e <> nm) tagStack /\ stack' = tagStack)
         \/ exists pre e post,
              tagStack = pre ++ e :: post /\ LineBased.tname e = nm
              /\ Forall (fun x => LineBased.tname x <> nm) post
              /\ stack' = pre ++ post))
  /\ (trim line = str "<" ++ nm ++ str ">" ->
      LineBased.processLine line tagStack
      = (repeatStr (str "#") (Nat.min (length tagStack + 2) 6) ++ str " "
           ++ LineBased.escapeMarkdownInHeader nm ++ [10%N],
         tagStack ++ [LineBased.MkTagInfo nm [] (length tagStack)])).
Proof.
  intros Hnm. split; intros Ht; unfold LineBased.processLine; cbv zeta; rewrite Ht.
  - destruct (standaloneClosing_match nm Hnm) as (mr & -> & ->).
    exists (default tagStack (LineBased.spliceLastTag nm tagStack)).
    split; [done|]. pose proof (spliceLastTag_spec nm tagStack) as H.
    destruct (LineBased.spliceLastTag nm tagStack) as [stack'|]; simpl.
    + by right.
    + by left.
  - rewrite (standaloneClosing_no_match nm Hnm).
    destruct (standaloneOpening_match nm Hnm) as (mr & -> & -> & ->).
    cbn [app str]. unfold LineBased.headerText, headerPrefix, headerLevelOf.
    replace (Z.to_nat (Z.min (Z.of_nat (length tagStack) + 2) 6))
      with (Nat.min (length tagStack + 2) 6) by lia.
    change (trim []) with (@nil char). by rewrite <- !app_assoc.
Qed.

Lemma LineBased_standalone_tags_witness :
  let a := LineBased.MkTagInfo (str "a") [] 0 in
  let a' := LineBased.MkTagInfo (str "a") [] 1 in
  let b := LineBased.MkTagInfo (str "b") [] 2 in
  LineBased.processLine (str "  <my_tag>  ") [a]
  = (str "### my\_tag" ++ [10%N], [a; LineBased.MkTagInfo (str "my_tag") [] 1])
  /\ LineBased.processLine (str " </a>") [a; a'; b] = ([], [a; b])
  /\ exists stack',
       LineBased.processLine (str " </a>") [a; a'; b] = ([], stack')
       /\ ((Forall (fun e => LineBased.tname e <> str "a") [a; a'; b]
            /\ stack' = [a; a'; b])
           \/ exists pre e post,
                [a; a'; b] = pre ++ e :: post /\ LineBased.tname e = str "a"
                /\ Forall (fun x => LineBased.tname x <> str "a") post
                /\ stack' = pre ++ post).
Proof.
  intros a a' b.
  split; [exact (proj2 (LineBased_standalone_tags (str "  <my_tag>  ") (str "my_tag")
                          [a] eq_refl) eq_refl)|].
  split; [by vm_compute|].
  exact (proj1 (LineBased_standalone_tags (str " </a>") (str "a") [a; a'; b] eq_refl)
           eq_refl).
Defined.

(** ** The kinds of range of the line-based folding provider *)

Lemma findFrom_Some test lines j0 j :
  LineBasedFolding.findFrom test lines j0 = Some j ->
  j0 <= j
  /\ (exists l, lines !! (j - j0) = Some l /\ test l = true)
  /\ forall k l, k < j - j0 -> lines !! k = Some l -> test l = false.
Proof.
  revert j0. induction lines as [|l lines IH]; intros j0; simpl; [done|].
  destruct (test l) eqn:Et.
  - intros [= <-]. rewrite Nat.sub_diag. split; [done|]. split; [by exists l|].
    intros k l' Hk. lia.
  - intros (Hj & (l' & Hl' & Ht') & Hbefore)%IH. split; [lia|].
    replace (j - j0) with (S (j - S j0)) by lia. split; [by exists l'|].
    intros [|k] l0 Hk; simpl; [by intros [= <-]|]. apply Hbefore. lia.
Qed.

Lemma findFrom_None test lines j0 :
  LineBasedFolding.findFrom test lines j0 = None ->
  forall k l, lines !! k = Some l -> test l = false.
Proof.
  revert j0. induction lines as [|l lines IH]; intros j0; simpl; [done|].
  destruct (test l) eqn:Et; [done|].
  intros H [|k] l0; simpl; [by intros [= <-] | by eapply IH].
Qed.

(** The header test of the provider, /^(#{1,6})\s+/, reads the level of
    a line off its leading hashes. *)
Lemma leadingHashes_split l :
  l = repeatStr (str "#") (leadingHashes l) ++ drop (leadingHashes l) l.
Proof.
  induction l as [|c l IH]; [done|]. simpl. destruct (isCh "#" c) eqn:E; [|done].
  apply N.eqb_eq in E. subst c. simpl. by rewrite <- IH.
Qed.

Lemma leadingHashes_run n c t :
  isCh "#" c = false -> leadingHashes (repeatStr (str "#") n ++ c :: t) = n.
Proof.
  intros Hc. induction n as [|n IH]; simpl; [by rewrite Hc|].
  change (isCh "#" (ch "#")) with true. by rewrite IH.
Qed.

Lemma isSpace_not_hash c : isSpace c = true -> isCh "#" c = false.
Proof.
  intros H. destruct (isCh "#" c) eqn:E; [|done].
  apply N.eqb_eq in E. subst c. by vm_compute in H.
Qed.

Lemma Reps_hashes total n mn mx s' :
  mn <= n -> n <= mx ->
  Reps (lang total (Lit "#")) mn (Some mx) (repeatStr (str "#") n ++ s') s'.
Proof.
  revert mn mx. induction n as [|n IH]; intros mn mx Hmn Hmx.
  - assert (mn = 0) as -> by lia. constructor.
  - destruct mx as [|mx]; [lia|]. destruct mn as [|mn].
    + apply (Reps_optional _ _ _ (repeatStr (str "#") n ++ s')); [done | | |].
      * by exists (ch "#").
      * simpl. lia.
      * apply IH; lia.
    + apply (Reps_required _ _ _ _ (repeatStr (str "#") n ++ s')); [done | |].
      * by exists (ch "#").
      * apply IH; lia.
Qed.

Lemma headerStart_match l :
  match regexMatch LineBasedFolding.headerStartRegex l with
  | Some hm => headerStartLevel l = Some (length (groupOrEmpty 1 hm))
  | None => headerStartLevel l = None
  end.
Proof.
  destruct (regexMatch LineBasedFolding.headerStartRegex l) as [hm|] eqn:E.
  - apply regexMatch_Some in E as (skipped & s1 & y & Hs & Hy & Hg).
    unfold LineBasedFolding.headerStartRegex in Hy.
    apply steps_Seq in Hy as (m2 & Hy & H3).
    apply steps_Seq in Hy as (m1 & [-> Hbol] & H2).
    cbn [rest] in Hbol. apply (lang_at_start l skipped s1 Hbol) in Hs as Hsk.
    subst skipped. cbn [app] in Hs. subst s1.
    pose proof (steps_frame _ _ _ _ 1 H3) as F3.
    apply steps_Grp in H2 as (hashes & Hr1 & L1 & C1); [|done]. cbn [rest] in Hr1, L1.
    apply (Reps_class_bounded (length l) (isCh "#")) in L1
      as (w1 & Hw1 & Hh & Hmax & Hmin).
    rewrite Hr1 in Hw1. apply app_inv_tail in Hw1. subst w1.
    specialize (Hmax 6 eq_refl).
    assert (1 <= length hashes) as Hone.
    { destruct Hmin as [?|(k & [= <-] & ?)]; lia. }
    apply steps_class in H3 as (ws & Hr2 & Hws & Hl & _).
    destruct ws as [|c ws]; [simpl in Hl; lia|].
    apply Forall_cons in Hws as [Hc _].
    assert (l = repeatStr (str "#") (length hashes) ++ c :: ws ++ rest y) as Hl'.
    { rewrite Hr1, Hr2. by rewrite <- (Forall_hashes hashes Hh). }
    assert (groupOrEmpty 1 hm = hashes) as ->.
    { unfold groupOrEmpty, group. rewrite Hg, F3 by (simpl; set_solver).
      exact (f_equal (default []) C1). }
    unfold headerStartLevel. cbv zeta.
    assert (leadingHashes l = length hashes) as ->.
    { rewrite Hl'. apply leadingHashes_run. by apply isSpace_not_hash. }
    assert (drop (length hashes) l = c :: ws ++ rest y) as ->.
    { rewrite Hr1, Hr2. by rewrite drop_app_length. }
    cbv iota.
    rewrite Hc. destruct (Nat.leb_spec 1 (length hashes)); [|lia].
    by destruct (Nat.leb_spec (length hashes) 6); [|lia].
  - unfold headerStartLevel. cbv zeta.
    destruct (Nat.leb_spec 1 (leadingHashes l)) as [H1|]; [|done].
    destruct (Nat.leb_spec (leadingHashes l) 6) as [H6|]; [|done].
    destruct (drop (leadingHashes l) l) as [|c t] eqn:Ed; [done|]. simpl.
    destruct (isSpace c) eqn:Hc; [|done]. exfalso.
    assert (is_Some (regexMatch LineBasedFolding.headerStartRegex l)) as [? Hm];
      [|congruence].
    apply regexMatch_is_Some; [done|]. exists t.
    unfold LineBasedFolding.headerStartRegex. simpl.
    exists (c :: t). split.
    + exists l. split; [done|]. rewrite (leadingHashes_split l) at 1. rewrite Ed.
      apply (Reps_hashes (length l)); lia.
    + apply (Reps_required _ _ _ _ t); [done | by exists c | constructor].
Qed.

Lemma endsHeader_level level l :
  LineBasedFolding.endsHeader level l = true <->
  exists k, headerStartLevel l = Some k /\ k <= level.
Proof.
  unfold LineBasedFolding.endsHeader. pose proof (headerStart_match l) as H.
  destruct (regexMatch LineBasedFolding.headerStartRegex l) as [hm|].
  - rewrite H. split.
    + intros Hk%Nat.leb_le. by eexists.
    + intros (k & [= <-] & Hk). by apply Nat.leb_le.
  - rewrite H. split; [done | by intros (k & ? & _)].
Qed.

Lemma headerRange_section lines i line hm s e :
  lines !! i = Some line ->
  regexMatch LineBasedFolding.headerStartRegex line = Some hm ->
  (s, e) ∈ LineBasedFolding.headerRange lines i (length (groupOrEmpty 1 hm)) ->
  headerSection lines s e.
Proof.
  intros Hi Hm. pose proof (headerStart_match line) as Hlevel. rewrite Hm in Hlevel.
  set (level := length (groupOrEmpty 1 hm)) in *.
  assert (forall l, LineBasedFolding.endsHeader level l = false ->
            forall k, headerStartLevel l = Some k -> level < k) as Hnot.
  { intros l Hl k Hk. destruct (Nat.lt_ge_cases level k) as [|Hle]; [done|].
    assert (LineBasedFolding.endsHeader level l = true) as Ht
      by (apply endsHeader_level; by exists k).
    congruence. }
  unfold LineBasedFolding.headerRange.
  destruct (LineBasedFolding.findFrom _ _ _) as [j|] eqn:E.
  - apply findFrom_Some in E as (Hj & (l & Hl & Ht) & Hbefore).
    destruct (Nat.ltb_spec i (j - 1)); [|by intros ?%elem_of_nil].
    intros [= -> ->]%list_elem_of_singleton.
    exists line, level. repeat split; try done.
    + intros k l' k' Hk Hl'. apply Hnot. apply (Hbefore (k - S i)); [lia|].
      rewrite lookup_drop. by replace (S i + (k - S i)) with k by lia.
    + right. apply endsHeader_level in Ht as (k & Hk & Hle). exists l, k.
      split; [|done]. rewrite lookup_drop in Hl.
      by replace (S (j - 1)) with (S i + (j - S i)) by lia.
  - destruct (Nat.ltb_spec (S i) (length lines)); [|by intros ?%elem_of_nil].
    intros [= -> ->]%list_elem_of_singleton.
    exists line, level. repeat split; try done.
    + intros k l' k' Hk Hl'. apply Hnot. apply (findFrom_None _ _ _ E (k - S i)).
      rewrite lookup_drop. by replace (S i + (k - S i)) with k by lia.
    + left. lia.
Qed.

Lemma foldLoop_kinds fuel lines i inCodeBlock tagStack s e :
  Forall (openedAt lines) tagStack ->
  (s, e) ∈ LineBasedFolding.foldLoop fuel lines i inCodeBlock tagStack ->
  fenceRange lines s e \/ tagRange lines s e \/ headerSection lines s e.
Proof.
  revert i inCodeBlock tagStack.
  induction fuel as [|fuel IH]; intros i b st Hst; simpl; [by intros ?%elem_of_nil|].
  destruct (lines !! i) as [line|] eqn:Ei; [|by intros ?%elem_of_nil].
  destruct (regexTest codeBlockRegex line) eqn:Ef.
  { destruct b; simpl; [by apply IH|].
    destruct (LineBasedFolding.findFrom _ _ _) as [j|] eqn:E; [|by apply IH].
    intros [[= -> ->]|H]%elem_of_cons; [|by eapply IH].
    apply findFrom_Some in E as (Hj & (l & Hl & Ht) & Hbefore).
    rewrite lookup_drop in Hl. replace (S i + (j - S i)) with j in Hl by lia.
    left. exists line, l. repeat split; try done.
    intros k l' Hk Hl'. apply (Hbefore (k - S i)); [lia|].
    rewrite lookup_drop. by replace (S i + (k - S i)) with k by lia. }
  destruct b; [by apply IH|].
  set (opened := match LineBasedFolding.openMatch line with
                 | Some m => st ++ [(groupOrEmpty 1 m, i)]
                 | None => st
                 end).
  assert (Forall (openedAt lines) opened) as Hopened.
  { unfold opened. destruct (LineBasedFolding.openMatch line) as [m|] eqn:Em; [|done].
    apply Forall_app. split; [done|]. apply Forall_singleton. by exists line, m. }
  destruct (match regexMatch xmlClosingTagRegex line with
            | Some _ => _ | None => _ end) as [closed tagRanges] eqn:Ec.
  assert (Forall (openedAt lines) closed
          /\ forall r, r ∈ tagRanges -> tagRange lines r.1 r.2) as [Hclosed Htag].
  { destruct (regexMatch xmlClosingTagRegex line) as [c|] eqn:Em;
      [|simplify_eq; split; [done | by intros ? ?%elem_of_nil]].
    destruct (spliceLast _ _) as [[[nm startLine] stack']|] eqn:Es;
      [|simplify_eq; split; [done | by intros ? ?%elem_of_nil]].
    simplify_eq. apply spliceLast_Some in Es as Hn. destruct Hn as (Hn & _).
    apply spliceLast_found in Es as [Hin Hsub]. simpl in Hn. subst nm.
    rewrite Forall_forall in Hopened. split.
    - apply Forall_forall. intros x Hx. by apply Hopened, Hsub.
    - destruct (Nat.ltb_spec startLine i); [|by intros ? ?%elem_of_nil].
      intros r ->%list_elem_of_singleton. simpl.
      destruct (Hopened _ Hin) as (l & m & Hl & Hm & Hg). simpl in Hl, Hg.
      by exists l, line, m, c. }
  intros [H|[H|H]%elem_of_app]%elem_of_app.
  - right. left. by apply (Htag (s, e)).
  - destruct (regexMatch LineBasedFolding.headerStartRegex line) as [hm|] eqn:Eh;
      [|by apply elem_of_nil in H].
    right. right. by eapply headerRange_section.
  - by eapply IH.
Qed.

(** X26: every folding range of the line-based provider is of one of three
    kinds: a code block, from a line that passes the fence test to the first
    line after it that is a closing fence; a tag, from a line where the
    opening-tag pattern matches to a line where the closing-tag pattern
    matches with the same name; or a header section, from a line that
    begins with one to six hashes and whitespace, over lines that do not or
    that begin with more hashes than it, up to the last line of the document
    or to the line before one that begins with as many hashes or fewer. *)
Theorem LineBased_folding_range_kinds text s e :
  (s, e) ∈ LineBasedFolding.provideFoldingRanges text ->
  fenceRange (splitLines text) s e
  \/ tagRange (splitLines text) s e
  \/ headerSection (splitLines text) s e.
Proof. apply foldLoop_kinds. constructor. Qed.

Lemma LineBased_folding_range_kinds_witness :
  let text := join [10%N] [str "# a"; str "<t>"; str "```"; str "x"; str "```"; str "</t>"] in
  (2, 4) ∈ LineBasedFolding.provideFoldingRanges text
  /\ (fenceRange (splitLines text) 2 4 \/ tagRange (splitLines text) 2 4
      \/ headerSection (splitLines text) 2 4).
Proof.
  intros text.
  assert ((2, 4) ∈ LineBasedFolding.provideFoldingRanges text) as H
    by (vm_compute; set_solver).
  split; [exact H | exact (LineBased_folding_range_kinds text 2 4 H)].
Defined.

(** ** C3: header levels, horizontal rules and shared lines *)









Section SectionDepths.

Variables (rules hrLines : list nat).
Hypothesis same_rules : forall h, h ∈ hrLines <-> h ∈ rules.






End SectionDepths.


Section ExtractorRules.

Variable tagsOfLine : nat -> jsstring -> list XmlTag.
Hypothesis tagsOfLine_line : forall i l t, t ∈ tagsOfLine i l -> line t = i.


End ExtractorRules.





























